(** * Stoneforge: rate-limit tracker, git merge engine, diagnostics read model

    A shallow embedding of the orchestration core of the repository:

    - [RateLimit]: the in-memory [RateLimitTrackerImpl]
      (services/rate-limit-tracker.ts), a [Map] keyed by executable name;
    - [GitMerge]: [execGitSafe], [hasRemote], [detectTargetBranch],
      [mergeBranch], [syncLocalBranch] and [syncLocalBranchFromCommit] of
      packages/smithy/src/git/merge.ts, as computations over an explicit
      model of the external world (the [git] child processes, the file
      system and the clock) that record every command they run;
    - [Diagnostics]: [collectStuckTasks] of server/routes/diagnostics.ts;
    - [SessionRoutes]: the rate-limit guard of the session start and resume
      endpoints;
    - [DiagnosticsRoutes]: [collectMergeQueue] and [collectAgentPool] of
      server/routes/diagnostics.ts, where the parsing of a timestamp is a
      parameter that may fail;
    - [OperationLog]: the statement that [query] of the operation log
      service builds;
    - [MetricsRoutes]: [parseTimeRange] of server/routes/metrics.ts.

    Conventions.  A JavaScript [Date] is its [getTime()] value, an integer
    number of milliseconds ([Z]); invalid dates are outside the model.
    A string is the sequence of bytes of its UTF-8 encoding, which is what
    git reads and prints and what Node decodes ([encoding: 'utf8']); a
    character outside ASCII is two to four bytes.  Bytes that are no
    well-formed UTF-8 (Node decodes them as U+FFFD) and lone surrogates are
    outside the model.  [undefined] is [None]. *)

From Stdlib Require Import ZArith List String Ascii Bool Lia DecimalString.
From Stdlib Require Import DecimalN DecimalFacts Floats Uint63.
From stdpp Require Import gmap strings list fin_maps.

Open Scope Z_scope.

(* ===================================================================== *)
(** * The rate-limit tracker *)
(* ===================================================================== *)

Module RateLimit.

(** [InternalEntry]: the value stored per executable. *)
Record InternalEntry := mkEntry { resetsAt : Z; recordedAt : Z }.

(** [RateLimitEntry]: what [getAllLimits] hands out. *)
Record RateLimitEntry :=
  mkLimit { executable : string; entryResetsAt : Z; entryRecordedAt : Z }.

(** The private field [limits : Map<string, InternalEntry>].  Every method
    below takes the map and the clock reading [now] (the value of
    [Date.now()] / [new Date()] during the call) and returns the new map
    next to its result. *)
Abbreviation Limits := (gmap string InternalEntry).

Definition empty : Limits := ∅.

(** [markLimited(executable, resetsAt)] *)
Definition markLimited (exe : string) (resets : Z) (now : Z) (limits : Limits)
  : Limits :=
  match limits !! exe with
  | Some existing =>
      if resetsAt existing >=? resets
      then limits   (* existing entry is later or equal: do not downgrade *)
      else <[exe := mkEntry resets now]> limits
  | None => <[exe := mkEntry resets now]> limits
  end.

(** [isLimited(executable)]: lazily expires the entry it looks at. *)
Definition isLimited (exe : string) (now : Z) (limits : Limits)
  : bool * Limits :=
  match limits !! exe with
  | None => (false, limits)
  | Some entry =>
      if resetsAt entry <=? now
      then (false, delete exe limits)
      else (true, limits)
  end.

(** [getAvailableExecutable(fallbackChain)]: the [for ... of] loop with its
    early [return]. *)
Fixpoint getAvailableExecutable (fallbackChain : list string) (now : Z)
    (limits : Limits) : option string * Limits :=
  match fallbackChain with
  | [] => (None, limits)
  | exe :: rest =>
      let '(limited, limits') := isLimited exe now limits in
      if negb limited then (Some exe, limits')
      else getAvailableExecutable rest now limits'
  end.

(** [Array.prototype.every] over [isLimited], stopping at the first
    [false]. *)
Fixpoint everyLimited (chain : list string) (now : Z) (limits : Limits)
  : bool * Limits :=
  match chain with
  | [] => (true, limits)
  | exe :: rest =>
      let '(limited, limits') := isLimited exe now limits in
      if limited then everyLimited rest now limits' else (false, limits')
  end.

(** [isAllLimited(fallbackChain)] *)
Definition isAllLimited (fallbackChain : list string) (now : Z)
    (limits : Limits) : bool * Limits :=
  match fallbackChain with
  | [] => (false, limits)
  | _ => everyLimited fallbackChain now limits
  end.

(** [expireStale()]: drop every entry whose [resetsAt] is not in the
    future. *)
Definition expireStale (now : Z) (limits : Limits) : Limits :=
  filter (fun kv => negb (resetsAt kv.2 <=? now) = true) limits.

(** [getSoonestResetTime()]: the loop keeps the first strictly smaller
    [resetsAt]; the result is the minimum whatever the iteration order. *)
Definition soonestStep (soonest : option Z) (entry : InternalEntry)
  : option Z :=
  match soonest with
  | None => Some (resetsAt entry)
  | Some s => if resetsAt entry <? s then Some (resetsAt entry) else Some s
  end.

Definition getSoonestResetTime (now : Z) (limits : Limits)
  : option Z * Limits :=
  let limits' := expireStale now limits in
  (fold_left soonestStep (snd <$> map_to_list limits') None, limits').

(** [getAllLimits()].  A JavaScript [Map] iterates in insertion order; the
    finite map iterates in key order: the list below holds the entries of
    the code's list, and its order is not the code's. *)
Definition getAllLimits (now : Z) (limits : Limits)
  : list RateLimitEntry * Limits :=
  let limits' := expireStale now limits in
  ((fun kv => mkLimit kv.1 (resetsAt kv.2) (recordedAt kv.2))
     <$> map_to_list limits', limits').

(** [clear()] *)
Definition clear (limits : Limits) : Limits := ∅.

(** ** Read-only views used in the statements *)

(** The reset time the tracker holds for [exe], if any. *)
Definition effectiveReset (limits : Limits) (exe : string) : option Z :=
  resetsAt <$> limits !! exe.

(** [exe] is limited at [now]: it has an entry whose reset time is still in
    the future.  This is the pure content of [isLimited]. *)
Definition limitedAt (limits : Limits) (now : Z) (exe : string) : bool :=
  match limits !! exe with
  | Some entry => negb (resetsAt entry <=? now)
  | None => false
  end.

End RateLimit.

(* ===================================================================== *)
(** * JavaScript string helpers *)
(* ===================================================================== *)

Module Js.

Open Scope string_scope.

(** The double-quote character. *)
Definition dquote : string := String "034"%char EmptyString.

(** [a ?? b] *)
Definition nullish {A} (a : option A) (b : A) : A :=
  match a with Some x => x | None => b end.

(** [hay.includes(needle)] *)
Fixpoint includes (needle hay : string) : bool :=
  String.prefix needle hay ||
  match hay with
  | EmptyString => false
  | String _ rest => includes needle rest
  end.

(** What [String.prototype.trim] removes: the white space and the line
    terminators of ECMAScript.  Those of one byte: TAB, LF, VT, FF, CR and
    the space. *)
Definition isSpace (c : ascii) : bool :=
  let n := nat_of_ascii c in
  ((9 <=? n)%nat && (n <=? 13)%nat) || (n =? 32)%nat.

(** The one of two bytes: U+00A0, the no-break space ([C2 A0]). *)
Definition isSpace2 (c1 c2 : ascii) : bool :=
  (nat_of_ascii c1 =? 194)%nat && (nat_of_ascii c2 =? 160)%nat.

(** Those of three bytes: U+1680 ([E1 9A 80]); U+2000 to U+200A, the line
    and paragraph separators U+2028 and U+2029, and U+202F ([E2 80 80] to
    [E2 80 8A], [E2 80 A8], [E2 80 A9], [E2 80 AF]); U+205F ([E2 81 9F]);
    U+3000 ([E3 80 80]); and U+FEFF, the byte order mark ([EF BB BF]). *)
Definition isSpace3 (c1 c2 c3 : ascii) : bool :=
  let n1 := nat_of_ascii c1 in
  let n2 := nat_of_ascii c2 in
  let n3 := nat_of_ascii c3 in
  ((n1 =? 225) && (n2 =? 154) && (n3 =? 128))%nat
  || ((n1 =? 226) && (n2 =? 128)
      && (((128 <=? n3) && (n3 <=? 138))
          || (n3 =? 168) || (n3 =? 169) || (n3 =? 175)))%nat
  || ((n1 =? 226) && (n2 =? 129) && (n3 =? 159))%nat
  || ((n1 =? 227) && (n2 =? 128) && (n3 =? 128))%nat
  || ((n1 =? 239) && (n2 =? 187) && (n3 =? 191))%nat.

(** The string is one such character. *)
Definition isWhiteSpace (s : string) : bool :=
  match s with
  | String c1 EmptyString => isSpace c1
  | String c1 (String c2 EmptyString) => isSpace2 c1 c2
  | String c1 (String c2 (String c3 EmptyString)) => isSpace3 c1 c2 c3
  | _ => false
  end.

(** Drops the leading white space, character by character. *)
Fixpoint trimStart (s : string) : string :=
  match s with
  | EmptyString => EmptyString
  | String c1 rest1 =>
      if isSpace c1 then trimStart rest1
      else
        match rest1 with
        | EmptyString => s
        | String c2 rest2 =>
            if isSpace2 c1 c2 then trimStart rest2
            else
              match rest2 with
              | EmptyString => s
              | String c3 rest3 =>
                  if isSpace3 c1 c2 c3 then trimStart rest3 else s
              end
        end
  end.

(** Drops the trailing white space: a byte is kept with what is kept of
    the bytes after it, unless the two together are one character of white
    space, the rest being white space only. *)
Fixpoint trimEnd (s : string) : string :=
  match s with
  | EmptyString => EmptyString
  | String c rest =>
      let kept := String c (trimEnd rest) in
      if isWhiteSpace kept then EmptyString else kept
  end.

(** [s.trim()] *)
Definition trim (s : string) : string := trimEnd (trimStart s).

(** Line terminators, which the regular expression [.] does not match.
    Those of one byte: LF and CR. *)
Definition isLineTerminator (c : ascii) : bool :=
  let n := nat_of_ascii c in (n =? 10)%nat || (n =? 13)%nat.

(** Those of three bytes: U+2028 and U+2029 ([E2 80 A8], [E2 80 A9]). *)
Definition isLineTerminator3 (c1 c2 c3 : ascii) : bool :=
  (nat_of_ascii c1 =? 226)%nat && (nat_of_ascii c2 =? 128)%nat
  && ((nat_of_ascii c3 =? 168)%nat || (nat_of_ascii c3 =? 169)%nat).

(** The string starts with a line terminator. *)
Definition startsWithLineTerminator (s : string) : bool :=
  match s with
  | EmptyString => false
  | String c1 rest =>
      isLineTerminator c1
      || match rest with
         | String c2 (String c3 _) => isLineTerminator3 c1 c2 c3
         | _ => false
         end
  end.

(** The longest prefix free of line terminators: what [(.+)] captures once
    it has started. *)
Fixpoint dotPlus (s : string) : string :=
  match s with
  | EmptyString => EmptyString
  | String c rest =>
      if startsWithLineTerminator s then EmptyString
      else String c (dotPlus rest)
  end.

(** [s] with its first [n] characters dropped. *)
Fixpoint dropStr (n : nat) (s : string) : string :=
  match n, s with
  | O, _ => s
  | S k, String _ rest => dropStr k rest
  | S _, EmptyString => EmptyString
  end.

(** A match of [<literal>(.+)] anchored at the start of [s]: the capture
    and the length of the whole match. *)
Definition matchLiteralDotPlus (literal s : string) : option (string * nat) :=
  if String.prefix literal s then
    let cap := dotPlus (dropStr (String.length literal) s) in
    match cap with
    | EmptyString => None
    | _ => Some (cap, (String.length literal + String.length cap)%nat)
    end
  else None.

(** A global scan with an anchored matcher: at each position try the
    matcher; after a match resume behind it ([skip] counts the characters
    of the match still to pass), otherwise move one character on.  An
    anchored matcher never matches the empty string. *)
Fixpoint scanAll {A} (matchAt : string -> option (A * nat)) (skip : nat)
    (s : string) : list A :=
  match s with
  | EmptyString => []
  | String _ rest =>
      match skip with
      | S k => scanAll matchAt k rest
      | O =>
          match matchAt s with
          | Some (a, len) => a :: scanAll matchAt (Nat.pred len) rest
          | None => scanAll matchAt O rest
          end
      end
  end.

(** The first match of a scan (a regular expression without the [g]
    flag). *)
Definition scanFirst {A} (matchAt : string -> option (A * nat)) (s : string)
  : option A :=
  head (scanAll matchAt O s).

(** [s.replace(/"/g, '\\"')] *)
Fixpoint escapeQuotes (s : string) : string :=
  match s with
  | EmptyString => EmptyString
  | String c rest =>
      if Ascii.eqb c "034"%char
      then String "092"%char (String "034"%char (escapeQuotes rest))
      else String c (escapeQuotes rest)
  end.

(** The character class [[a-zA-Z0-9-]]. *)
Definition isSafeChar (c : ascii) : bool :=
  let n := nat_of_ascii c in
  ((97 <=? n)%nat && (n <=? 122)%nat) ||
  ((65 <=? n)%nat && (n <=? 90)%nat) ||
  ((48 <=? n)%nat && (n <=? 57)%nat) ||
  (n =? 45)%nat.

(** What one byte of the text gives to [s.replace(/[^a-zA-Z0-9-]/g, '-')].
    The regular expression, which has no [u] flag, replaces UTF-16 code
    units.  An ASCII character is one byte and one code unit: it is kept or
    replaced.  A character outside ASCII is replaced, by one dash when it is
    one code unit (up to U+FFFF: its first byte is below [F0]) and by two
    when it is a surrogate pair (its first byte is [F0] or above); the bytes
    that continue a character ([80] to [BF]) give nothing more. *)
Definition replaced (c : ascii) : string :=
  let n := nat_of_ascii c in
  if (n <? 128)%nat then
    String (if isSafeChar c then c else "-"%char) EmptyString
  else if (n <? 192)%nat then ""
  else if (n <? 240)%nat then "-"
  else "--".

(** [s.replace(/[^a-zA-Z0-9-]/g, '-')] *)
Fixpoint sanitize (s : string) : string :=
  match s with
  | EmptyString => EmptyString
  | String c rest => replaced c ++ sanitize rest
  end.

(** A number interpolated into a template literal: its decimal digits. *)
Definition decimal (n : N) : string :=
  DecimalString.NilZero.string_of_uint (N.to_uint n).

End Js.

(* ===================================================================== *)
(** * POSIX paths: [node:path] *)
(* ===================================================================== *)

(** The two functions of [node:path] that merge.ts calls.  The merge engine
    is parametric in them; [NodePath.posix] is Node's POSIX implementation,
    with the process's current directory as a parameter. *)
Record PathApi := mkPathApi {
  path_join : list string -> string;     (* path.join(...args) *)
  path_resolve : string -> string        (* path.resolve(p) *)
}.

Module NodePath.

Import Js.
Open Scope string_scope.

(** [s.split('/')] *)
Fixpoint splitSlash (s : string) : list string :=
  match s with
  | EmptyString => [EmptyString]
  | String c rest =>
      if Ascii.eqb c "/"%char then EmptyString :: splitSlash rest
      else match splitSlash rest with
           | seg :: segs => String c seg :: segs
           | [] => [String c EmptyString]
           end
  end.

(** [normalizeString]: resolves [.] and [..] segments; [stack] holds the
    segments kept so far, the last one first. *)
Fixpoint normalizeSegs (allowAboveRoot : bool) (stack segs : list string)
  : list string :=
  match segs with
  | [] => rev stack
  | seg :: rest =>
      if String.eqb seg "" || String.eqb seg "." then
        normalizeSegs allowAboveRoot stack rest
      else if String.eqb seg ".." then
        match stack with
        | top :: below =>
            if String.eqb top ".."
            then normalizeSegs allowAboveRoot
                   (if allowAboveRoot then ".." :: stack else stack) rest
            else normalizeSegs allowAboveRoot below rest
        | [] =>
            normalizeSegs allowAboveRoot
              (if allowAboveRoot then [".."] else []) rest
        end
      else normalizeSegs allowAboveRoot (seg :: stack) rest
  end.

Definition normalizeString (p : string) (allowAboveRoot : bool) : string :=
  String.concat "/" (normalizeSegs allowAboveRoot [] (splitSlash p)).

Definition isAbsolute (p : string) : bool := String.prefix "/" p.

Fixpoint endsWithSlash (p : string) : bool :=
  match p with
  | EmptyString => false
  | String c EmptyString => Ascii.eqb c "/"%char
  | String _ rest => endsWithSlash rest
  end.

(** [posix.normalize] *)
Definition normalize (p : string) : string :=
  if String.eqb p "" then "."
  else
    let abs := isAbsolute p in
    let trailing := endsWithSlash p in
    let q := normalizeString p (negb abs) in
    if String.eqb q "" then
      (if abs then "/" else if trailing then "./" else ".")
    else
      let q' := if trailing then q ++ "/" else q in
      if abs then "/" ++ q' else q'.

(** [posix.join] *)
Definition join (args : list string) : string :=
  match List.filter (fun a => negb (String.eqb a "")) args with
  | [] => "."
  | parts => normalize (String.concat "/" parts)
  end.

(** [posix.resolve] with one argument; [cwd] is [process.cwd()], an
    absolute path. *)
Definition resolve (cwd : string) (p : string) : string :=
  let whole :=
    if String.eqb p "" then cwd ++ "/"
    else if isAbsolute p then p ++ "/"
    else cwd ++ "/" ++ p ++ "/" in
  "/" ++ normalizeString whole false.

Definition posix (cwd : string) : PathApi := mkPathApi join (resolve cwd).

End NodePath.

(* ===================================================================== *)
(** * The git merge engine *)
(* ===================================================================== *)

Module GitMerge.

Import Js.
Open Scope string_scope.

(** ** Types of merge.ts *)

Inductive MergeStrategy := Squash | Merge.

Record MergeBranchOptions := mkOptions {
  workspaceRoot : string;
  sourceBranch : string;
  targetBranch : option string;
  mergeStrategy : option MergeStrategy;
  autoPush : option bool;
  commitMessage : option string;
  preflight : option bool;
  syncLocal : option bool;
  localOnly : option bool
}.

Record MergeBranchResult := mkResult {
  success : bool;
  commitHash : option string;
  hasConflict : bool;
  error : option string;
  conflictFiles : option (list string)
}.

(** ** The commands the module runs *)

(** One constructor per command line that merge.ts builds; [gitArgs] gives
    the text after [git ], character for character. *)
Inductive GitCmd :=
| RemoteGetUrl (remoteName : string)
| SymbolicRefOriginHead
| RevParseVerify (ref : string)
| FetchOrigin
| MergeBase (preflightRef source : string)
| MergeTree (base preflightRef source : string)
| WorktreeRemoveForce (dir : string)
| WorktreeAddDetach (dir startRef : string)
| MergeSquash (source : string)
| Commit (escapedMessage : string)
| RevParseHead
| MergeNoFf (escapedMessage source : string)
| PushOriginHead (target : string)
| ResetHardHead
| MergeAbort
| SymbolicRefShortHead
| MergeFfOnly (ref : string)
| FetchOriginRef (target : string)
| BranchForce (target hash : string).

Definition gitArgs (c : GitCmd) : string :=
  match c with
  | RemoteGetUrl r => "remote get-url " ++ r
  | SymbolicRefOriginHead => "symbolic-ref refs/remotes/origin/HEAD"
  | RevParseVerify ref => "rev-parse --verify " ++ ref
  | FetchOrigin => "fetch origin"
  | MergeBase a b => "merge-base " ++ a ++ " " ++ b
  | MergeTree base a b => "merge-tree " ++ base ++ " " ++ a ++ " " ++ b
  | WorktreeRemoveForce dir =>
      "worktree remove --force " ++ dquote ++ dir ++ dquote
  | WorktreeAddDetach dir ref =>
      "worktree add --detach " ++ dquote ++ dir ++ dquote ++ " " ++ ref
  | MergeSquash src => "merge --squash " ++ src
  | Commit msg => "commit -m " ++ dquote ++ msg ++ dquote
  | RevParseHead => "rev-parse HEAD"
  | MergeNoFf msg src =>
      "merge --no-ff -m " ++ dquote ++ msg ++ dquote ++ " " ++ src
  | PushOriginHead target => "push origin HEAD:" ++ target
  | ResetHardHead => "reset --hard HEAD"
  | MergeAbort => "merge --abort"
  | SymbolicRefShortHead => "symbolic-ref --short HEAD"
  | MergeFfOnly ref => "merge --ff-only " ++ ref
  | FetchOriginRef target => "fetch origin " ++ target ++ ":" ++ target
  | BranchForce target hash => "branch -f " ++ target ++ " " ++ hash
  end.

(** The command line handed to the shell. *)
Definition commandLine (c : GitCmd) : string := "git " ++ gitArgs c.

(** The step of [mergeBranch]'s protocol a command belongs to: probing the
    repository (remote, default branch), step 1 (fetch), step 2 (pre-flight),
    steps 3 and 7 (creating and removing the temporary worktree), steps 4 to
    6 with the abort (merge, commit, rev-parse, push, reset or abort), and
    step 8 (local sync). *)
Inductive Stage :=
  Probing | Fetching | Preflighting | WorktreeAdmin | Merging | Syncing.

Definition stageOf (c : GitCmd) : Stage :=
  match c with
  | RemoteGetUrl _ | SymbolicRefOriginHead | RevParseVerify _ => Probing
  | FetchOrigin => Fetching
  | MergeBase _ _ | MergeTree _ _ _ => Preflighting
  | WorktreeRemoveForce _ | WorktreeAddDetach _ _ => WorktreeAdmin
  | MergeSquash _ | Commit _ | RevParseHead | MergeNoFf _ _
  | PushOriginHead _ | ResetHardHead | MergeAbort => Merging
  | SymbolicRefShortHead | MergeFfOnly _ | FetchOriginRef _
  | BranchForce _ _ => Syncing
  end.

Definition Stage_eqb (a b : Stage) : bool :=
  match a, b with
  | Probing, Probing | Fetching, Fetching | Preflighting, Preflighting
  | WorktreeAdmin, WorktreeAdmin | Merging, Merging | Syncing, Syncing => true
  | _, _ => false
  end.

(** The commands of the merge phase proper. *)
Definition mergePhase (c : GitCmd) : bool := Stage_eqb (stageOf c) Merging.

(** The commands that change the HEAD, the index or the files of the
    checkout they run in. *)
Definition mutatesCheckout (c : GitCmd) : bool :=
  match c with
  | MergeSquash _ | Commit _ | MergeNoFf _ _ | ResetHardHead | MergeAbort
  | MergeFfOnly _ => true
  | _ => false
  end.

(** ** The external world *)

(** What a child process gives back, and what a rejected promise carries:
    an [Error] with its message and, for a failed child process, the
    captured output. *)
Record ExecOutput := mkOut { stdout : string; stderr : string }.

Record JsError := mkErr {
  errMessage : string;
  errStdout : option string;
  errStderr : option string
}.

Inductive Outcome := Resolved (out : ExecOutput) | Rejected (e : JsError).

(** [Raw]: run with [execAsync] directly; [Safe]: run through
    [execGitSafe]. *)
Inductive Via := Raw | Safe.

(** What a call leaves behind, in order: the child processes it ran (how,
    in which working directory, what came back) and its [console.warn]
    lines. *)
Inductive Event :=
| Exec (via : Via) (cwd : string) (cmd : GitCmd) (res : Outcome)
| Warn (msg : string).

(** The world answers a command line run in a working directory, a
    [fs.existsSync] and a [Date.now()]; each answer may depend on
    everything that has happened so far. *)
Record World := mkWorld {
  git : list Event -> string -> string -> Outcome;
  existsSync : list Event -> string -> bool;
  dateNow : list Event -> N
}.

(** ** Computations *)

(** How an [async] function ends: it returns or it throws. *)
Inductive Completion (A : Type) :=
| Returned (a : A)
| Threw (e : JsError).
Arguments Returned {A} a.
Arguments Threw {A} e.

(** A computation reads the history and yields its completion and the
    events it added. *)
Definition M (A : Type) : Type := list Event -> Completion A * list Event.

Definition ret {A} (a : A) : M A := fun _ => (Returned a, []).

Definition throw {A} (e : JsError) : M A := fun _ => (Threw e, []).

Definition bind {A B} (m : M A) (k : A -> M B) : M B :=
  fun h =>
    match m h with
    | (Returned a, t1) =>
        let '(r, t2) := k a (h ++ t1)%list in (r, (t1 ++ t2)%list)
    | (Threw e, t1) => (Threw e, t1)
    end.

(** [try { m } catch (e) { handler e }] *)
Definition tryCatch {A} (m : M A) (handler : JsError -> M A) : M A :=
  fun h =>
    match m h with
    | (Returned a, t1) => (Returned a, t1)
    | (Threw e, t1) =>
        let '(r, t2) := handler e (h ++ t1)%list in (r, (t1 ++ t2)%list)
    end.

(** [try { m } finally { fin }]: [fin] runs however [m] ends; the
    completion is [m]'s unless [fin] throws. *)
Definition tryFinally {A} (m : M A) (fin : M unit) : M A :=
  fun h =>
    let '(r, t1) := m h in
    match fin (h ++ t1)%list with
    | (Returned _, t2) => (r, (t1 ++ t2)%list)
    | (Threw e, t2) => (Threw e, (t1 ++ t2)%list)
    end.

(** [promise.catch(e => e)]: the outcome as a value. *)
Definition settle (m : M ExecOutput) : M Outcome :=
  tryCatch (bind m (fun out => ret (Resolved out)))
           (fun e => ret (Rejected e)).

Definition warn (msg : string) : M unit := fun _ => (Returned tt, [Warn msg]).

Declare Scope m_scope.
Delimit Scope m_scope with M.
Notation "x <- m ;; k" := (bind m (fun x => k))
  (at level 100, m at next level, right associativity) : m_scope.
Notation "m ;;; k" := (bind m (fun _ => k))
  (at level 100, right associativity) : m_scope.
Open Scope m_scope.

Definition when (b : bool) (m : M unit) : M unit := if b then m else ret tt.

(** ** Parsing git's output *)

(** [stdout.trim().match(/refs\/remotes\/origin\/(.+)/)]: capture 1 of the
    first match. *)
Definition matchOriginHead (trimmed : string) : option string :=
  scanFirst (matchLiteralDotPlus "refs/remotes/origin/") trimmed.

(** [[...out.matchAll(/\+\+\+ b\/(.+)/g)].map(m => m[1])] *)
Definition preflightConflictFiles (dryRunOutput : string) : list string :=
  scanAll (matchLiteralDotPlus "+++ b/") O dryRunOutput.

(** The longest prefix without a closing parenthesis: [[^)]+] once it has
    started. *)
Fixpoint notParenPlus (s : string) : string :=
  match s with
  | EmptyString => EmptyString
  | String c rest =>
      if Ascii.eqb c ")"%char then EmptyString
      else String c (notParenPlus rest)
  end.

(** [/CONFLICT \([^)]+\): Merge conflict in (.+)/] anchored at the start of
    [s]: the matched text and its length. *)
Definition matchConflictAt (s : string) : option (string * nat) :=
  let open := "CONFLICT (" in
  let close := "): Merge conflict in " in
  if String.prefix open s then
    let inside := notParenPlus (dropStr (String.length open) s) in
    let afterInside :=
      dropStr (String.length open + String.length inside) s in
    match inside with
    | EmptyString => None
    | _ =>
        if String.prefix close afterInside then
          let file := dotPlus (dropStr (String.length close) afterInside) in
          match file with
          | EmptyString => None
          | _ =>
              let len := (String.length open + String.length inside
                          + String.length close + String.length file)%nat in
              Some (String.substring 0 len s, len)
          end
        else None
    end
  else None.

(** [/in (.+)$/] anchored at the start of [s]: the rest of the string must
    be non-empty and free of line terminators. *)
Definition matchInTailAt (s : string) : option (string * nat) :=
  if String.prefix "in " s then
    let rest := dropStr 3 s in
    match rest with
    | EmptyString => None
    | _ =>
        if String.eqb (dotPlus rest) rest
        then Some (rest, String.length s) else None
    end
  else None.

(** The [map] callback of the catch block: [m.match(/in (.+)$/)], capture 1
    or the empty string. *)
Definition conflictFileOf (m : string) : string :=
  nullish (scanFirst matchInTailAt m) "".

(** [output.match(/CONFLICT .../g)?.map(...).filter(Boolean)]: [match] with
    the [g] flag gives [null] when nothing matches. *)
Definition mergeConflictFiles (output : string) : option (list string) :=
  match scanAll matchConflictAt O output with
  | [] => None
  | conflictMatch =>
      Some (List.filter (fun f => negb (String.eqb f ""))
              (List.map conflictFileOf conflictMatch))
  end.

Section Engine.

Context (P : PathApi) (W : World).

(** ** Helpers of merge.ts *)

Definition completionOf (o : Outcome) : Completion ExecOutput :=
  match o with
  | Resolved out => Returned out
  | Rejected e => Threw e
  end.

(** [Date.now()] and [fs.existsSync(path)] *)
Definition jsDateNow : M N := fun h => (Returned (dateNow W h), []).

Definition fsExistsSync (path : string) : M bool :=
  fun h => (Returned (existsSync W h path), []).

(** [execAsync(`git ...`, { cwd, encoding: 'utf8' })] *)
Definition execAsync (c : GitCmd) (cwd : string) : M ExecOutput :=
  fun h =>
    let o := git W h cwd (commandLine c) in
    (completionOf o, [Exec Raw cwd c o]).

Definition safetyError (c : GitCmd) : JsError :=
  mkErr ("SAFETY: Refusing to run " ++ dquote ++ "git " ++ gitArgs c
         ++ dquote ++ " in main repo. Use a worktree.") None None.

(** [execGitSafe(command, worktreePath, workspaceRoot)] (lines 79-90) *)
Definition execGitSafe (c : GitCmd) (worktreePath workspaceRoot : string)
  : M ExecOutput :=
  if String.eqb (path_resolve P worktreePath) (path_resolve P workspaceRoot)
  then throw (safetyError c)
  else
    fun h =>
      let o := git W h worktreePath (commandLine c) in
      (completionOf o, [Exec Safe worktreePath c o]).

(** [try { ...; return x } catch { /* fall through */ }]: [Some x] when the
    block returned, [None] when control falls through. *)
Definition orFallThrough {A} (m : M A) : M (option A) :=
  tryCatch (a <- m ;; ret (Some a)) (fun _ => ret None).

(** [hasRemote(workspaceRoot, remoteName = 'origin')] (lines 98-111) *)
Definition hasRemote (root : string) (remoteName : string) : M bool :=
  tryCatch (execAsync (RemoteGetUrl remoteName) root ;;; ret true)
           (fun _ => ret false).

(** The [for (const name of ['main', 'master'])] loop of
    [detectTargetBranch] (lines 158-168). *)
Fixpoint tryLocalBranches (root : string) (names : list string)
  : M (option string) :=
  match names with
  | [] => ret None
  | name :: rest =>
      found <- orFallThrough
                 (execAsync (RevParseVerify ("refs/heads/" ++ name)) root ;;;
                  ret name) ;;
      match found with
      | Some b => ret (Some b)
      | None => tryLocalBranches root rest
      end
  end.

(** The body of [if (remoteExists) { ... }] (lines 121-155): [Some b] when
    one of its three blocks returned [b]. *)
Definition tryRemoteBranches (root : string) : M (option string) :=
  symref <- tryCatch
              (out <- execAsync SymbolicRefOriginHead root ;;
               ret (matchOriginHead (trim (stdout out))))
              (fun _ => ret None) ;;
  match symref with
  | Some b => ret (Some b)
  | None =>
      originMain <- orFallThrough
                      (execAsync (RevParseVerify "origin/main") root ;;;
                       ret "main") ;;
      match originMain with
      | Some b => ret (Some b)
      | None =>
          orFallThrough
            (execAsync (RevParseVerify "origin/master") root ;;;
             ret "master")
      end
  end.

(** [detectTargetBranch(workspaceRoot)] (lines 118-171) *)
Definition detectTargetBranch (root : string) : M string :=
  remoteExists <- hasRemote root "origin" ;;
  fromRemote <- (if remoteExists then tryRemoteBranches root
                 else ret None) ;;
  match fromRemote with
  | Some b => ret b
  | None =>
      fromLocal <- tryLocalBranches root ["main"; "master"] ;;
      ret (nullish fromLocal "main")
  end.

(** ** Local sync (step 8) *)

Definition detachedHeadWarning : string :=
  "[git/merge] WARNING: workspace is in detached HEAD state during syncLocalBranch. Skipping sync. Run `git checkout master` to fix.".

Definition syncFailedWarning : string :=
  "[git/merge] Failed to fast-forward local target branch (non-ff divergence or missing ref). Run `git pull` to sync manually.".

Definition localSyncFailedWarning : string :=
  "[git/merge] Failed to update local target branch after local-only merge.".

(** The inner [try] of both sync functions: the current branch, or
    [undefined] on a detached HEAD. *)
Definition currentBranchOf (root : string) : M (option string) :=
  orFallThrough
    (out <- execAsync SymbolicRefShortHead root ;; ret (trim (stdout out))).

(** [!currentBranch]: [undefined] or the empty string. *)
Definition noBranch (currentBranch : option string) : bool :=
  match currentBranch with
  | None => true
  | Some b => String.eqb b ""
  end.

(** [currentBranch === targetBranch] *)
Definition onBranch (currentBranch : option string) (target : string)
  : bool :=
  match currentBranch with
  | None => false
  | Some b => String.eqb b target
  end.

(** [syncLocalBranch(workspaceRoot, targetBranch)] (lines 357-395) *)
Definition syncLocalBranch (root target : string) : M unit :=
  tryCatch
    (currentBranch <- currentBranchOf root ;;
     if noBranch currentBranch then warn detachedHeadWarning
     else if onBranch currentBranch target then
       execAsync (MergeFfOnly ("origin/" ++ target)) root ;;; ret tt
     else
       execAsync (FetchOriginRef target) root ;;; ret tt)
    (fun _ => warn syncFailedWarning).

(** [syncLocalBranchFromCommit(workspaceRoot, targetBranch, commitHash)]
    (lines 404-436) *)
Definition syncLocalBranchFromCommit (root target hash : string) : M unit :=
  tryCatch
    (currentBranch <- currentBranchOf root ;;
     if onBranch currentBranch target then
       execAsync (MergeFfOnly hash) root ;;; ret tt
     else
       execAsync (BranchForce target hash) root ;;; ret tt)
    (fun _ => warn localSyncFailedWarning).

(** ** [mergeBranch] *)

(** [options.localOnly ?? !(await hasRemote(workspaceRoot))] (line 193) *)
Definition resolveLocalOnly (options : MergeBranchOptions) : M bool :=
  match localOnly options with
  | Some b => ret b
  | None =>
      remote <- hasRemote (workspaceRoot options) "origin" ;;
      ret (negb remote)
  end.

(** [options.targetBranch ?? await detectTargetBranch(workspaceRoot)]
    (line 195) *)
Definition resolveTargetBranch (options : MergeBranchOptions) : M string :=
  match targetBranch options with
  | Some t => ret t
  | None => detectTargetBranch (workspaceRoot options)
  end.

(** The commit message (lines 198-201). *)
Definition messageOf (options : MergeBranchOptions)
    (strategy : MergeStrategy) (target : string) : string :=
  nullish (commitMessage options)
    match strategy with
    | Squash =>
        "Squash merge " ++ sourceBranch options ++ " into " ++ target
    | Merge => "Merge branch '" ++ sourceBranch options ++ "'"
    end.

(** [localOnly ? targetBranch : `origin/${targetBranch}`] (lines 211 and
    251). *)
Definition refOf (isLocalOnly : bool) (target : string) : string :=
  if isLocalOnly then target else "origin/" ++ target.

Definition preflightRejection (dryRunOutput : string) : MergeBranchResult :=
  let files := preflightConflictFiles dryRunOutput in
  mkResult false None true (Some "Pre-flight: merge conflicts detected")
    match files with
    | [] => None
    | _ => Some files
    end.

(** [dryRun.stdout] of a settled promise: of the output, or of the error
    that [.catch(e => e)] turned into a value. *)
Definition outcomeStdout (o : Outcome) : option string :=
  match o with
  | Resolved out => Some (stdout out)
  | Rejected e => errStdout e
  end.

(** Step 2, the body of [if (preflight) { ... }] (lines 210-234): [Some r]
    when the function returns [r] from inside it. *)
Definition preflightCheck (root source target : string) (isLocalOnly : bool)
  : M (option MergeBranchResult) :=
  let preflightRef := refOf isLocalOnly target in
  tryCatch
    (mergeBase <- execAsync (MergeBase preflightRef source) root ;;
     dryRun <- settle
                 (execAsync
                    (MergeTree (trim (stdout mergeBase)) preflightRef source)
                    root) ;;
     match outcomeStdout dryRun with
     | Some out =>
         if includes "<<<<<<<" out
         then ret (Some (preflightRejection out))
         else ret None
     | None => ret None
     end)
    (fun _ => ret None).

(** The [try] block (lines 258-285). *)
Definition mergeSteps (root source target mergeDir message : string)
    (strategy : MergeStrategy) (pushes : bool) : M MergeBranchResult :=
  hash <- match strategy with
          | Squash =>
              execGitSafe (MergeSquash source) mergeDir root ;;;
              execGitSafe (Commit (escapeQuotes message)) mergeDir root ;;;
              out <- execGitSafe RevParseHead mergeDir root ;;
              ret (trim (stdout out))
          | Merge =>
              execGitSafe (MergeNoFf (escapeQuotes message) source)
                mergeDir root ;;;
              out <- execGitSafe RevParseHead mergeDir root ;;
              ret (trim (stdout out))
          end ;;
  when pushes
    (tryCatch
       (execGitSafe (PushOriginHead target) mergeDir root ;;; ret tt)
       (fun pushError =>
          warn ("[git/merge] Failed to push to remote: "
                ++ errMessage pushError))) ;;;
  ret (mkResult true (Some hash) false None None).

(** The [catch (error)] block (lines 286-320). *)
Definition onMergeError (root mergeDir : string) (strategy : MergeStrategy)
    (execError : JsError) : M MergeBranchResult :=
  let output := nullish (errStdout execError) ""
                ++ nullish (errStderr execError) ""
                ++ errMessage execError in
  if includes "CONFLICT" output || includes "Automatic merge failed" output
  then
    tryCatch
      (match strategy with
       | Squash => execGitSafe ResetHardHead mergeDir root
       | Merge => execGitSafe MergeAbort mergeDir root
       end ;;; ret tt)
      (fun _ => ret tt) ;;;
    ret (mkResult false None true (Some "Merge conflict detected")
           (mergeConflictFiles output))
  else
    ret (mkResult false None false
           (Some (if String.eqb output "" then "Merge failed" else output))
           None).

(** The [finally] block (lines 321-330). *)
Definition removeWorktree (root mergeDir : string) : M unit :=
  tryCatch (execAsync (WorktreeRemoveForce mergeDir) root ;;; ret tt)
           (fun _ => ret tt).

(** Steps 4 to 7, the [try] / [catch] / [finally] statement (lines
    258-330): its value is [mergeResult]. *)
Definition mergeInWorktree (root source target mergeDir message : string)
    (strategy : MergeStrategy) (pushes : bool) : M MergeBranchResult :=
  tryFinally
    (tryCatch
       (mergeSteps root source target mergeDir message strategy pushes)
       (onMergeError root mergeDir strategy))
    (removeWorktree root mergeDir).

(** Step 8 (lines 335-341). *)
Definition syncStep (root target : string) (isLocalOnly pushes syncs : bool)
    (mergeResult : MergeBranchResult) : M unit :=
  when (success mergeResult && syncs)
    (if isLocalOnly then
       syncLocalBranchFromCommit root target
         (nullish (commitHash mergeResult) "undefined")
     else if pushes then syncLocalBranch root target
     else ret tt).

Definition mergeDirOf (root source : string) (now : N) : string :=
  let safeName := sanitize source in
  let mergeDirName := "_merge-" ++ safeName ++ "-" ++ decimal now in
  path_join P [root; ".stoneforge/.worktrees"; mergeDirName].

(** Steps 3 to 8 of [mergeBranch] (lines 236-343), for the resolved
    [localOnly] and target branch. *)
Definition worktreeMerge (options : MergeBranchOptions) (isLocalOnly : bool)
    (target : string) : M MergeBranchResult :=
  let root := workspaceRoot options in
  let source := sourceBranch options in
  let strategy := nullish (mergeStrategy options) Squash in
  let pushes := nullish (autoPush options) true in
  let syncs := nullish (syncLocal options) true in
  let message := messageOf options strategy target in
  (* 3. temporary worktree *)
  now <- jsDateNow ;;
  let mergeDir := mergeDirOf root source now in
  leftover <- fsExistsSync mergeDir ;;
  when leftover
    (execAsync (WorktreeRemoveForce mergeDir) root ;;; ret tt) ;;;
  execAsync (WorktreeAddDetach mergeDir (refOf isLocalOnly target)) root ;;;
  (* 4-7. merge, commit, push; abort on conflict; remove the worktree *)
  mergeResult <-
    mergeInWorktree root source target mergeDir message strategy
      (pushes && negb isLocalOnly) ;;
  (* 8. local sync *)
  syncStep root target isLocalOnly pushes syncs mergeResult ;;;
  ret mergeResult.

(** [mergeBranch(options)] (lines 181-344) *)
Definition mergeBranch (options : MergeBranchOptions) : M MergeBranchResult :=
  let root := workspaceRoot options in
  let source := sourceBranch options in
  let preflights := nullish (preflight options) true in
  isLocalOnly <- resolveLocalOnly options ;;
  target <- resolveTargetBranch options ;;
  (* 1. fetch *)
  when (negb isLocalOnly) (execAsync FetchOrigin root ;;; ret tt) ;;;
  (* 2. pre-flight *)
  rejected <- (if preflights
               then preflightCheck root source target isLocalOnly
               else ret None) ;;
  match rejected with
  | Some result => ret result
  | None => worktreeMerge options isLocalOnly target
  end.

End Engine.

(** ** Predicates on runs *)

(** Every event that [m] adds, from whatever history, satisfies [Q]. *)
Definition Emits {A} (Q : Event -> Prop) (m : M A) : Prop :=
  forall h, Forall Q (m h).2.

(** [m] returns, from whatever history: it never throws. *)
Definition NeverThrows {A} (m : M A) : Prop :=
  forall h, exists a, (m h).1 = Returned a.

(** The discipline of merge.ts on one event, for the workspace root [root]
    and a set of protocol stages: a command run with [execAsync] runs in the
    workspace root, belongs to one of the stages and is no merge-phase
    command; a command run through [execGitSafe] is a merge-phase command
    (the merge phase being one of the stages) and its working directory does
    not resolve to the workspace root. *)
Definition Tame (P : PathApi) (root : string) (stages : Stage -> bool)
    (ev : Event) : Prop :=
  match ev with
  | Exec Raw cwd c _ =>
      cwd = root /\ stages (stageOf c) = true /\ mergePhase c = false
  | Exec Safe cwd c _ =>
      path_resolve P cwd <> path_resolve P root /\
      stages Merging = true /\ mergePhase c = true
  | Warn _ => True
  end.

(** Every stage but the local sync, and the local sync when [syncs]. *)
Definition stagesOf (syncs : bool) (s : Stage) : bool :=
  if Stage_eqb s Syncing then syncs else true.

(** The stages of steps 3 to 8: worktree administration, the merge phase,
    and the local sync when [syncs]. *)
Definition worktreeStages (syncs : bool) (s : Stage) : bool :=
  match s with
  | WorktreeAdmin | Merging => true
  | Syncing => syncs
  | _ => false
  end.

(** The event is a command of the given stage. *)
Definition atStage (s : Stage) (ev : Event) : bool :=
  match ev with
  | Exec _ _ c _ => Stage_eqb (stageOf c) s
  | Warn _ => false
  end.

(** The event is a command that changes the checkout it runs in, run in a
    directory that resolves to the workspace root. *)
Definition mutatesMainCheckout (P : PathApi) (root : string) (ev : Event)
  : bool :=
  match ev with
  | Exec _ cwd c _ =>
      mutatesCheckout c &&
      String.eqb (path_resolve P cwd) (path_resolve P root)
  | Warn _ => false
  end.

(** The event is a command that moves the local target branch: a
    fast-forward-only merge in place, or an update of the branch ref. *)
Definition updatesLocalBranch (ev : Event) : bool :=
  match ev with
  | Exec _ _ (MergeFfOnly _) _ | Exec _ _ (FetchOriginRef _) _
  | Exec _ _ (BranchForce _ _) _ => true
  | _ => false
  end.

(** The event is the creation of the temporary worktree. *)
Definition createsWorktree (ev : Event) : bool :=
  match ev with
  | Exec _ _ (WorktreeAddDetach _ _) _ => true
  | _ => false
  end.

(** The temporary worktree exists: [git worktree add] succeeded. *)
Definition worktreeCreated (ev : Event) : bool :=
  match ev with
  | Exec _ _ (WorktreeAddDetach _ _) (Resolved _) => true
  | _ => false
  end.

(** The event is the failure, with error [e], of a command that
    [mergeBranch] runs outside its [try] block: the fetch of step 1, or the
    worktree administration of step 3. *)
Definition failsOutsideTry (root : string) (e : JsError) (ev : Event)
  : Prop :=
  exists c,
    ev = Exec Raw root c (Rejected e) /\
    (stageOf c = Fetching \/ stageOf c = WorktreeAdmin).

(** A failed command of the merge phase, the push apart. *)
Definition mergeFailure (ev : Event) : Prop :=
  match ev with
  | Exec Safe _ c (Rejected _) =>
      match c with
      | PushOriginHead _ => False
      | _ => True
      end
  | _ => False
  end.

(** The stages before step 2: probing and fetch. *)
Definition earlyStages (s : Stage) : bool :=
  match s with
  | Probing | Fetching => true
  | _ => false
  end.

(** ** What the local sync is expected to run *)

(** With a remote: read the current branch; on a detached HEAD (or when the
    branch cannot be read) skip the sync with a warning; on the target
    branch fast-forward in place; otherwise update only the branch ref; a
    failure is logged. *)
Definition expectedRemoteSync (W : World) (root target : string)
    (h : list Event) : list Event :=
  let head := git W h root (commandLine SymbolicRefShortHead) in
  let readHead := Exec Raw root SymbolicRefShortHead head in
  let current :=
    match head with
    | Resolved out => trim (stdout out)
    | Rejected _ => ""
    end in
  if String.eqb current "" then [readHead; Warn detachedHeadWarning]
  else
    let c := if String.eqb current target
             then MergeFfOnly ("origin/" ++ target)
             else FetchOriginRef target in
    let res := git W (h ++ [readHead])%list root (commandLine c) in
    readHead :: Exec Raw root c res ::
      match res with
      | Resolved _ => []
      | Rejected _ => [Warn syncFailedWarning]
      end.

(** In local-only mode: read the current branch; on the target branch
    fast-forward in place to the merge commit; otherwise (also on a detached
    HEAD) move only the branch ref; a failure is logged. *)
Definition expectedLocalSync (W : World) (root target hash : string)
    (h : list Event) : list Event :=
  let head := git W h root (commandLine SymbolicRefShortHead) in
  let readHead := Exec Raw root SymbolicRefShortHead head in
  let onTarget :=
    match head with
    | Resolved out => String.eqb (trim (stdout out)) target
    | Rejected _ => false
    end in
  let c := if onTarget then MergeFfOnly hash else BranchForce target hash in
  let res := git W (h ++ [readHead])%list root (commandLine c) in
  readHead :: Exec Raw root c res ::
    match res with
    | Resolved _ => []
    | Rejected _ => [Warn localSyncFailedWarning]
    end.

(** [options] with [syncLocal] set to [b]. *)
Definition withSyncLocal (b : bool) (o : MergeBranchOptions)
  : MergeBranchOptions :=
  mkOptions (workspaceRoot o) (sourceBranch o) (targetBranch o)
    (mergeStrategy o) (autoPush o) (commitMessage o) (preflight o)
    (Some b) (localOnly o).

End GitMerge.

(* ===================================================================== *)
(** * The diagnostics read model: stuck tasks *)
(* ===================================================================== *)

Module Diagnostics.

Import Js.
Open Scope string_scope.

(** Modelled from the spec: the values of [TaskStatus.IN_PROGRESS] and
    [TaskStatus.REVIEW] of @stoneforge/core, which is not among the sources;
    the spec and the route's tests spell them [in_progress] and [review]. *)
Definition IN_PROGRESS : string := "in_progress".
Definition REVIEW : string := "review".

(** The fields of the orchestrator metadata that diagnostics.ts reads. *)
Record OrchestratorTaskMeta := mkMeta {
  assignedAgent : option string;
  resumeCount : option Z;
  mergeStatus : option string
}.

Record StuckTaskDiagnostic := mkStuck {
  taskId : string;
  stuckTitle : string;
  stuckStatus : string;
  assignee : option string;
  stuckResumeCount : Z;
  stuckMergeStatus : option string
}.

Section Collect.

(** [Metadata] is the type of [task.metadata], [Session] that of a session
    record.  [getOrchestratorTaskMeta] (types/task-meta.ts) is not among the
    sources: it is a parameter. *)
Context {Metadata Session : Type}.
Context (getOrchestratorTaskMeta : Metadata -> option OrchestratorTaskMeta).

Record Task := mkTask {
  id : string;
  title : option string;
  status : string;
  metadata : Metadata
}.

(** What [collectStuckTasks] reads of [services]: the awaited value of
    [services.api.list({ type: 'task' })] and
    [services.sessionManager.getActiveSession]. *)
Record Services := mkServices {
  apiList : list Task;
  getActiveSession : string -> option Session
}.

(** [t.status === TaskStatus.IN_PROGRESS || t.status === TaskStatus.REVIEW] *)
Definition isCandidate (t : Task) : bool :=
  String.eqb (status t) IN_PROGRESS || String.eqb (status t) REVIEW.

(** [task.title || task.id] *)
Definition titleOf (t : Task) : string :=
  match title t with
  | Some s => if String.eqb s "" then id t else s
  | None => id t
  end.

(** The body of the [for] loop (lines 165-188): the entry pushed for
    [task], if any. *)
Definition stuckEntry (services : Services) (task : Task)
  : option StuckTaskDiagnostic :=
  match getOrchestratorTaskMeta (metadata task) with
  | None => None                                    (* continue *)
  | Some meta =>
      let count := nullish (resumeCount meta) 0 in
      match assignedAgent meta with
      | Some agent =>
          if negb (String.eqb agent "") && (count >=? 2) then
            match getActiveSession services agent with
            | None =>
                Some (mkStuck (id task) (titleOf task) (status task)
                        (assignedAgent meta) count (mergeStatus meta))
            | Some _ => None
            end
          else None
      | None => None
      end
  end.

Fixpoint stuckLoop (services : Services) (candidateTasks : list Task)
    (stuckTasks : list StuckTaskDiagnostic) : list StuckTaskDiagnostic :=
  match candidateTasks with
  | [] => stuckTasks
  | task :: rest =>
      match stuckEntry services task with
      | Some d => stuckLoop services rest (stuckTasks ++ [d])
      | None => stuckLoop services rest stuckTasks
      end
  end.

(** [collectStuckTasks(services)] (lines 155-191) *)
Definition collectStuckTasks (services : Services)
  : list StuckTaskDiagnostic :=
  let allTasks := apiList services in
  let candidateTasks := List.filter isCandidate allTasks in
  stuckLoop services candidateTasks [].

(** The claim's condition, as a proposition: the status is in-progress or
    review, an agent is assigned, the resume count is at least two, and the
    session manager has no active session for that agent. *)
Definition Stuck (services : Services) (task : Task) : Prop :=
  (status task = IN_PROGRESS \/ status task = REVIEW) /\
  exists meta agent,
    getOrchestratorTaskMeta (metadata task) = Some meta /\
    assignedAgent meta = Some agent /\ agent <> "" /\
    2 <= nullish (resumeCount meta) 0 /\
    getActiveSession services agent = None.

(** The entry that reports [task]. *)
Definition reportOf (task : Task) (d : StuckTaskDiagnostic) : Prop :=
  exists meta,
    getOrchestratorTaskMeta (metadata task) = Some meta /\
    d = mkStuck (id task) (titleOf task) (status task) (assignedAgent meta)
          (nullish (resumeCount meta) 0) (mergeStatus meta).

End Collect.

End Diagnostics.

(* ===================================================================== *)
(** * The rate-limit guard of the session endpoints *)
(* ===================================================================== *)

Module SessionRoutes.

Open Scope string_scope.

(** What the guard reads: whether every configured executable is limited,
    and the soonest reset time, if one is known. *)
Record RateLimitStatus := mkStatus {
  allLimited : bool;
  soonestReset : option Z
}.

Record RateLimitedBody := mkBody {
  code : string;
  message : string;
  retryAfter : Z;
  bodySoonestReset : option Z
}.

Inductive GuardResult :=
| Reject (httpStatus : Z) (retryAfterHeader : Z) (body : RateLimitedBody)
| Proceed.

(** Modelled from the spec: the number of seconds in the [Retry-After]
    header of the session start and resume endpoints (routes/sessions.ts is
    not among the sources; its test is).  The spec asks for a value computed
    from [soonestReset], clamped to a sane minimum and defaulting to 60 s
    when no reset time is known: the remaining time in whole seconds,
    rounded up, and at least one second. *)
Definition retryAfterSeconds (now : Z) (soonest : option Z) : Z :=
  match soonest with
  | None => 60
  | Some r => Z.max 1 (- ((now - r) / 1000))
  end.

(** Modelled from the spec: the guard that [POST /sessions/:id/start] and
    [/resume] run before spawning (routes/sessions.ts is not among the
    sources): HTTP 429 with a [Retry-After] header and the JSON body
    [{error: {code: 'RATE_LIMITED', message, retryAfter, soonestReset}}] when
    all configured executables are limited; otherwise the handler goes on to
    start or resume the session.  No daemon means no rate-limit check. *)
Definition rateLimitGuard (daemon : option RateLimitStatus) (now : Z)
  : GuardResult :=
  match daemon with
  | None => Proceed
  | Some st =>
      if allLimited st then
        let secs := retryAfterSeconds now (soonestReset st) in
        Reject 429 secs
          (mkBody "RATE_LIMITED"
             "All configured executables are rate-limited" secs
             (soonestReset st))
      else Proceed
  end.

(** Modelled from the spec: the status the guard reads, computed from the
    tracker ([isAllLimited] over the configured chain, then
    [getSoonestResetTime]). *)
Definition statusOf (chain : list string) (now : Z)
    (limits : gmap string RateLimit.InternalEntry) : RateLimitStatus :=
  let '(all, limits1) := RateLimit.isAllLimited chain now limits in
  let '(soonest, _) := RateLimit.getSoonestResetTime now limits1 in
  mkStatus all soonest.

End SessionRoutes.

(* ===================================================================== *)
(** * Repository states and example worlds *)
(* ===================================================================== *)

Module Scenario.

Import Js GitMerge.
Open Scope string_scope.

(** A world whose answers do not change while the call runs: a fixed
    repository state [repo] (the outcome of every command line in every
    directory), a fixed file system and a fixed clock. *)
Definition staticWorld (repo : string -> string -> Outcome)
    (fileExists : string -> bool) (now : N) : World :=
  mkWorld (fun _ => repo) (fun _ => fileExists) (fun _ => now).

(** ** The fallback order of branch detection, step by step *)

(** The command succeeds in the repository state. *)
Definition succeeds (repo : string -> string -> Outcome) (root : string)
    (c : GitCmd) : bool :=
  match repo root (commandLine c) with
  | Resolved _ => true
  | Rejected _ => false
  end.

(** The remote symbolic-ref step: [origin/HEAD] is a symbolic ref and names
    a branch. *)
Definition symrefStep (repo : string -> string -> Outcome) (root : string)
  : option string :=
  match repo root (commandLine SymbolicRefOriginHead) with
  | Resolved out => matchOriginHead (trim (stdout out))
  | Rejected _ => None
  end.

(** A step that answers [name] when [ref] exists. *)
Definition existsStep (repo : string -> string -> Outcome) (root : string)
    (ref name : string) : option string :=
  if succeeds repo root (RevParseVerify ref) then Some name else None.

Definition remoteSteps (repo : string -> string -> Outcome) (root : string)
  : list (option string) :=
  [ symrefStep repo root;
    existsStep repo root "origin/main" "main";
    existsStep repo root "origin/master" "master" ].

Definition localSteps (repo : string -> string -> Outcome) (root : string)
  : list (option string) :=
  [ existsStep repo root "refs/heads/main" "main";
    existsStep repo root "refs/heads/master" "master" ].

(** The first step of an order that succeeds. *)
Fixpoint firstSuccess (steps : list (option string)) : option string :=
  match steps with
  | [] => None
  | Some b :: _ => Some b
  | None :: rest => firstSuccess rest
  end.

(** The order as the claim words it: configured base branch, remote
    symbolic-ref, [origin/main], [origin/master], local [main], local
    [master], the literal [main]. *)
Definition claimedOrder (configured : option string)
    (repo : string -> string -> Outcome) (root : string)
  : list (option string) :=
  [configured] ++ remoteSteps repo root ++ localSteps repo root
  ++ [Some "main"].

(** The order [detectTargetBranch] follows: no configured branch, and the
    remote steps only when the remote [origin] exists. *)
Definition detectOrder (repo : string -> string -> Outcome) (root : string)
  : list (option string) :=
  (if succeeds repo root (RemoteGetUrl "origin")
   then remoteSteps repo root else [])
  ++ localSteps repo root ++ [Some "main"].

(** ** Example repositories *)

Definition ok (out : string) : Outcome := Resolved (mkOut out "").

Definition failed (cmd err : string) : Outcome :=
  Rejected (mkErr ("Command failed: " ++ cmd) (Some "") (Some err)).

Definition lf : string := String "010"%char EmptyString.

(** A clone of a remote whose default branch is [main], checked out on
    [main]; every command succeeds. *)
Definition cloneRepo (cwd cmd : string) : Outcome :=
  if String.eqb cmd "git symbolic-ref refs/remotes/origin/HEAD"
  then ok ("refs/remotes/origin/main" ++ lf)
  else if String.eqb cmd "git rev-parse HEAD" then ok ("abc123" ++ lf)
  else if String.eqb cmd "git symbolic-ref --short HEAD" then ok ("main" ++ lf)
  else if String.eqb cmd "git merge-base origin/main feature/x"
  then ok ("0a1b2c" ++ lf)
  else ok "".

(** The same clone, with the workspace on a detached HEAD. *)
Definition detachedRepo (cwd cmd : string) : Outcome :=
  if String.eqb cmd "git symbolic-ref --short HEAD"
  then failed cmd "fatal: ref HEAD is not a symbolic ref"
  else cloneRepo cwd cmd.


(** The same clone, where the dry-run merge of [feature/x] reports a
    conflict in [src/app.ts]. *)
Definition conflictingRepo (cwd cmd : string) : Outcome :=
  if String.eqb cmd "git merge-tree 0a1b2c origin/main feature/x"
  then ok ("--- a/src/app.ts" ++ lf ++ "+++ b/src/app.ts" ++ lf
           ++ "<<<<<<< .our" ++ lf)
  else cloneRepo cwd cmd.

(** The same clone, where the branches have no common ancestor. *)
Definition unrelatedRepo (cwd cmd : string) : Outcome :=
  if String.eqb cmd "git merge-base origin/main feature/x"
  then failed cmd ""
  else cloneRepo cwd cmd.

(** The same clone, where the temporary worktree cannot be created. *)
Definition noWorktreeRepo (cwd cmd : string) : Outcome :=
  if String.prefix "git worktree add" cmd
  then failed cmd "fatal: could not create work tree"
  else cloneRepo cwd cmd.

(** The same clone, where the squash merge stops on a conflict. *)
Definition squashConflictRepo (cwd cmd : string) : Outcome :=
  if String.eqb cmd "git merge --squash feature/x"
  then Rejected (mkErr ("Command failed: " ++ cmd)
                   (Some ("CONFLICT (content): Merge conflict in src/app.ts"
                          ++ lf ++ "Automatic merge failed; fix conflicts"
                          ++ lf))
                   (Some ""))
  else cloneRepo cwd cmd.

(** A repository without any remote, ref or branch: every command fails. *)
Definition emptyRepo (cwd cmd : string) : Outcome := failed cmd "fatal".

(** A repository without a remote named [origin], with a local branch
    [master] and a local branch that is itself called [origin/main]. *)
Definition strayRefRepo (cwd cmd : string) : Outcome :=
  if String.eqb cmd "git rev-parse --verify origin/main" then ok ("1f2e3d" ++ lf)
  else if String.eqb cmd "git rev-parse --verify refs/heads/master"
  then ok ("4c5b6a" ++ lf)
  else failed cmd "fatal".

Definition noFiles (path : string) : bool := false.

Definition clock : N := 1700000000000%N.

Definition world (repo : string -> string -> Outcome) : World :=
  staticWorld repo noFiles clock.

Definition posix : PathApi := NodePath.posix "/home/dev".

(** [mergeBranch({ workspaceRoot: '/repo', sourceBranch: 'feature/x' })] *)
Definition defaults : MergeBranchOptions :=
  mkOptions "/repo" "feature/x" None None None None None None None.

(** The same call with [autoPush: false, localOnly: false, syncLocal: true]. *)
Definition noPush : MergeBranchOptions :=
  mkOptions "/repo" "feature/x" None None (Some false) None None
    (Some true) (Some false).

(** The same call with [syncLocal: false]. *)
Definition noSync : MergeBranchOptions :=
  mkOptions "/repo" "feature/x" None None None None None (Some false) None.

Definition mergeDir : string :=
  "/repo/.stoneforge/.worktrees/_merge-feature-x-1700000000000".

(** ** The tracker and the task lists of the unit tests *)

(** [tracker.markLimited('claude', now + 60s)] on a fresh tracker, the
    clock standing at 1000. *)
Definition claudeLimited : gmap string RateLimit.InternalEntry :=
  RateLimit.markLimited "claude" 61000 1000 RateLimit.empty.

(** The task of the test 'identifies stuck tasks with high resume count and
    no active session', and the ones of its neighbours. *)
Definition stuckTask : Diagnostics.Task :=
  Diagnostics.mkTask "el-stuck1" (Some "Stuck task") "in_progress"
    (Some (Diagnostics.mkMeta (Some "el-worker1") (Some 3) None)).

Definition lowResumeTask : Diagnostics.Task :=
  Diagnostics.mkTask "el-low" (Some "Low resume task") "in_progress"
    (Some (Diagnostics.mkMeta (Some "el-worker1") (Some 1) None)).

Definition closedTask : Diagnostics.Task :=
  Diagnostics.mkTask "el-done" (Some "Closed task") "closed"
    (Some (Diagnostics.mkMeta (Some "el-worker1") (Some 5) None)).

(** The metadata of these tasks is the orchestrator metadata itself. *)
Definition metaOf (m : option Diagnostics.OrchestratorTaskMeta)
  : option Diagnostics.OrchestratorTaskMeta := m.

(** No agent has an active session. *)
Definition idleServices : Diagnostics.Services :=
  Diagnostics.mkServices [lowResumeTask; stuckTask; closedTask]
    (fun _ : string => @None unit).

(** Every agent has an active session. *)
Definition busyServices : Diagnostics.Services :=
  Diagnostics.mkServices [lowResumeTask; stuckTask; closedTask]
    (fun _ : string => Some tt).

End Scenario.

(* ===================================================================== *)
(** * Views used in the statements *)
(* ===================================================================== *)

(** ** The tracker *)

Module RateLimitViews.

Import RateLimit.

(** A read removes nothing but entries that are no longer live. *)
Definition expiredOnly (now : Z) (limits limits' : gmap string InternalEntry)
  : Prop :=
  forall exe,
    limits' !! exe = limits !! exe
    \/ (limits' !! exe = None /\
        exists entry, limits !! exe = Some entry /\ resetsAt entry <= now).

End RateLimitViews.

(** ** Paths *)

Module PathViews.

Import Js.
Open Scope string_scope.

(** The string holds no path separator. *)
Fixpoint noSlash (s : string) : bool :=
  match s with
  | EmptyString => true
  | String c rest => negb (Ascii.eqb c "/"%char) && noSlash rest
  end.

(** A path segment that normalization keeps as it is: not empty, not [.]
    and not [..], and without a separator. *)
Definition ordinary (seg : string) : bool :=
  negb (String.eqb seg "") && negb (String.eqb seg ".")
  && negb (String.eqb seg "..") && noSlash seg.

(** [_merge-${safeName}-${Date.now()}] (line 238) *)
Definition mergeDirName (source : string) (now : N) : string :=
  "_merge-" ++ sanitize source ++ "-" ++ decimal now.

(** The segments that [mergeBranch] appends to the workspace root. *)
Definition worktreeSegments (name : string) : list string :=
  [".stoneforge"; ".worktrees"; name].

End PathViews.

(** ** The runs of [mergeBranch] *)

Module MergeViews.

Import Js GitMerge.
Open Scope string_scope.

(** The event is a command that talks to the remote. *)
Definition contactsRemote (ev : Event) : bool :=
  match ev with
  | Exec _ _ FetchOrigin _ | Exec _ _ (PushOriginHead _) _
  | Exec _ _ (FetchOriginRef _) _ => true
  | _ => false
  end.

(** The event is a warning on the console. *)
Definition isWarning (ev : Event) : bool :=
  match ev with
  | Warn _ => true
  | Exec _ _ _ _ => false
  end.

(** The event is a command that moved the local target branch: one that
    updates it, and succeeded. *)
Definition movedBranch (ev : Event) : bool :=
  match ev with
  | Exec _ _ _ (Resolved _) => updatesLocalBranch ev
  | _ => false
  end.

(** The event is a command run through [execGitSafe] inside [dir], or a
    warning. *)
Definition inWorktree (dir : string) (ev : Event) : Prop :=
  match ev with
  | Exec Safe cwd _ _ => cwd = dir
  | Exec Raw _ _ _ => False
  | Warn _ => True
  end.

(** The commands of steps 4 and 5: merge, commit and rev-parse. *)
Definition mergeStep (c : GitCmd) : bool :=
  match c with
  | MergeSquash _ | Commit _ | RevParseHead | MergeNoFf _ _ => true
  | _ => false
  end.

(** The first command of the [try] block: the merge itself. *)
Definition mergeCommand (strategy : MergeStrategy) (source message : string)
  : GitCmd :=
  match strategy with
  | Squash => MergeSquash source
  | Merge => MergeNoFf (escapeQuotes message) source
  end.

(** The command that undoes a merge that stopped on a conflict. *)
Definition abortOf (strategy : MergeStrategy) : GitCmd :=
  match strategy with
  | Squash => ResetHardHead
  | Merge => MergeAbort
  end.

(** What the [catch] block inspects of an error: its [stdout], [stderr] and
    [message], concatenated. *)
Definition errorOutput (e : JsError) : string :=
  nullish (errStdout e) "" ++ nullish (errStderr e) "" ++ errMessage e.

Definition looksLikeConflict (e : JsError) : bool :=
  includes "CONFLICT" (errorOutput e)
  || includes "Automatic merge failed" (errorOutput e).

Definition pushWarning (e : JsError) : string :=
  "[git/merge] Failed to push to remote: " ++ errMessage e.

(** The event is a command of the given stage run with [execAsync] in
    [root]. *)
Definition rawAt (root : string) (stage : Stage) (ev : Event) : Prop :=
  exists c res, ev = Exec Raw root c res /\ stageOf c = stage.

(** What a [mergeBranch] run may hold before the temporary worktree exists:
    commands run with [execAsync] in [root] that probe the repository, the
    fetch unless the call is local-only, the pre-flight commands when
    pre-flight is enabled, and worktree administration short of a created
    worktree. *)
Definition beforeMerge (root : string) (isLocalOnly preflights : bool)
    (ev : Event) : Prop :=
  exists c res,
    ev = Exec Raw root c res /\
    match stageOf c with
    | Probing => True
    | Fetching => isLocalOnly = false
    | Preflighting => preflights = true
    | WorktreeAdmin => worktreeCreated ev = false
    | _ => False
    end.

(** The event is no failure of a command that [mergeBranch] runs outside
    its [try] block. *)
Definition quiet (root : string) (ev : Event) : Prop :=
  forall e, ~ failsOutsideTry root e ev.

(** The shape of a result: a success carries a commit hash and nothing
    else; a failure carries a non-empty error message and no commit hash,
    and lists conflict files only for a conflict. *)
Definition wellFormed (r : MergeBranchResult) : Prop :=
  if success r
  then (exists hash, commitHash r = Some hash)
       /\ hasConflict r = false /\ error r = None /\ conflictFiles r = None
  else commitHash r = None
       /\ (exists msg, error r = Some msg /\ msg <> "")
       /\ (hasConflict r = false -> conflictFiles r = None).

End MergeViews.

(** ** More example repositories and calls *)

Module MoreScenarios.

Import Js GitMerge Scenario.
Open Scope string_scope.

(** The clone of [cloneRepo], where the remote rejects the push. *)
Definition pushRejectedRepo (cwd cmd : string) : Outcome :=
  if String.eqb cmd "git push origin HEAD:main"
  then failed cmd "! [rejected] HEAD -> main (fetch first)"
  else cloneRepo cwd cmd.

(** [mergeBranch({ workspaceRoot: '/repo', sourceBranch: 'feature/x',
    targetBranch: 'main', localOnly: true })] *)
Definition localCall : MergeBranchOptions :=
  mkOptions "/repo" "feature/x" (Some "main") None None None None None
    (Some true).

(** U+00A0, the no-break space, and U+00E9, e with an acute accent, in
    UTF-8. *)
Definition nbsp : string := String "194"%char (String "160"%char EmptyString).

Definition eAcute : string :=
  String "195"%char (String "169"%char EmptyString).

(** The clone of [cloneRepo], checked out on a branch whose name is [main]
    followed by a no-break space. *)
Definition nbspBranchRepo (cwd cmd : string) : Outcome :=
  if String.eqb cmd "git symbolic-ref --short HEAD"
  then ok ("main" ++ nbsp ++ lf)
  else cloneRepo cwd cmd.

End MoreScenarios.

(* ===================================================================== *)
(** * What git prints: reports of conflicts *)
(* ===================================================================== *)

(** The texts that the two conflict parsers of merge.ts read, as git
    prints them line by line. *)
Module GitReport.

Import Js GitMerge.
Open Scope string_scope.

Definition LF : string := String "010"%char EmptyString.

(** A line of the output of a failed [git merge]: the report of a conflict
    in a file, [CONFLICT (<kind>): Merge conflict in <path>], or any other
    text. *)
Inductive MergeLine :=
| ConflictIn (kind path : string)
| MergeText (text : string).

Definition mergeLine (l : MergeLine) : string :=
  match l with
  | ConflictIn kind path =>
      "CONFLICT (" ++ kind ++ "): Merge conflict in " ++ path
  | MergeText text => text
  end.

(** A line of the output of [git merge-tree]: the header [+++ b/<path>] of
    a file's diff, or any other text. *)
Inductive DiffLine :=
| NewFile (path : string)
| DiffText (text : string).

Definition diffLine (l : DiffLine) : string :=
  match l with
  | NewFile path => "+++ b/" ++ path
  | DiffText text => text
  end.

(** The lines, each one ended by a line feed, and what follows the last
    one. *)
Fixpoint report {L} (line : L -> string) (lines : list L) (tail : string)
  : string :=
  match lines with
  | [] => tail
  | l :: rest => line l ++ LF ++ report line rest tail
  end.

Definition conflictPath (l : MergeLine) : option string :=
  match l with
  | ConflictIn _ path => Some path
  | MergeText _ => None
  end.

Definition newFilePath (l : DiffLine) : option string :=
  match l with
  | NewFile path => Some path
  | DiffText _ => None
  end.

(** A path is not empty and holds no line terminator. *)
Definition plainPath (path : string) : bool :=
  negb (String.eqb path "") && String.eqb (dotPlus path) path.

(** A conflict kind ([content], [add/add], ...) is not empty and holds
    neither a closing parenthesis nor the text [in ] with its space. *)
Definition plainKind (kind : string) : bool :=
  negb (String.eqb kind "") && String.eqb (notParenPlus kind) kind
  && negb (includes "in " kind).

Definition plainMergeLine (l : MergeLine) : bool :=
  match l with
  | ConflictIn kind path => plainKind kind && plainPath path
  | MergeText text => negb (includes "CONFLICT (" text)
  end.

Definition plainDiffLine (l : DiffLine) : bool :=
  match l with
  | NewFile path => plainPath path
  | DiffText text => negb (includes "+++ b/" text)
  end.

(** The character does not occur in the string. *)
Fixpoint lacks (c : ascii) (s : string) : bool :=
  match s with
  | EmptyString => true
  | String c' rest => negb (Ascii.eqb c' c) && lacks c rest
  end.

End GitReport.

(* ===================================================================== *)
(** * JavaScript numbers *)
(* ===================================================================== *)

Module JsNumber.

(** A count as a JavaScript number (a double); exact below 2^53. *)
Definition ofCount (n : Z) : float := PrimFloat.of_uint63 (Uint63.of_Z n).

(** [Math.round(x)] of a finite [x]: the integer nearest to [x], a tie going
    up, computed exactly from the mantissa and the exponent.  [None] stands
    for the results that are no integers ([NaN] and the infinities). *)
Definition mathRound (x : float) : option Z :=
  match Prim2SF x with
  | S754_zero _ => Some 0
  | S754_finite negative m e =>
      let v := if negative then Z.neg m else Z.pos m in
      Some (if 0 <=? e then v * 2 ^ e
            else (2 * v + 2 ^ (- e)) / 2 ^ (- e + 1))
  | _ => None
  end.

End JsNumber.

(* ===================================================================== *)
(** * The diagnostics read model: merge queue and agent pool *)
(* ===================================================================== *)

Module DiagnosticsRoutes.

Import Js.
Open Scope string_scope.

(** [a || b] on strings: [b] when [a] is [undefined] or empty. *)
Definition orElse (a : option string) (b : string) : string :=
  match a with
  | Some s => if String.eqb s "" then b else s
  | None => b
  end.

(** [STUCK_MERGE_THRESHOLD_MS]: ten minutes. *)
Definition STUCK_MERGE_THRESHOLD_MS : Z := 10 * 60 * 1000.

Record StuckMergeTask := mkStuckMerge {
  taskId : string;
  stuckTitle : string;
  stuckMergeStatus : string;
  stuckUpdatedAt : string
}.

Record MergeQueueDiagnostic := mkQueue {
  awaitingMergeCount : Z;
  stuckInTestingCount : Z;
  stuckInMergingCount : Z;
  stuckTasks : list StuckMergeTask
}.

Record SessionRecord := mkSession {
  sessionId : string;
  sessionStatus : string;
  startedAt : option string
}.

Record AgentMetadata := mkAgentMeta { agentRole : option string }.

Record PoolSession := mkPoolSession {
  poolAgentId : string;
  poolAgentName : string;
  role : string;
  poolSessionId : string;
  durationMs : option Z       (* [None]: [NaN] *)
}.

Record AgentPoolDiagnostic := mkPool {
  totalAgents : Z;
  idleAgents : Z;
  busyAgents : Z;
  utilizationPercent : option Z;
  sessions : list PoolSession
}.

Section Collect.

(** [Metadata] is the type of [task.metadata], [AgentData] what an agent
    entity carries besides its id and name.  [getOrchestratorTaskMeta]
    (types/task-meta.ts) and [getAgentMetadata] (services/agent-registry.ts)
    are not among the sources: they are parameters, and so is the parsing of
    a timestamp, [new Date(s).getTime()], whose result is [None] for an
    invalid date ([NaN]). *)
Context {Metadata AgentData : Type}.
Context (getOrchestratorTaskMeta
           : Metadata -> option Diagnostics.OrchestratorTaskMeta).
Context (getAgentMetadata : AgentData -> option AgentMetadata).
Context (dateTime : string -> option Z).

(** The fields of a task that [collectMergeQueue] reads. *)
Record Task := mkTask {
  id : string;
  title : option string;
  status : string;
  metadata : Metadata;
  updatedAt : option string
}.

Record Agent := mkAgent {
  agentId : string;
  agentName : option string;
  agentData : AgentData
}.

(** What the two collectors read of [services]: the awaited values of
    [services.api.list({ type: 'task' })] and
    [services.agentRegistry.listAgents()], and
    [services.sessionManager.getActiveSession]. *)
Record Services := mkServices {
  apiList : list Task;
  listAgents : list Agent;
  getActiveSession : string -> option SessionRecord
}.

(** ** [collectMergeQueue] (lines 197-251) *)

(** [meta?.mergeStatus || 'pending'] *)
Definition mergeStatusOf (task : Task) : string :=
  orElse
    match getOrchestratorTaskMeta (metadata task) with
    | Some meta => Diagnostics.mergeStatus meta
    | None => None
    end
    "pending".

(** [task.updatedAt ? new Date(task.updatedAt).getTime() : 0] *)
Definition updatedAtTime (task : Task) : option Z :=
  match updatedAt task with
  | Some s => if String.eqb s "" then Some 0 else dateTime s
  | None => Some 0
  end.

(** [timeSinceUpdate > STUCK_MERGE_THRESHOLD_MS]; a comparison with [NaN]
    is false. *)
Definition overdue (now : Z) (task : Task) : bool :=
  match updatedAtTime task with
  | Some updated => now - updated >? STUCK_MERGE_THRESHOLD_MS
  | None => false
  end.

Definition stuckMergeOf (task : Task) : StuckMergeTask :=
  mkStuckMerge (id task) (orElse (title task) (id task)) (mergeStatusOf task)
    (orElse (updatedAt task) "").

(** The body of the [for] loop (lines 209-243). *)
Definition queueStep (now : Z) (acc : MergeQueueDiagnostic) (task : Task)
  : MergeQueueDiagnostic :=
  let mergeStatus := mergeStatusOf task in
  let acc1 :=
    if String.eqb mergeStatus "pending"
    then mkQueue (awaitingMergeCount acc + 1) (stuckInTestingCount acc)
           (stuckInMergingCount acc) (stuckTasks acc)
    else acc in
  let acc2 :=
    if String.eqb mergeStatus "testing" && overdue now task
    then mkQueue (awaitingMergeCount acc1) (stuckInTestingCount acc1 + 1)
           (stuckInMergingCount acc1)
           (stuckTasks acc1 ++ [stuckMergeOf task])%list
    else acc1 in
  if String.eqb mergeStatus "merging" && overdue now task
  then mkQueue (awaitingMergeCount acc2) (stuckInTestingCount acc2)
         (stuckInMergingCount acc2 + 1)
         (stuckTasks acc2 ++ [stuckMergeOf task])%list
  else acc2.

(** [collectMergeQueue(services)]; [now] is the one [Date.now()] it
    reads. *)
Definition collectMergeQueue (now : Z) (services : Services)
  : MergeQueueDiagnostic :=
  let allTasks := apiList services in
  let reviewTasks :=
    List.filter (fun t => String.eqb (status t) Diagnostics.REVIEW) allTasks in
  fold_left (queueStep now) reviewTasks (mkQueue 0 0 0 []).

(** ** [collectAgentPool] (lines 289-332) *)

(** [activeSession && activeSession.status === 'running'] *)
Definition runningSession (services : Services) (agent : Agent)
  : option SessionRecord :=
  match getActiveSession services (agentId agent) with
  | Some session =>
      if String.eqb (sessionStatus session) "running" then Some session
      else None
  | None => None
  end.

(** [activeSession.startedAt ? new Date(...).getTime() : now] *)
Definition startedAtTime (now : Z) (session : SessionRecord) : option Z :=
  match startedAt session with
  | Some s => if String.eqb s "" then Some now else dateTime s
  | None => Some now
  end.

Definition poolSessionOf (now : Z) (agent : Agent) (session : SessionRecord)
  : PoolSession :=
  mkPoolSession (agentId agent) (orElse (agentName agent) (agentId agent))
    (orElse
       match getAgentMetadata (agentData agent) with
       | Some meta => agentRole meta
       | None => None
       end
       "unknown")
    (sessionId session)
    (match startedAtTime now session with
     | Some started => Some (now - started)
     | None => None
     end).

(** The state of the loop: [busyAgents], [idleAgents] and [sessions]. *)
Definition poolStep (now : Z) (services : Services)
    (acc : Z * Z * list PoolSession) (agent : Agent)
  : Z * Z * list PoolSession :=
  let '(busy, idle, running) := acc in
  match runningSession services agent with
  | Some session =>
      (busy + 1, idle, (running ++ [poolSessionOf now agent session])%list)
  | None => (busy, idle + 1, running)
  end.

(** [Math.round((busyAgents / totalAgents) * 100)], in double arithmetic. *)
Definition percentOf (busy total : Z) : option Z :=
  JsNumber.mathRound
    (PrimFloat.mul
       (PrimFloat.div (JsNumber.ofCount busy) (JsNumber.ofCount total))
       (JsNumber.ofCount 100)).

(** [collectAgentPool(services)] *)
Definition collectAgentPool (now : Z) (services : Services)
  : AgentPoolDiagnostic :=
  let agents := listAgents services in
  let '(busy, idle, running) :=
    fold_left (poolStep now services) agents (0, 0, []) in
  let total := Z.of_nat (List.length agents) in
  mkPool total idle busy
    (if total >? 0 then percentOf busy total else Some 0)
    running.

(** ** Views used in the statements *)

(** The entry of the merge queue's stuck list for a review task, if it has
    one. *)
Definition stuckMergeEntry (now : Z) (task : Task) : option StuckMergeTask :=
  if (String.eqb (mergeStatusOf task) "testing"
      || String.eqb (mergeStatusOf task) "merging")
     && overdue now task
  then Some (stuckMergeOf task) else None.

Definition isReview (task : Task) : bool :=
  String.eqb (status task) Diagnostics.REVIEW.

Definition hasMergeStatus (s : string) (d : StuckMergeTask) : bool :=
  String.eqb (stuckMergeStatus d) s.

(** The entry of the pool's session list for an agent, if it has one. *)
Definition poolEntry (now : Z) (services : Services) (agent : Agent)
  : option PoolSession :=
  poolSessionOf now agent <$> runningSession services agent.

End Collect.

End DiagnosticsRoutes.

(** The services of the unit tests 'counts idle and busy agents' and
    'identifies tasks stuck in testing'; the clock stands at [testNow]. *)
Module DiagnosticsScenario.

Import DiagnosticsRoutes.
Open Scope string_scope.

Definition testNow : Z := 1700000000000.

(** The session of the busy agent started a minute ago, the task was
    updated fifteen minutes ago. *)
Definition testDateTime (s : string) : option Z :=
  if String.eqb s "a minute ago" then Some (testNow - 60000)
  else if String.eqb s "15 mins ago" then Some (testNow - 15 * 60 * 1000)
  else None.

Definition busyWorker : Agent :=
  mkAgent "el-busy" (Some "busy-worker") (Some (mkAgentMeta (Some "worker"))).

Definition idleWorker : Agent :=
  mkAgent "el-idle" (Some "idle-worker") (Some (mkAgentMeta (Some "worker"))).

Definition testingTask : Task :=
  mkTask "el-testing1" (Some "Testing task") "review"
    (Some (Diagnostics.mkMeta None None (Some "testing")))
    (Some "15 mins ago").

Definition testServices
  : @Services (option Diagnostics.OrchestratorTaskMeta) (option AgentMetadata) :=
  mkServices [testingTask] [busyWorker; idleWorker]
    (fun agentId =>
       if String.eqb agentId "el-busy"
       then Some (mkSession "session-1" "running" (Some "a minute ago"))
       else None).

End DiagnosticsScenario.

(* ===================================================================== *)
(** * The operation log: the statement of [query] *)
(* ===================================================================== *)

Module OperationLog.

Import Js.
Open Scope string_scope.

(** [OperationLogFilter]; the level and the category are strings at run
    time. *)
Record OperationLogFilter := mkFilter {
  level : option string;
  category : option string;
  since : option string;
  taskId : option string;
  agentId : option string;
  limit : option Z
}.

(** A value bound to a placeholder. *)
Inductive SqlParam := PText (s : string) | PNumber (n : Z).

(** [if (value) { conditions.push(condition); params.push(value); }]: a
    filter that is [undefined] or empty adds nothing. *)
Definition pushIf (value : option string) (condition : string)
    (acc : list string * list SqlParam) : list string * list SqlParam :=
  match value with
  | Some v =>
      if String.eqb v "" then acc
      else ((acc.1 ++ [condition])%list, (acc.2 ++ [PText v])%list)
  | None => acc
  end.

Definition newline : string := String "010"%char EmptyString.

Definition indent : string := "         ".

(** What [query(filters)] hands to [storage.query]: the text of the
    statement and the values bound to its placeholders (lines
    1787-1826). *)
Definition queryStatement (filters : OperationLogFilter)
  : string * list SqlParam :=
  let acc0 : list string * list SqlParam := ([], []) in
  let acc1 := pushIf (level filters) "level = ?" acc0 in
  let acc2 := pushIf (category filters) "category = ?" acc1 in
  let acc3 := pushIf (since filters) "timestamp >= ?" acc2 in
  let acc4 := pushIf (taskId filters) "task_id = ?" acc3 in
  let '(conditions, params) := pushIf (agentId filters) "agent_id = ?" acc4 in
  let limit := nullish (limit filters) 20 in
  let whereClause :=
    match conditions with
    | [] => ""
    | _ => "WHERE " ++ String.concat " AND " conditions
    end in
  ("SELECT id, timestamp, level, category, agent_id, task_id, message, details"
   ++ newline ++ indent ++ "FROM operation_log"
   ++ newline ++ indent ++ whereClause
   ++ newline ++ indent ++ "ORDER BY timestamp DESC"
   ++ newline ++ indent ++ "LIMIT ?",
   (params ++ [PNumber limit])%list).

(** [query()]: the parameter defaults to [{}]. *)
Definition noFilters : OperationLogFilter :=
  mkFilter None None None None None None.

(** ** Views used in the statements *)

(** The number of placeholders in a statement. *)
Fixpoint placeholders (sql : string) : nat :=
  match sql with
  | EmptyString => O
  | String c rest =>
      if Ascii.eqb c "?"%char then S (placeholders rest) else placeholders rest
  end.

(** The filter is applied: it is neither [undefined] nor empty. *)
Definition applied (value : option string) : option string :=
  match value with
  | Some v => if String.eqb v "" then None else Some v
  | None => None
  end.

Definition isApplied (value : option string) : bool :=
  match applied value with Some _ => true | None => false end.

End OperationLog.

(* ===================================================================== *)
(** * Provider metrics routes: the time range *)
(* ===================================================================== *)

Module MetricsRoutes.

Import Js.
Open Scope string_scope.

(** The character class [\d]. *)
Definition isDigit (c : ascii) : bool :=
  let n := nat_of_ascii c in ((48 <=? n)%nat && (n <=? 57)%nat).

(** [value.match(/^(\d+)d$/)]: capture 1, the digits before the final
    [d]. *)
Fixpoint matchDays (value : string) : option string :=
  match value with
  | EmptyString => None
  | String c rest =>
      if isDigit c then
        if String.eqb rest "d" then Some (String c EmptyString)
        else option_map (String c) (matchDays rest)
      else None
  end.

(** [parseInt(digits, 10)] of a string of decimal digits.  (Beyond 2^53
    [parseInt] rounds; the only use made of the result is the comparison
    with 365.) *)
Definition parseInt10 (digits : string) : N :=
  match NilZero.uint_of_string digits with
  | Some u => N.of_uint u
  | None => 0%N
  end.

(** [parseTimeRange(value)] (lines 18-26) *)
Definition parseTimeRange (value : option string) : N :=
  match value with
  | None => 7%N
  | Some v =>
      if String.eqb v "" then 7%N
      else
        match matchDays v with
        | Some digits =>
            let days := parseInt10 digits in
            if ((0 <? days) && (days <=? 365))%N then days else 7%N
        | None => 7%N
        end
  end.

(** [`${days}d`], the label of the time range in the response. *)
Definition labelOf (days : N) : string := decimal days ++ "d".

End MetricsRoutes.

(* ===================================================================== *)
(** * Theorems *)
(* ===================================================================== *)

(** ** The rate-limit tracker *)

Section RateLimitFacts.

Import RateLimit.

Implicit Types (limits : gmap string InternalEntry) (exe : string).

(** One [markLimited] leaves the later of the old and the new reset time. *)
Lemma effectiveReset_markLimited exe t now limits :
  effectiveReset (markLimited exe t now limits) exe =
  Some (match effectiveReset limits exe with
        | Some t0 => Z.max t0 t
        | None => t
        end).
Proof.
  unfold effectiveReset, markLimited.
  destruct (limits !! exe) as [existing|] eqn:Hlook; simpl.
  - destruct (Z.geb_spec (resetsAt existing) t) as [Hge|Hlt].
    + rewrite Hlook. simpl. f_equal. lia.
    + rewrite lookup_insert_eq. simpl. f_equal. lia.
  - now rewrite lookup_insert_eq.
Qed.

(** [markLimited] touches no other executable. *)
Lemma markLimited_other exe exe' t now limits :
  exe <> exe' -> markLimited exe t now limits !! exe' = limits !! exe'.
Proof.
  intros Hne. unfold markLimited.
  destruct (limits !! exe) as [existing|]; [destruct (_ >=? _)|];
    trivial; now rewrite lookup_insert_ne.
Qed.

(** [isLimited] answers [limitedAt]. *)
Lemma isLimited_result exe now limits :
  (isLimited exe now limits).1 = limitedAt limits now exe.
Proof.
  unfold isLimited, limitedAt.
  destruct (limits !! exe) as [entry|]; [|reflexivity].
  now destruct (resetsAt entry <=? now).
Qed.

(** The lazy expiry of [isLimited] removes only an entry that is no longer
    live, so it changes no answer at the same clock reading. *)
Lemma isLimited_preserves exe exe' now limits :
  limitedAt (isLimited exe now limits).2 now exe' = limitedAt limits now exe'.
Proof.
  unfold isLimited, limitedAt.
  destruct (limits !! exe) as [entry|] eqn:Hlook; [|reflexivity].
  destruct (resetsAt entry <=? now) eqn:Hstale; [|reflexivity]. simpl.
  destruct (decide (exe = exe')) as [->|Hne].
  - rewrite lookup_delete_eq, Hlook. now rewrite Hstale.
  - now rewrite lookup_delete_ne.
Qed.

Lemma getAvailableExecutable_cons exe rest now limits :
  (getAvailableExecutable (exe :: rest) now limits).1 =
  if limitedAt limits now exe
  then (getAvailableExecutable rest now (isLimited exe now limits).2).1
  else Some exe.
Proof.
  simpl. rewrite <- isLimited_result.
  destruct (isLimited exe now limits) as [limited limits']. simpl.
  now destruct limited.
Qed.

(** The walk returns [Some exe] exactly when [exe] stands in the chain
    behind limited executables only and is itself not limited. *)
Lemma getAvailableExecutable_Some chain now limits exe :
  (getAvailableExecutable chain now limits).1 = Some exe <->
  exists before after,
    chain = before ++ exe :: after /\
    Forall (fun x => limitedAt limits now x = true) before /\
    limitedAt limits now exe = false.
Proof.
  revert limits. induction chain as [|x rest IH]; intros limits.
  - simpl. split; [discriminate|].
    intros (before & after & Hchain & _). now destruct before.
  - rewrite getAvailableExecutable_cons.
    destruct (limitedAt limits now x) eqn:Hx.
    + rewrite IH. split.
      * intros (before & after & -> & Hall & Hexe).
        exists (x :: before), after. split; [reflexivity|]. split.
        -- constructor; [exact Hx|].
           eapply Forall_impl; [exact Hall|]. intros y Hy. simpl in Hy.
           now rewrite isLimited_preserves in Hy.
        -- now rewrite isLimited_preserves in Hexe.
      * intros (before & after & Hchain & Hall & Hexe).
        destruct before as [|b before]; simpl in Hchain.
        -- inversion Hchain; subst. congruence.
        -- inversion Hchain; subst. exists before, after.
           split; [reflexivity|]. inversion Hall; subst. split.
           ++ eapply Forall_impl; [eassumption|]. intros y Hy. simpl.
              now rewrite isLimited_preserves.
           ++ now rewrite isLimited_preserves.
    + split.
      * intros [= <-]. exists [], rest. now repeat split.
      * intros (before & after & Hchain & Hall & Hexe).
        destruct before as [|b before]; simpl in Hchain.
        -- now inversion Hchain.
        -- inversion Hchain; subst. inversion Hall; subst. congruence.
Qed.

Lemma getAvailableExecutable_None chain now limits :
  (getAvailableExecutable chain now limits).1 = None <->
  Forall (fun x => limitedAt limits now x = true) chain.
Proof.
  revert limits. induction chain as [|x rest IH]; intros limits.
  - simpl. split; [constructor|reflexivity].
  - rewrite getAvailableExecutable_cons.
    destruct (limitedAt limits now x) eqn:Hx.
    + rewrite IH. split.
      * intros Hall. constructor; [exact Hx|].
        eapply Forall_impl; [exact Hall|]. intros y Hy. simpl in Hy.
        now rewrite isLimited_preserves in Hy.
      * intros Hall. inversion Hall; subst.
        eapply Forall_impl; [eassumption|]. intros y Hy. simpl.
        now rewrite isLimited_preserves.
    + split; [discriminate|]. intros Hall. inversion Hall; subst. congruence.
Qed.

(** C3.  Two [markLimited] calls on the same executable leave the later of
    the two reset times: on a tracker that holds no entry for the
    executable the effective reset time afterwards is [max t1 t2], whatever
    the order of the two (and over an older entry it is the maximum of all
    three).  A call never shortens the window: the reset time it leaves is
    at least the one it found, a call with an earlier or equal reset time
    changes nothing, and a call with a later one sets it. *)
Theorem markLimited_pair_max exe t1 t2 now1 now2 limits :
  effectiveReset (markLimited exe t2 now2 (markLimited exe t1 now1 limits))
    exe =
  Some (match effectiveReset limits exe with
        | None => Z.max t1 t2
        | Some t0 => Z.max t0 (Z.max t1 t2)
        end)
  /\ (forall t0, effectiveReset limits exe = Some t0 ->
        (t1 <= t0 -> markLimited exe t1 now1 limits = limits) /\
        (t0 < t1 ->
           effectiveReset (markLimited exe t1 now1 limits) exe = Some t1))
  /\ (forall now, limitedAt limits now exe = true ->
        limitedAt (markLimited exe t1 now1 limits) now exe = true).
Proof.
  split; [|split].
  - rewrite !effectiveReset_markLimited.
    destruct (effectiveReset limits exe); f_equal; lia.
  - intros t0 Hold. unfold effectiveReset in Hold. split.
    + intros Hle. unfold markLimited.
      destruct (limits !! exe) as [existing|]; [|discriminate].
      injection Hold as <-.
      destruct (Z.geb_spec (resetsAt existing) t1); [reflexivity|lia].
    + intros Hlt. rewrite effectiveReset_markLimited.
      unfold effectiveReset. rewrite Hold. f_equal. lia.
  - intros now Hlive.
    pose proof (effectiveReset_markLimited exe t1 now1 limits) as Hnew.
    unfold limitedAt, effectiveReset in *.
    destruct (limits !! exe) as [existing|]; [|discriminate].
    destruct (markLimited exe t1 now1 limits !! exe) as [entry|];
      [|discriminate].
    simpl in Hnew. injection Hnew as Hnew.
    destruct (Z.leb_spec (resetsAt existing) now); [discriminate|].
    destruct (Z.leb_spec (resetsAt entry) now); [lia|reflexivity].
Qed.

(** C4.  [getAvailableExecutable] returns the first element of the chain
    that is not limited: it returns [exe] exactly when [exe] stands in the
    chain with only limited executables before it and is not limited itself;
    it returns [undefined] exactly when every element of the chain is
    limited, and in particular for the empty chain. *)
Theorem getAvailableExecutable_first chain now limits :
  (forall exe,
     (getAvailableExecutable chain now limits).1 = Some exe <->
     exists before after,
       chain = before ++ exe :: after /\
       Forall (fun x => limitedAt limits now x = true) before /\
       limitedAt limits now exe = false)
  /\ ((getAvailableExecutable chain now limits).1 = None <->
      Forall (fun x => limitedAt limits now x = true) chain)
  /\ (getAvailableExecutable [] now limits).1 = None.
Proof.
  split; [|split].
  - intros exe. apply getAvailableExecutable_Some.
  - apply getAvailableExecutable_None.
  - reflexivity.
Qed.

End RateLimitFacts.

(** ** The git merge engine: runs and their events *)

Section RunFacts.

Import Js GitMerge.

Context (P : PathApi) (W : World).

Implicit Types (Q : Event -> Prop) (h : list Event).

(** *** What a computation emits *)

Lemma Emits_ret {A} Q (a : A) : Emits Q (ret a).
Proof. intros h. constructor. Qed.

Lemma Emits_throw {A} Q e : Emits Q (@throw A e).
Proof. intros h. constructor. Qed.

Lemma Emits_bind {A B} Q (m : M A) (k : A -> M B) :
  Emits Q m -> (forall a, Emits Q (k a)) -> Emits Q (bind m k).
Proof.
  intros Hm Hk h. unfold bind. specialize (Hm h).
  destruct (m h) as [[a|e] t1]; simpl in *; [|exact Hm].
  specialize (Hk a (h ++ t1)%list).
  destruct (k a (h ++ t1)%list) as [r t2]. simpl in *.
  apply Forall_app. now split.
Qed.

Lemma Emits_tryCatch {A} Q (m : M A) handler :
  Emits Q m -> (forall e, Emits Q (handler e)) -> Emits Q (tryCatch m handler).
Proof.
  intros Hm Hk h. unfold tryCatch. specialize (Hm h).
  destruct (m h) as [[a|e] t1]; simpl in *; [exact Hm|].
  specialize (Hk e (h ++ t1)%list).
  destruct (handler e (h ++ t1)%list) as [r t2]. simpl in *.
  apply Forall_app. now split.
Qed.

Lemma Emits_tryFinally {A} Q (m : M A) fin :
  Emits Q m -> Emits Q fin -> Emits Q (tryFinally m fin).
Proof.
  intros Hm Hf h. unfold tryFinally. specialize (Hm h).
  destruct (m h) as [r t1]. simpl in *.
  specialize (Hf (h ++ t1)%list).
  destruct (fin (h ++ t1)%list) as [[u|e] t2]; simpl in *;
    apply Forall_app; now split.
Qed.

Lemma Emits_warn Q msg : Q (Warn msg) -> Emits Q (warn msg).
Proof. intros HQ h. simpl. now repeat constructor. Qed.

Lemma Emits_when Q b m : Emits Q m -> Emits Q (when b m).
Proof. destruct b; [trivial|]. intros _. apply Emits_ret. Qed.

Lemma Emits_orFallThrough {A} Q (m : M A) :
  Emits Q m -> Emits Q (orFallThrough m).
Proof.
  intros Hm. apply Emits_tryCatch.
  - apply Emits_bind; [exact Hm|]. intros a. apply Emits_ret.
  - intros e. apply Emits_ret.
Qed.

Lemma Emits_settle Q m : Emits Q m -> Emits Q (settle m).
Proof.
  intros Hm. apply Emits_tryCatch.
  - apply Emits_bind; [exact Hm|]. intros a. apply Emits_ret.
  - intros e. apply Emits_ret.
Qed.

Lemma Emits_execAsync Q c cwd :
  (forall o, Q (Exec Raw cwd c o)) -> Emits Q (execAsync W c cwd).
Proof. intros HQ h. simpl. now repeat constructor. Qed.

(** The guard of [execGitSafe]: whatever it runs, it runs in a directory
    that does not resolve to the workspace root. *)
Lemma Emits_execGitSafe Q c worktreePath root :
  (path_resolve P worktreePath <> path_resolve P root ->
   forall o, Q (Exec Safe worktreePath c o)) ->
  Emits Q (execGitSafe P W c worktreePath root).
Proof.
  intros HQ h. unfold execGitSafe.
  destruct (String.eqb_spec (path_resolve P worktreePath)
              (path_resolve P root)) as [Heq|Hne].
  - constructor.
  - simpl. repeat constructor. now apply HQ.
Qed.

Lemma Emits_impl {A} Q Q' (m : M A) :
  (forall ev, Q ev -> Q' ev) -> Emits Q m -> Emits Q' m.
Proof. intros Himpl Hm h. eapply Forall_impl; [apply Hm|exact Himpl]. Qed.

(** *** What never throws *)

Lemma NeverThrows_ret {A} (a : A) : NeverThrows (ret a).
Proof. intros h. now exists a. Qed.

Lemma NeverThrows_bind {A B} (m : M A) (k : A -> M B) :
  NeverThrows m -> (forall a, NeverThrows (k a)) -> NeverThrows (bind m k).
Proof.
  intros Hm Hk h. unfold bind. destruct (Hm h) as [a Ha].
  destruct (m h) as [r t1]. simpl in Ha. subst r.
  destruct (Hk a (h ++ t1)%list) as [b Hb].
  destruct (k a (h ++ t1)%list) as [r t2]. simpl in *. now exists b.
Qed.

Lemma NeverThrows_tryCatch {A} (m : M A) handler :
  (forall e, NeverThrows (handler e)) -> NeverThrows (tryCatch m handler).
Proof.
  intros Hk h. unfold tryCatch.
  destruct (m h) as [[a|e] t1]; [now exists a|].
  destruct (Hk e (h ++ t1)%list) as [b Hb].
  destruct (handler e (h ++ t1)%list) as [r t2]. simpl in *. now exists b.
Qed.

Lemma NeverThrows_tryFinally {A} (m : M A) fin :
  NeverThrows m -> NeverThrows fin -> NeverThrows (tryFinally m fin).
Proof.
  intros Hm Hf h. unfold tryFinally. destruct (Hm h) as [a Ha].
  destruct (m h) as [r t1]. simpl in Ha. subst r.
  destruct (Hf (h ++ t1)%list) as [u Hu].
  destruct (fin (h ++ t1)%list) as [r t2]. simpl in Hu. subst r.
  now exists a.
Qed.

Lemma NeverThrows_warn msg : NeverThrows (warn msg).
Proof. intros h. now exists tt. Qed.

Lemma NeverThrows_when b m : NeverThrows m -> NeverThrows (when b m).
Proof. destruct b; [trivial|]. intros _. apply NeverThrows_ret. Qed.

Lemma NeverThrows_orFallThrough {A} (m : M A) :
  NeverThrows (orFallThrough m).
Proof. apply NeverThrows_tryCatch. intros e. apply NeverThrows_ret. Qed.

Lemma NeverThrows_settle m : NeverThrows (settle m).
Proof. apply NeverThrows_tryCatch. intros e. apply NeverThrows_ret. Qed.

(** A computation that never throws, run: its value and its events. *)
Lemma NeverThrows_run {A} (m : M A) h :
  NeverThrows m -> exists a t, m h = (Returned a, t).
Proof.
  intros Hm. destruct (Hm h) as [a Ha]. destruct (m h) as [r t].
  simpl in Ha. subst r. now exists a, t.
Qed.

End RunFacts.

Section MergeFacts.

Import Js GitMerge.

Context (P : PathApi) (W : World).

Implicit Types (Q : Event -> Prop) (h : list Event) (root : string).

(** Splits a goal [Emits Q m] along the structure of [m], down to the
    commands it runs. *)
Ltac emits :=
  repeat first
    [ apply Emits_ret | apply Emits_throw
    | apply Emits_bind; [|intros ?]
    | apply Emits_tryCatch; [|intros ?]
    | apply Emits_tryFinally
    | apply Emits_when | apply Emits_orFallThrough | apply Emits_settle
    | apply Emits_warn
    | apply Emits_execAsync; intros ?
    | apply Emits_execGitSafe; intros ? ? ].

Ltac tame := emits; simpl; auto.

Lemma Tame_weaken root (stages stages' : Stage -> bool) ev :
  (forall s, stages s = true -> stages' s = true) ->
  Tame P root stages ev -> Tame P root stages' ev.
Proof.
  intros Hsub. destruct ev as [[|] cwd c o|msg]; simpl; [| |trivial].
  - intros (Hcwd & Hst & Hphase). auto.
  - intros (Hcwd & Hst & Hphase). auto.
Qed.

(** *** Probing the repository *)

Lemma hasRemote_Tame root name :
  Emits (Tame P root (Stage_eqb Probing)) (hasRemote W root name).
Proof. unfold hasRemote. tame. Qed.

Lemma tryLocalBranches_Tame root names :
  Emits (Tame P root (Stage_eqb Probing)) (tryLocalBranches W root names).
Proof.
  induction names as [|name rest IH]; simpl; [apply Emits_ret|].
  apply Emits_bind; [tame|]. intros [b|]; [apply Emits_ret|exact IH].
Qed.

Lemma tryRemoteBranches_Tame root :
  Emits (Tame P root (Stage_eqb Probing)) (tryRemoteBranches W root).
Proof.
  unfold tryRemoteBranches.
  apply Emits_bind; [tame|]. intros [b|]; [apply Emits_ret|].
  apply Emits_bind; [tame|]. intros [b|]; [apply Emits_ret|]. tame.
Qed.

Lemma detectTargetBranch_Tame root :
  Emits (Tame P root (Stage_eqb Probing)) (detectTargetBranch W root).
Proof.
  unfold detectTargetBranch.
  apply Emits_bind; [apply hasRemote_Tame|]. intros remoteExists.
  apply Emits_bind.
  - destruct remoteExists; [apply tryRemoteBranches_Tame|apply Emits_ret].
  - intros [b|]; [apply Emits_ret|].
    apply Emits_bind; [apply tryLocalBranches_Tame|]. intros ?.
    apply Emits_ret.
Qed.

Lemma resolveLocalOnly_Tame o :
  Emits (Tame P (workspaceRoot o) (Stage_eqb Probing)) (resolveLocalOnly W o).
Proof.
  unfold resolveLocalOnly. destruct (localOnly o); [apply Emits_ret|].
  apply Emits_bind; [apply hasRemote_Tame|]. intros ?. apply Emits_ret.
Qed.

Lemma resolveTargetBranch_Tame o :
  Emits (Tame P (workspaceRoot o) (Stage_eqb Probing))
    (resolveTargetBranch W o).
Proof.
  unfold resolveTargetBranch.
  destruct (targetBranch o); [apply Emits_ret|apply detectTargetBranch_Tame].
Qed.

Lemma hasRemote_NeverThrows root name : NeverThrows (hasRemote W root name).
Proof.
  apply NeverThrows_tryCatch. intros e. apply NeverThrows_ret.
Qed.

Lemma tryLocalBranches_NeverThrows root names :
  NeverThrows (tryLocalBranches W root names).
Proof.
  induction names as [|name rest IH]; simpl; [apply NeverThrows_ret|].
  apply NeverThrows_bind; [apply NeverThrows_orFallThrough|].
  intros [b|]; [apply NeverThrows_ret|exact IH].
Qed.

Lemma tryRemoteBranches_NeverThrows root :
  NeverThrows (tryRemoteBranches W root).
Proof.
  unfold tryRemoteBranches. apply NeverThrows_bind.
  - apply NeverThrows_tryCatch. intros e. apply NeverThrows_ret.
  - intros [b|]; [apply NeverThrows_ret|].
    apply NeverThrows_bind; [apply NeverThrows_orFallThrough|].
    intros [b|]; [apply NeverThrows_ret|apply NeverThrows_orFallThrough].
Qed.

(** [detectTargetBranch] always answers. *)
Lemma detectTargetBranch_NeverThrows root :
  NeverThrows (detectTargetBranch W root).
Proof.
  unfold detectTargetBranch.
  apply NeverThrows_bind; [apply hasRemote_NeverThrows|]. intros remoteExists.
  apply NeverThrows_bind.
  - destruct remoteExists;
      [apply tryRemoteBranches_NeverThrows|apply NeverThrows_ret].
  - intros [b|]; [apply NeverThrows_ret|].
    apply NeverThrows_bind; [apply tryLocalBranches_NeverThrows|].
    intros ?. apply NeverThrows_ret.
Qed.

Lemma resolveLocalOnly_NeverThrows o : NeverThrows (resolveLocalOnly W o).
Proof.
  unfold resolveLocalOnly. destruct (localOnly o); [apply NeverThrows_ret|].
  apply NeverThrows_bind; [apply hasRemote_NeverThrows|].
  intros ?. apply NeverThrows_ret.
Qed.

Lemma resolveTargetBranch_NeverThrows o :
  NeverThrows (resolveTargetBranch W o).
Proof.
  unfold resolveTargetBranch. destruct (targetBranch o);
    [apply NeverThrows_ret|apply detectTargetBranch_NeverThrows].
Qed.

(** *** Pre-flight *)

Lemma preflightCheck_Tame root source target isLocalOnly :
  Emits (Tame P root (Stage_eqb Preflighting))
    (preflightCheck W root source target isLocalOnly).
Proof.
  unfold preflightCheck. apply Emits_tryCatch; [|intros ?; apply Emits_ret].
  apply Emits_bind; [tame|]. intros mergeBase.
  apply Emits_bind; [tame|]. intros dryRun.
  destruct (outcomeStdout dryRun) as [out|]; [|apply Emits_ret].
  destruct (includes _ out); apply Emits_ret.
Qed.

Lemma preflightCheck_NeverThrows root source target isLocalOnly :
  NeverThrows (preflightCheck W root source target isLocalOnly).
Proof. apply NeverThrows_tryCatch. intros e. apply NeverThrows_ret. Qed.

(** *** The worktree merge *)

Lemma mergeSteps_Tame root source target mergeDir message strategy pushes :
  Emits (Tame P root (Stage_eqb Merging))
    (mergeSteps P W root source target mergeDir message strategy pushes).
Proof. unfold mergeSteps. destruct strategy; tame. Qed.

Lemma onMergeError_Tame root mergeDir strategy e :
  Emits (Tame P root (Stage_eqb Merging))
    (onMergeError P W root mergeDir strategy e).
Proof.
  unfold onMergeError. destruct (_ || _); [|apply Emits_ret].
  destruct strategy; tame.
Qed.

Lemma onMergeError_NeverThrows root mergeDir strategy e :
  NeverThrows (onMergeError P W root mergeDir strategy e).
Proof.
  unfold onMergeError. destruct (_ || _); [|apply NeverThrows_ret].
  apply NeverThrows_bind; [|intros ?; apply NeverThrows_ret].
  apply NeverThrows_tryCatch. intros ?. apply NeverThrows_ret.
Qed.

Lemma removeWorktree_Tame root mergeDir :
  Emits (Tame P root (Stage_eqb WorktreeAdmin)) (removeWorktree W root mergeDir).
Proof. unfold removeWorktree. tame. Qed.

Lemma removeWorktree_NeverThrows root mergeDir :
  NeverThrows (removeWorktree W root mergeDir).
Proof. apply NeverThrows_tryCatch. intros e. apply NeverThrows_ret. Qed.

(** *** Local sync *)

Lemma syncLocalBranch_Tame root target :
  Emits (Tame P root (Stage_eqb Syncing)) (syncLocalBranch W root target).
Proof.
  unfold syncLocalBranch, currentBranchOf.
  apply Emits_tryCatch; [|intros ?; tame].
  apply Emits_bind; [tame|]. intros cur.
  destruct (noBranch cur); [tame|]. destruct (onBranch cur target); tame.
Qed.

Lemma syncLocalBranchFromCommit_Tame root target hash :
  Emits (Tame P root (Stage_eqb Syncing))
    (syncLocalBranchFromCommit W root target hash).
Proof.
  unfold syncLocalBranchFromCommit, currentBranchOf.
  apply Emits_tryCatch; [|intros ?; tame].
  apply Emits_bind; [tame|]. intros cur.
  destruct (onBranch cur target); tame.
Qed.

(** Neither sync function ever throws: a failure is caught and logged. *)
Lemma syncLocalBranch_NeverThrows root target :
  NeverThrows (syncLocalBranch W root target).
Proof. apply NeverThrows_tryCatch. intros e. apply NeverThrows_warn. Qed.

Lemma syncLocalBranchFromCommit_NeverThrows root target hash :
  NeverThrows (syncLocalBranchFromCommit W root target hash).
Proof. apply NeverThrows_tryCatch. intros e. apply NeverThrows_warn. Qed.

Lemma syncStep_NeverThrows root target isLocalOnly pushes syncs r :
  NeverThrows (syncStep W root target isLocalOnly pushes syncs r).
Proof.
  unfold syncStep. apply NeverThrows_when.
  destruct isLocalOnly; [apply syncLocalBranchFromCommit_NeverThrows|].
  destruct pushes; [apply syncLocalBranch_NeverThrows|apply NeverThrows_ret].
Qed.

Lemma syncStep_Tame root target isLocalOnly pushes syncs r :
  Emits (Tame P root (fun s => Stage_eqb Syncing s && syncs))
    (syncStep W root target isLocalOnly pushes syncs r).
Proof.
  unfold syncStep. destruct (success r); simpl; [|apply Emits_ret].
  destruct syncs; simpl; [|apply Emits_ret].
  apply (Emits_impl (Tame P root (Stage_eqb Syncing))).
  - intros ev. apply Tame_weaken. intros s Hs.
    destruct s; simpl in *; congruence.
  - destruct isLocalOnly; [apply syncLocalBranchFromCommit_Tame|].
    destruct pushes; [apply syncLocalBranch_Tame|apply Emits_ret].
Qed.

End MergeFacts.

Section MergeBranchFacts.

Import Js GitMerge.

Context (P : PathApi) (W : World).

Lemma Emits_stage {A} root (stages stages' : Stage -> bool) (m : M A) :
  (forall s, stages s = true -> stages' s = true) ->
  Emits (Tame P root stages) m -> Emits (Tame P root stages') m.
Proof.
  intros Hsub. apply Emits_impl. intros ev. now apply Tame_weaken.
Qed.

Lemma jsDateNow_Emits Q : Emits Q (jsDateNow W).
Proof. intros h. constructor. Qed.

Lemma fsExistsSync_Emits Q path : Emits Q (fsExistsSync W path).
Proof. intros h. constructor. Qed.

Ltac stage_incl :=
  let s := fresh "s" in
  intros s; destruct s; simpl; try discriminate; try reflexivity; auto.

Lemma worktreeMerge_Tame o isLocalOnly target :
  Emits (Tame P (workspaceRoot o) (worktreeStages (nullish (syncLocal o) true)))
    (worktreeMerge P W o isLocalOnly target).
Proof.
  unfold worktreeMerge. cbv zeta.
  set (root := workspaceRoot o). set (syncs := nullish (syncLocal o) true).
  apply Emits_bind; [apply jsDateNow_Emits|]. intros now.
  apply Emits_bind; [apply fsExistsSync_Emits|]. intros leftover.
  apply Emits_bind.
  { apply Emits_when. apply Emits_bind; [|intros ?; apply Emits_ret].
    apply Emits_execAsync. intros res. simpl. auto. }
  intros _. apply Emits_bind.
  { apply Emits_execAsync. intros res. simpl. auto. }
  intros _. apply Emits_bind.
  { apply Emits_tryFinally.
    - apply Emits_tryCatch.
      + eapply Emits_stage; [|apply mergeSteps_Tame]. stage_incl.
      + intros e. eapply Emits_stage; [|apply onMergeError_Tame]. stage_incl.
    - eapply Emits_stage; [|apply removeWorktree_Tame]. stage_incl. }
  intros mergeResult. apply Emits_bind; [|intros ?; apply Emits_ret].
  eapply Emits_stage; [|apply syncStep_Tame].
  intros s. destruct s; simpl; try discriminate.
  now destruct syncs.
Qed.

(** Every event of a [mergeBranch] call obeys the discipline, with the sync
    stage present only when [syncLocal] is enabled. *)
Lemma mergeBranch_Tame o :
  Emits (Tame P (workspaceRoot o) (stagesOf (nullish (syncLocal o) true)))
    (mergeBranch P W o).
Proof.
  unfold mergeBranch. cbv zeta.
  set (root := workspaceRoot o). set (syncs := nullish (syncLocal o) true).
  apply Emits_bind.
  { eapply Emits_stage; [|apply resolveLocalOnly_Tame]. stage_incl. }
  intros isLocalOnly. apply Emits_bind.
  { eapply Emits_stage; [|apply resolveTargetBranch_Tame]. stage_incl. }
  intros target. apply Emits_bind.
  { apply Emits_when. apply Emits_bind; [|intros ?; apply Emits_ret].
    apply Emits_execAsync. intros res. simpl. auto. }
  intros _. apply Emits_bind.
  { destruct (nullish (preflight o) true); [|apply Emits_ret].
    eapply Emits_stage; [|apply preflightCheck_Tame]. stage_incl. }
  intros [result|]; [apply Emits_ret|].
  eapply Emits_stage; [|apply worktreeMerge_Tame].
  intros s. unfold stagesOf. destruct s; simpl; auto; discriminate.
Qed.

End MergeBranchFacts.

(** ** Runs on the example repositories *)

Section Runs.

Import Js GitMerge Scenario.

(** C1, as stated, fails.  The default call on a clone that is checked out
    on its target branch succeeds and then, as its last command, runs
    [git merge --ff-only origin/main] with the workspace root as working
    directory: a command that moves the main checkout's HEAD and files. *)
Lemma mergeBranch_fast_forwards_main_checkout :
  let run := mergeBranch posix (world cloneRepo) defaults [] in
  run.1 = Returned (mkResult true (Some "abc123") false None None)
  /\ last run.2
     = Some (Exec Raw "/repo" (MergeFfOnly "origin/main") (ok ""))
  /\ existsb (mutatesMainCheckout posix "/repo") run.2 = true.
Proof. vm_compute. repeat split. Qed.

End Runs.

(** ** Branch detection *)

Section DetectFacts.

Import Js GitMerge Scenario.

(** Case analysis on the answers of a repository state, one command after
    the other. *)
Ltac ask_repo repo :=
  repeat match goal with
    | |- context [repo ?root ?cmd] =>
        let o := fresh "o" in
        remember (repo root cmd) as o; destruct o; cbn
    | |- context [match matchOriginHead ?s with Some _ => _ | None => _ end] =>
        destruct (matchOriginHead s); cbn
    end.

(** On a repository state, [detectTargetBranch] answers the first step that
    succeeds of: the remote steps when the remote [origin] exists, the local
    steps, the literal [main]. *)
Lemma detectTargetBranch_static repo fileExists now root h :
  (detectTargetBranch (staticWorld repo fileExists now) root h).1
  = Returned (nullish (firstSuccess (detectOrder repo root)) "main").
Proof.
  unfold detectOrder, remoteSteps, localSteps, symrefStep, existsStep, succeeds.
  unfold detectTargetBranch, hasRemote, tryRemoteBranches, tryLocalBranches,
    orFallThrough, tryCatch, bind, execAsync, ret.
  cbv [String.append commandLine gitArgs]. cbn. ask_repo repo; reflexivity.
Qed.

(** C2, as amended.  [detectTargetBranch] does not read a configured base
    branch, and it tries the remote steps only when the remote [origin]
    exists.  For every repository state it returns the first step that
    succeeds of: when [git remote get-url origin] succeeds, the remote
    symbolic-ref [origin/HEAD], then existence of [origin/main], then
    existence of [origin/master]; then local [main], then local [master],
    then the literal [main].  The configured branch comes first at the call
    site: [mergeBranch] takes [options.targetBranch] when it is given and
    asks [detectTargetBranch] only otherwise. *)
Theorem detectTargetBranch_fallback_order repo fileExists now root h o :
  let W := staticWorld repo fileExists now in
  option_map Returned (firstSuccess (detectOrder repo root))
  = Some (detectTargetBranch W root h).1
  /\ option_map Returned
       (firstSuccess ([targetBranch o] ++ detectOrder repo (workspaceRoot o)))
     = Some (resolveTargetBranch W o h).1.
Proof.
  cbv zeta. split.
  - rewrite detectTargetBranch_static. unfold detectOrder.
    destruct (firstSuccess _) eqn:Hfirst; [reflexivity|]. exfalso.
    revert Hfirst. unfold remoteSteps, localSteps, symrefStep, existsStep.
    destruct (succeeds repo root (RemoteGetUrl "origin")); simpl;
      repeat match goal with
        | |- context [match ?x with _ => _ end] => destruct x; simpl
        | |- context [if ?x then _ else _] => destruct x; simpl
        end; discriminate.
  - unfold resolveTargetBranch.
    destruct (targetBranch o) as [t|]; [reflexivity|].
    simpl. rewrite detectTargetBranch_static. unfold detectOrder.
    destruct (firstSuccess _) eqn:Hfirst; [reflexivity|]. exfalso.
    revert Hfirst. unfold remoteSteps, localSteps, symrefStep, existsStep.
    destruct (succeeds repo (workspaceRoot o) (RemoteGetUrl "origin")); simpl;
      repeat match goal with
        | |- context [match ?x with _ => _ end] => destruct x; simpl
        | |- context [if ?x then _ else _] => destruct x; simpl
        end; discriminate.
Qed.

(** C2, as stated, fails.  On a clone whose configured base branch is
    [develop], [detectTargetBranch] answers [main] (the claimed order starts
    with the configured branch); and in a repository without a remote
    [origin] that has a local [master] and a ref that [origin/main] resolves
    to, it answers [master], while the claimed order reaches the existence of
    [origin/main] first. *)
Lemma detectTargetBranch_skips_claimed_steps :
  (detectTargetBranch (world cloneRepo) "/repo" []).1 = Returned "main"
  /\ firstSuccess (claimedOrder (Some "develop") cloneRepo "/repo")
     = Some "develop"
  /\ (detectTargetBranch (world strayRefRepo) "/repo" []).1
     = Returned "master"
  /\ firstSuccess (claimedOrder None strayRefRepo "/repo") = Some "main".
Proof. vm_compute. repeat split. Qed.

End DetectFacts.

(** ** The stages of a [mergeBranch] run *)

Section StageFacts.

Import Js GitMerge.

Context (P : PathApi) (W : World).

Implicit Types (h : list Event) (root : string).

Lemma bind_Returned {A B} (m : M A) (k : A -> M B) h a t1 :
  m h = (Returned a, t1) ->
  bind m k h = (let '(r, t2) := k a (h ++ t1)%list in (r, (t1 ++ t2)%list)).
Proof. intros Hm. unfold bind. now rewrite Hm. Qed.

Lemma bind_Threw {A B} (m : M A) (k : A -> M B) h e t1 :
  m h = (Threw e, t1) -> bind m k h = (Threw e, t1).
Proof. intros Hm. unfold bind. now rewrite Hm. Qed.

(** The run of the pre-flight check: a failed [git merge-base] ends it
    without a verdict; otherwise the dry run decides. *)
Lemma preflightCheck_run root source target isLocalOnly h :
  let ref := refOf isLocalOnly target in
  let base := git W h root (commandLine (MergeBase ref source)) in
  let findBase := Exec Raw root (MergeBase ref source) base in
  preflightCheck W root source target isLocalOnly h =
  match base with
  | Rejected _ => (Returned None, [findBase])
  | Resolved mergeBase =>
      let c := MergeTree (trim (stdout mergeBase)) ref source in
      let dryRun := git W (h ++ [findBase])%list root (commandLine c) in
      (Returned
         match outcomeStdout dryRun with
         | Some out =>
             if includes "<<<<<<<" out then Some (preflightRejection out)
             else None
         | None => None
         end,
       [findBase; Exec Raw root c dryRun])
  end.
Proof.
  cbv zeta. unfold preflightCheck, tryCatch, bind, settle, tryCatch, bind,
    execAsync, ret.
  destruct (git W h root _) as [mergeBase|e]; simpl; [|reflexivity].
  destruct (git W _ root _) as [out|e]; simpl.
  - destruct (includes _ (stdout out)); reflexivity.
  - destruct (errStdout e) as [out|]; [|reflexivity].
    destruct (includes _ out); reflexivity.
Qed.

(** The run of [syncLocalBranch]: it returns, whatever git answers, having
    run what [expectedRemoteSync] lists. *)
Lemma syncLocalBranch_run root target h :
  syncLocalBranch W root target h
  = (Returned tt, expectedRemoteSync W root target h).
Proof.
  unfold syncLocalBranch, expectedRemoteSync, currentBranchOf, orFallThrough,
    tryCatch, bind, execAsync, ret, warn.
  cbv zeta.
  destruct (git W h root (commandLine SymbolicRefShortHead)) as [out|e];
    simpl; [|reflexivity].
  destruct (String.eqb (trim (stdout out)) ""); simpl; [reflexivity|].
  rewrite ?app_nil_r.
  destruct (String.eqb (trim (stdout out)) target); simpl;
    destruct (git W _ root _); reflexivity.
Qed.

(** The run of [syncLocalBranchFromCommit], likewise. *)
Lemma syncLocalBranchFromCommit_run root target hash h :
  syncLocalBranchFromCommit W root target hash h
  = (Returned tt, expectedLocalSync W root target hash h).
Proof.
  unfold syncLocalBranchFromCommit, expectedLocalSync, currentBranchOf,
    orFallThrough, tryCatch, bind, execAsync, ret, warn.
  cbv zeta.
  destruct (git W h root (commandLine SymbolicRefShortHead)) as [out|e];
    simpl; rewrite ?app_nil_r.
  - destruct (String.eqb (trim (stdout out)) target); simpl;
      destruct (git W _ root _); reflexivity.
  - destruct (git W _ root _); reflexivity.
Qed.

(** When the [try] block returns, it returns a success with a commit hash,
    and no command of it failed, the push apart. *)
Lemma mergeSteps_Returned root source target mergeDir message strategy
    pushes h r t :
  mergeSteps P W root source target mergeDir message strategy pushes h
  = (Returned r, t) ->
  (exists hash, r = mkResult true (Some hash) false None None) /\
  Forall (fun ev => ~ mergeFailure ev) t.
Proof.
  unfold mergeSteps, when, execGitSafe.
  destruct (String.eqb (path_resolve P mergeDir) (path_resolve P root)).
  { destruct strategy; discriminate. }
  unfold tryCatch, bind, ret, warn.
  destruct strategy; simpl;
    repeat match goal with
      | |- context [git W ?hh ?cwd ?cmd] =>
          let res := fresh "res" in
          destruct (git W hh cwd cmd) as [res|res]; simpl; try discriminate
      end;
    destruct pushes; simpl;
    repeat match goal with
      | |- context [git W ?hh ?cwd ?cmd] =>
          let res := fresh "res" in
          destruct (git W hh cwd cmd) as [res|res]; simpl; try discriminate
      end;
    intros [= <- <-]; (split; [eauto|]);
    repeat constructor; simpl; tauto.
Qed.

(** The [catch] block always returns a failure. *)
Lemma onMergeError_run root mergeDir strategy e h :
  exists r t,
    onMergeError P W root mergeDir strategy e h = (Returned r, t) /\
    success r = false.
Proof.
  unfold onMergeError.
  destruct (_ || _).
  - unfold bind, tryCatch, ret, execGitSafe.
    destruct strategy;
      destruct (String.eqb (path_resolve P mergeDir) (path_resolve P root));
      simpl; try destruct (git W h mergeDir _); simpl; eauto.
  - unfold ret. eauto.
Qed.

(** Steps 4 to 7 as a whole never throw; a failure of a merge-phase
    command, the push apart, gives a result with [success: false]; and a
    success carries its commit hash. *)
Lemma mergeInWorktree_run root source target mergeDir message strategy
    pushes h :
  exists r t,
    mergeInWorktree P W root source target mergeDir message strategy pushes h
    = (Returned r, t) /\
    Forall (Tame P root (worktreeStages false)) t /\
    (Exists mergeFailure t -> success r = false) /\
    (success r = true -> exists hash, commitHash r = Some hash).
Proof.
  unfold mergeInWorktree.
  set (body := tryCatch _ _).
  set (whole := tryFinally body _).
  assert (Hnever : NeverThrows whole).
  { apply NeverThrows_tryFinally; [|apply removeWorktree_NeverThrows].
    apply NeverThrows_tryCatch. intros e. apply onMergeError_NeverThrows. }
  assert (Htame : Emits (Tame P root (worktreeStages false)) whole).
  { apply Emits_tryFinally.
    - apply Emits_tryCatch.
      + eapply Emits_impl; [|apply mergeSteps_Tame].
        intros ev. apply Tame_weaken. intros s; destruct s; simpl; auto.
      + intros e. eapply Emits_impl; [|apply onMergeError_Tame].
        intros ev. apply Tame_weaken. intros s; destruct s; simpl; auto.
    - eapply Emits_impl; [|apply removeWorktree_Tame].
      intros ev. apply Tame_weaken. intros s; destruct s; simpl; auto. }
  destruct (NeverThrows_run whole h Hnever) as (r & t & Hrun).
  exists r, t. split; [exact Hrun|]. split.
  { specialize (Htame h). now rewrite Hrun in Htame. }
  revert Hrun. unfold whole, tryFinally, body, tryCatch.
  destruct (mergeSteps _ _ _ _ _ _ _ _ _ h) as [[r0|e] t1] eqn:Hsteps.
  - apply mergeSteps_Returned in Hsteps as [[hash ->] Hclean].
    pose proof (removeWorktree_Tame P W root mergeDir (h ++ t1)%list) as Hrm.
    destruct (removeWorktree W root mergeDir (h ++ t1)%list)
      as [[u|e] t2]; intros [= <- <-]; simpl in *.
    split; [|eauto]. intros Hex. exfalso.
    apply Exists_app in Hex as [Hex|Hex].
    + apply Exists_exists in Hex as (ev & Hin & Hfail).
      rewrite Forall_forall in Hclean. now apply (Hclean ev).
    + apply Exists_exists in Hex as (ev & Hin & Hfail).
      rewrite Forall_forall in Hrm. specialize (Hrm ev Hin).
      destruct ev as [[|] cwd c res|msg]; simpl in *; try tauto.
      destruct Hrm as (_ & Hst & _). discriminate.
  - destruct (onMergeError_run root mergeDir strategy e (h ++ t1)%list)
      as (r1 & t2 & Herr & Hfail).
    rewrite Herr.
    destruct (removeWorktree W root mergeDir _) as [[u|e'] t3];
      intros [= <- <-].
    split; [intros _; exact Hfail|]. rewrite Hfail. discriminate.
Qed.

Lemma run_eta {A} (x : Completion A * list Event) :
  (let '(r, t) := x in (r, ([] ++ t)%list)) = x.
Proof. now destruct x. Qed.

(** The run of steps 3 to 8.  A failure of the leftover cleanup or of
    [git worktree add] is thrown; once the worktree exists the steps return
    a result, and the local sync comes last. *)
Lemma worktreeMerge_run o isLocalOnly target h :
  let root := workspaceRoot o in
  let mergeDir := mergeDirOf P root (sourceBranch o) (dateNow W h) in
  let leftover := existsSync W h mergeDir in
  let removal := git W h root (commandLine (WorktreeRemoveForce mergeDir)) in
  let tClean :=
    if leftover then [Exec Raw root (WorktreeRemoveForce mergeDir) removal]
    else [] in
  let c := WorktreeAddDetach mergeDir (refOf isLocalOnly target) in
  let creation := git W (h ++ tClean)%list root (commandLine c) in
  let create := Exec Raw root c creation in
  (forall e, leftover = true -> removal = Rejected e ->
     worktreeMerge P W o isLocalOnly target h = (Threw e, tClean))
  /\ (forall e,
        (leftover = true -> exists out, removal = Resolved out) ->
        creation = Rejected e ->
        worktreeMerge P W o isLocalOnly target h
        = (Threw e, (tClean ++ [create])%list))
  /\ (forall out,
        (leftover = true -> exists out', removal = Resolved out') ->
        creation = Resolved out ->
        exists r tMerge tSync,
          worktreeMerge P W o isLocalOnly target h
          = (Returned r, (tClean ++ create :: tMerge ++ tSync)%list)
          /\ mergeInWorktree P W root (sourceBranch o) target mergeDir
               (messageOf o (nullish (mergeStrategy o) Squash) target)
               (nullish (mergeStrategy o) Squash)
               (nullish (autoPush o) true && negb isLocalOnly)
               (h ++ tClean ++ [create])%list
             = (Returned r, tMerge)
          /\ Forall (Tame P root (worktreeStages false)) tMerge
          /\ (Exists mergeFailure tMerge -> success r = false)
          /\ (success r = true -> exists hash, commitHash r = Some hash)
          /\ syncStep W root target isLocalOnly (nullish (autoPush o) true)
               (nullish (syncLocal o) true) r
               (h ++ tClean ++ create :: tMerge)%list
             = (Returned tt, tSync)).
Proof.
  cbv zeta.
  set (root := workspaceRoot o).
  set (mergeDir := mergeDirOf P root (sourceBranch o) (dateNow W h)).
  set (leftover := existsSync W h mergeDir).
  set (removal := git W h root (commandLine (WorktreeRemoveForce mergeDir))).
  set (tClean := if leftover then _ else _).
  set (c := WorktreeAddDetach mergeDir (refOf isLocalOnly target)).
  set (creation := git W (h ++ tClean)%list root (commandLine c)).
  set (create := Exec Raw root c creation).
  unfold worktreeMerge. cbv zeta.
  rewrite (bind_Returned (jsDateNow W) _ h (dateNow W h) [] eq_refl).
  rewrite app_nil_r, run_eta.
  rewrite (bind_Returned (fsExistsSync W _) _ h leftover [] eq_refl).
  rewrite app_nil_r, run_eta.
  fold root. fold mergeDir.
  set (cleanup := when leftover _).
  set (creating := execAsync W _ root).
  set (merging := mergeInWorktree _ _ _ _ _ _ _ _ _).
  (* the leftover cleanup *)
  assert (Hclean :
    cleanup h
    = (match removal with
       | Rejected e => if leftover then Threw e else Returned tt
       | Resolved _ => Returned tt
       end, tClean)).
  { unfold cleanup, when, tClean. destruct leftover; [|now destruct removal].
    unfold bind, execAsync, ret. fold removal. now destruct removal. }
  assert (Hcreating : creating (h ++ tClean)%list
                      = (completionOf creation, [create])) by reflexivity.
  split; [|split].
  - intros e Hleft Hrem. rewrite (bind_Threw cleanup _ h e tClean);
      [reflexivity|].
    rewrite Hclean, Hrem, Hleft. reflexivity.
  - intros e Hrem Hcreate.
    rewrite (bind_Returned cleanup _ h tt tClean); cycle 1.
    { rewrite Hclean. destruct removal as [out|e']; [reflexivity|].
      destruct leftover; [|reflexivity].
      destruct Hrem as [out Hout]; [reflexivity|discriminate]. }
    rewrite (bind_Threw creating _ _ e [create]); [reflexivity|].
    rewrite Hcreating, Hcreate. reflexivity.
  - intros out Hrem Hcreate.
    rewrite (bind_Returned cleanup _ h tt tClean); cycle 1.
    { rewrite Hclean. destruct removal as [out'|e']; [reflexivity|].
      destruct leftover; [|reflexivity].
      destruct Hrem as [out' Hout]; [reflexivity|discriminate]. }
    rewrite (bind_Returned creating _ _ out [create]); cycle 1.
    { rewrite Hcreating, Hcreate. reflexivity. }
    destruct (mergeInWorktree_run root (sourceBranch o) target mergeDir
                (messageOf o (nullish (mergeStrategy o) Squash) target)
                (nullish (mergeStrategy o) Squash)
                (nullish (autoPush o) true && negb isLocalOnly)
                ((h ++ tClean) ++ [create])%list)
      as (r & tMerge & Hmerge & Htame & Hfail & Hhash).
    fold merging in Hmerge.
    destruct (NeverThrows_run
                (syncStep W root target isLocalOnly (nullish (autoPush o) true)
                   (nullish (syncLocal o) true) r)
                (((h ++ tClean) ++ [create]) ++ tMerge)%list
                (syncStep_NeverThrows W _ _ _ _ _ _))
      as ([] & tSync & Hsync).
    exists r, tMerge, tSync.
    split; [|split;
               [|split; [exact Htame|split; [exact Hfail|split; [exact Hhash|]]]]].
    2: { rewrite <- Hmerge. unfold merging. now rewrite <- app_assoc. }
    + rewrite (bind_Returned merging _ _ r tMerge Hmerge).
      rewrite (bind_Returned _ _ _ tt tSync Hsync).
      unfold ret. rewrite app_nil_r. reflexivity.
    + rewrite <- Hsync. f_equal.
      now rewrite <- !app_assoc.
Qed.

(** The run of [mergeBranch] up to step 3: probing never throws; a failed
    fetch is thrown; the pre-flight check either ends the call with its
    verdict or hands over to steps 3 to 8. *)
Lemma mergeBranch_run o h :
  let root := workspaceRoot o in
  exists isLocalOnly target tLocal tTarget,
    resolveLocalOnly W o h = (Returned isLocalOnly, tLocal) /\
    resolveTargetBranch W o (h ++ tLocal)%list = (Returned target, tTarget) /\
    let tProbe := (tLocal ++ tTarget)%list in
    let fetching := git W (h ++ tProbe)%list root (commandLine FetchOrigin) in
    let tFetch :=
      if isLocalOnly then [] else [Exec Raw root FetchOrigin fetching] in
    Forall (Tame P root (Stage_eqb Probing)) tProbe
    /\ (forall e, isLocalOnly = false -> fetching = Rejected e ->
          mergeBranch P W o h = (Threw e, (tProbe ++ tFetch)%list))
    /\ ((isLocalOnly = false -> exists out, fetching = Resolved out) ->
        exists rejected tPre,
          (if nullish (preflight o) true
           then preflightCheck W root (sourceBranch o) target isLocalOnly
                  (h ++ tProbe ++ tFetch)%list
           else (Returned None, [])) = (Returned rejected, tPre)
          /\ mergeBranch P W o h
             = match rejected with
               | Some result =>
                   (Returned result, (tProbe ++ tFetch ++ tPre)%list)
               | None =>
                   let '(r, t) :=
                     worktreeMerge P W o isLocalOnly target
                       (h ++ tProbe ++ tFetch ++ tPre)%list in
                   (r, (tProbe ++ tFetch ++ tPre ++ t)%list)
               end).
Proof.
  cbv zeta. set (root := workspaceRoot o).
  destruct (NeverThrows_run _ h (resolveLocalOnly_NeverThrows W o))
    as (isLocalOnly & tLocal & Hlocal).
  destruct (NeverThrows_run _ (h ++ tLocal)%list
              (resolveTargetBranch_NeverThrows W o))
    as (target & tTarget & Htarget).
  exists isLocalOnly, target, tLocal, tTarget.
  split; [exact Hlocal|]. split; [exact Htarget|].
  set (tProbe := (tLocal ++ tTarget)%list).
  set (fetching := git W (h ++ tProbe)%list root (commandLine FetchOrigin)).
  set (tFetch := if isLocalOnly then [] else _).
  unfold mergeBranch. cbv zeta. fold root.
  rewrite (bind_Returned _ _ h isLocalOnly tLocal Hlocal).
  rewrite (bind_Returned _ _ _ target tTarget Htarget).
  set (fetchStep := when (negb isLocalOnly) _).
  set (preStep := if nullish (preflight o) true then _ else _).
  assert (Hfetch :
    fetchStep ((h ++ tLocal) ++ tTarget)%list
    = (if isLocalOnly then Returned tt
       else match fetching with
            | Resolved _ => Returned tt
            | Rejected e => Threw e
            end, tFetch)).
  { unfold fetchStep, when, tFetch, fetching, tProbe.
    rewrite <- app_assoc. destruct isLocalOnly; [reflexivity|]. simpl.
    unfold bind, execAsync, ret.
    now destruct (git W _ root (commandLine FetchOrigin)). }
  assert (Hprobe : Forall (Tame P root (Stage_eqb Probing)) tProbe).
  { apply Forall_app. split.
    - pose proof (resolveLocalOnly_Tame P W o h) as Ht.
      now rewrite Hlocal in Ht.
    - pose proof (resolveTargetBranch_Tame P W o (h ++ tLocal)%list) as Ht.
      now rewrite Htarget in Ht. }
  split; [exact Hprobe|]. split.
  - intros e Hremote Hfail.
    rewrite (bind_Threw fetchStep _ _ e tFetch).
    + unfold tProbe. now rewrite <- app_assoc.
    + rewrite Hfetch, Hremote, Hfail. reflexivity.
  - intros Hok.
    rewrite (bind_Returned fetchStep _ _ tt tFetch); cycle 1.
    { rewrite Hfetch. destruct isLocalOnly; [reflexivity|].
      destruct Hok as [out ->]; reflexivity. }
    destruct (NeverThrows_run preStep
                (((h ++ tLocal) ++ tTarget) ++ tFetch)%list)
      as (rejected & tPre & Hpre).
    { unfold preStep. destruct (nullish (preflight o) true);
        [apply preflightCheck_NeverThrows|apply NeverThrows_ret]. }
    exists rejected, tPre. split.
    + rewrite <- Hpre. unfold preStep, tProbe.
      rewrite <- !app_assoc.
      now destruct (nullish (preflight o) true).
    + rewrite (bind_Returned preStep _ _ rejected tPre Hpre).
      unfold tProbe. rewrite <- !app_assoc.
      destruct rejected as [result|].
      * unfold ret. now rewrite app_nil_r.
      * destruct (worktreeMerge P W o isLocalOnly target _) as [r t].
        now rewrite <- ?app_assoc.
Qed.

End StageFacts.

(** ** Pre-flight rejection, thrown failures, local sync *)

Section MergeClaims.

Import Js GitMerge.

Context (P : PathApi) (W : World).

Implicit Types (h t : list Event) (root : string).

Lemma Stage_eqb_eq a b : Stage_eqb a b = true -> a = b.
Proof. destruct a, b; simpl; congruence. Qed.

(** In a run that obeys the discipline, every command belongs to one of the
    stages. *)
Lemma Tame_In_stage root stages t via cwd c res :
  Forall (Tame P root stages) t -> In (Exec via cwd c res) t ->
  stages (stageOf c) = true.
Proof.
  intros Hall Hin. rewrite List.Forall_forall in Hall.
  specialize (Hall _ Hin). destruct via; simpl in Hall.
  - tauto.
  - destruct Hall as (_ & Hst & Hphase).
    apply Stage_eqb_eq in Hphase. now rewrite Hphase.
Qed.

Lemma Tame_no_createsWorktree root stages t :
  Forall (Tame P root stages) t -> stages WorktreeAdmin = false ->
  existsb createsWorktree t = false.
Proof.
  intros Hall Hst. apply not_true_is_false. intros Hex.
  apply existsb_exists in Hex as (ev & Hin & Hev).
  destruct ev as [via cwd c res|msg]; [|discriminate].
  pose proof (Tame_In_stage _ _ _ _ _ _ _ Hall Hin) as Hc.
  destruct c; simpl in *; congruence.
Qed.



(** Steps 3 to 8 start with a command of worktree administration. *)
Lemma worktreeMerge_starts o isLocalOnly target h :
  exists next after,
    (worktreeMerge P W o isLocalOnly target h).2 = next :: after /\
    atStage WorktreeAdmin next = true.
Proof.
  destruct (worktreeMerge_run P W o isLocalOnly target h)
    as (Hrm & Hadd & Hok).
  destruct (existsSync W h _).
  - destruct (git W h (workspaceRoot o) (commandLine (WorktreeRemoveForce _)))
      as [out|e].
    + destruct (git W _ (workspaceRoot o)
                  (commandLine (WorktreeAddDetach _ _))) as [out'|e].
      * destruct (Hok out') as (r & tMerge & tSync & Hrun & _);
          [eauto|reflexivity|]. rewrite Hrun. simpl. eauto.
      * rewrite (Hadd e); [simpl; eauto|eauto|reflexivity].
    + rewrite (Hrm e); [simpl; eauto|reflexivity|reflexivity].
  - destruct (git W _ (workspaceRoot o)
                (commandLine (WorktreeAddDetach _ _))) as [out'|e].
    + destruct (Hok out') as (r & tMerge & tSync & Hrun & _);
        [discriminate|reflexivity|]. rewrite Hrun. simpl. eauto.
    + rewrite (Hadd e); [simpl; eauto|discriminate|reflexivity].
Qed.

(** The two ways a [mergeBranch] run goes on after probing: the fetch fails
    and its error is thrown, or the pre-flight check is reached. *)
Lemma mergeBranch_paths o h :
  let root := workspaceRoot o in
  exists isLocalOnly target tEarly,
    Forall (Tame P root earlyStages) tEarly /\
    ((exists e,
        mergeBranch P W o h
        = (Threw e, (tEarly ++ [Exec Raw root FetchOrigin (Rejected e)])%list))
     \/ (exists rejected tPre,
           (if nullish (preflight o) true
            then preflightCheck W root (sourceBranch o) target isLocalOnly
                   (h ++ tEarly)%list
            else (Returned None, [])) = (Returned rejected, tPre)
           /\ Forall (Tame P root (Stage_eqb Preflighting)) tPre
           /\ mergeBranch P W o h
              = match rejected with
                | Some result => (Returned result, (tEarly ++ tPre)%list)
                | None =>
                    let '(r, t) :=
                      worktreeMerge P W o isLocalOnly target
                        (h ++ tEarly ++ tPre)%list in
                    (r, (tEarly ++ tPre ++ t)%list)
                end)).
Proof.
  cbv zeta.
  destruct (mergeBranch_run P W o h)
    as (isLocalOnly & target & tLocal & tTarget & Hlocal & Htarget & Hrest).
  cbv zeta in Hrest. destruct Hrest as (Hprobe & Hfail & Hgo).
  assert (Hearly : Forall (Tame P (workspaceRoot o) earlyStages)
                     (tLocal ++ tTarget)).
  { eapply Forall_impl; [exact Hprobe|]. intros ev.
    apply Tame_weaken. intros s; destruct s; simpl; auto. }
  assert (Hpretame : forall lo hist rejected tPre,
            (if nullish (preflight o) true
             then preflightCheck W (workspaceRoot o) (sourceBranch o) target
                    lo hist
             else (Returned None, [])) = (Returned rejected, tPre) ->
            Forall (Tame P (workspaceRoot o) (Stage_eqb Preflighting)) tPre).
  { intros lo hist rejected tPre Hpre.
    destruct (nullish (preflight o) true).
    - pose proof (preflightCheck_Tame P W (workspaceRoot o) (sourceBranch o)
                    target lo hist) as Ht.
      now rewrite Hpre in Ht.
    - injection Hpre as <- <-. constructor. }
  exists isLocalOnly, target.
  destruct isLocalOnly.
  - exists (tLocal ++ tTarget)%list. split; [exact Hearly|]. right.
    destruct Hgo as (rejected & tPre & Hpre & Hrun); [discriminate|].
    rewrite !app_nil_r in Hpre. simpl in Hrun.
    exists rejected, tPre. split; [exact Hpre|].
    split; [eapply Hpretame; exact Hpre|]. exact Hrun.
  - destruct (git W (h ++ tLocal ++ tTarget)%list (workspaceRoot o)
                (commandLine FetchOrigin)) as [out|e] eqn:Hfetch.
    + exists ((tLocal ++ tTarget)
              ++ [Exec Raw (workspaceRoot o) FetchOrigin (Resolved out)])%list.
      split.
      { apply Forall_app. split; [exact Hearly|].
        repeat constructor. }
      right. destruct Hgo as (rejected & tPre & Hpre & Hrun); [eauto|].
      exists rejected, tPre. rewrite <- ?app_assoc in *.
      split; [exact Hpre|]. split; [eapply Hpretame; exact Hpre|].
      rewrite Hrun.
      destruct rejected as [result|]; [reflexivity|].
      destruct (worktreeMerge P W o false target _) as [r t].
      now rewrite <- ?app_assoc.
    + exists (tLocal ++ tTarget)%list. split; [exact Hearly|]. left.
      exists e. now apply Hfail.
Qed.

(** A command of a stage that a part of the run does not contain is not in
    that part. *)
Ltac wrong_stage Hall Hin :=
  let X := fresh in
  pose proof (Tame_In_stage _ _ _ _ _ _ _ Hall Hin) as X;
  simpl in X; discriminate X.

(** Names the result and the events of steps 3 to 8, with the discipline
    they obey. *)
Ltac late_part Hlate r t :=
  match goal with
  | H : context [worktreeMerge ?P' ?W' ?o' ?lo ?tg ?hist] |- _ =>
      pose proof (worktreeMerge_Tame P' W' o' lo tg hist) as Hlate;
      destruct (worktreeMerge P' W' o' lo tg hist) as [r t]
  | |- context [worktreeMerge ?P' ?W' ?o' ?lo ?tg ?hist] =>
      pose proof (worktreeMerge_Tame P' W' o' lo tg hist) as Hlate;
      destruct (worktreeMerge P' W' o' lo tg hist) as [r t]
  end.

(** C5.  When the dry run of the pre-flight check ([git merge-tree], which
    runs only when pre-flight is enabled) puts conflict markers on its
    standard output, [mergeBranch] returns
    [{ success: false, hasConflict: true, conflictFiles }], the files being
    those named after [+++ b/] in that output ([undefined] when there are
    none), and the call never creates the temporary worktree.  When
    [git merge-base] fails, the call goes on: the next command it runs is
    the first of the worktree merge (the cleanup of a leftover worktree, or
    [git worktree add]). *)
Theorem mergeBranch_preflight o h :
  (forall via cwd base ref src res out,
     In (Exec via cwd (MergeTree base ref src) res) (mergeBranch P W o h).2 ->
     outcomeStdout res = Some out -> includes "<<<<<<<" out = true ->
     (mergeBranch P W o h).1 = Returned (preflightRejection out)
     /\ existsb createsWorktree (mergeBranch P W o h).2 = false)
  /\ (forall out,
        success (preflightRejection out) = false
        /\ hasConflict (preflightRejection out) = true
        /\ conflictFiles (preflightRejection out)
           = match preflightConflictFiles out with
             | [] => None
             | files => Some files
             end)
  /\ (forall via cwd ref src e,
        In (Exec via cwd (MergeBase ref src) (Rejected e))
          (mergeBranch P W o h).2 ->
        exists before next after,
          (mergeBranch P W o h).2
          = (before ++ Exec via cwd (MergeBase ref src) (Rejected e)
               :: next :: after)%list
          /\ atStage WorktreeAdmin next = true).
Proof.
  assert (Hshape : forall out,
            success (preflightRejection out) = false
            /\ hasConflict (preflightRejection out) = true
            /\ conflictFiles (preflightRejection out)
               = match preflightConflictFiles out with
                 | [] => None
                 | files => Some files
                 end).
  { intros out. unfold preflightRejection. simpl.
    now destruct (preflightConflictFiles out). }
  destruct (mergeBranch_paths o h)
    as (isLocalOnly & target & tEarly & Hearly & [[e0 Hrun]|Hgo]).
  { (* the fetch failed: no pre-flight command ran *)
    rewrite Hrun. simpl. split; [|split; [exact Hshape|]].
    - intros via cwd base ref src res out Hin _ _.
      apply in_app_or in Hin as [Hin|[Hin|[]]];
        [wrong_stage Hearly Hin|discriminate Hin].
    - intros via cwd ref src e Hin.
      apply in_app_or in Hin as [Hin|[Hin|[]]];
        [wrong_stage Hearly Hin|discriminate Hin]. }
  destruct Hgo as (rejected & tPre & Hpre & _ & Hrun).
  destruct (nullish (preflight o) true).
  2: { (* pre-flight disabled *)
    injection Hpre as <- <-. rewrite Hrun.
    late_part Hlate r t.
    simpl in *. split; [|split; [exact Hshape|]].
    - intros via cwd base ref src res out Hin _ _.
      apply in_app_or in Hin as [Hin|Hin];
        [wrong_stage Hearly Hin|wrong_stage Hlate Hin].
    - intros via cwd ref src e Hin.
      apply in_app_or in Hin as [Hin|Hin];
        [wrong_stage Hearly Hin|wrong_stage Hlate Hin]. }
  rewrite preflightCheck_run in Hpre. cbv zeta in Hpre.
  destruct (git W (h ++ tEarly)%list (workspaceRoot o)
              (commandLine (MergeBase (refOf isLocalOnly target)
                              (sourceBranch o)))) as [mergeBase|e1].
  - (* merge-base found: the dry run decides *)
    injection Hpre as <- <-.
    match type of Hrun with
    | context [Exec Raw ?root (MergeTree ?b ?r ?s) ?res] =>
        set (dryRun := res) in *; set (dry := Exec Raw root (MergeTree b r s) dryRun) in *
    end.
    split; [|split; [exact Hshape|]].
    + intros via cwd base ref src res out Hin Hout Hmark.
      assert (Hres : In (Exec via cwd (MergeTree base ref src) res)
                       (tEarly ++ [dry]) -> res = dryRun).
      { intros Hin'. apply in_app_or in Hin' as [Hin'|[Hin'|[]]];
          [wrong_stage Hearly Hin'|]. now injection Hin'. }
      destruct (outcomeStdout dryRun) as [out'|] eqn:Hdry.
      * destruct (includes "<<<<<<<" out') eqn:Hmark'.
        -- (* markers: the verdict is returned *)
           rewrite Hrun in *. simpl in *.
           assert (res = dryRun) as ->.
           { apply Hres. apply in_app_or in Hin as [Hin|[Hin|Hin]];
               [apply in_or_app; now left|discriminate Hin|].
             apply in_or_app. now right. }
           assert (out' = out) as -> by congruence.
           split; [reflexivity|].
           rewrite existsb_app.
           rewrite (Tame_no_createsWorktree _ _ _ Hearly eq_refl).
           reflexivity.
        -- (* no markers: the event is the dry run, which has none *)
           exfalso. rewrite Hrun in Hin.
           late_part Hlate r t.
           simpl in *.
           apply in_app_or in Hin as [Hin|[Hin|[Hin|Hin]]].
           ++ wrong_stage Hearly Hin.
           ++ discriminate Hin.
           ++ injection Hin as <- <- <- <- <-. congruence.
           ++ wrong_stage Hlate Hin.
      * exfalso. rewrite Hrun in Hin.
        late_part Hlate r t.
        simpl in *.
        apply in_app_or in Hin as [Hin|[Hin|[Hin|Hin]]].
        -- wrong_stage Hearly Hin.
        -- discriminate Hin.
        -- injection Hin as <- <- <- <- <-. congruence.
        -- wrong_stage Hlate Hin.
    + intros via cwd ref src e Hin. exfalso. rewrite Hrun in Hin.
      destruct (match outcomeStdout dryRun with
                | Some out => if includes "<<<<<<<" out
                              then Some (preflightRejection out) else None
                | None => None
                end) as [result|].
      * simpl in Hin. apply in_app_or in Hin as [Hin|[Hin|[Hin|[]]]];
          [wrong_stage Hearly Hin|discriminate Hin|discriminate Hin].
      * late_part Hlate r t.
        simpl in *.
        apply in_app_or in Hin as [Hin|[Hin|[Hin|Hin]]];
          [wrong_stage Hearly Hin|discriminate Hin|discriminate Hin
          |wrong_stage Hlate Hin].
  - (* merge-base failed: on to the worktree merge *)
    injection Hpre as <- <-. rewrite Hrun.
    destruct (worktreeMerge_starts o isLocalOnly target
                (h ++ tEarly ++
                 [Exec Raw (workspaceRoot o)
                    (MergeBase (refOf isLocalOnly target) (sourceBranch o))
                    (Rejected e1)])%list)
      as (next & after & Hstart & Hnext).
    late_part Hlate r t.
    simpl in *. subst t. split; [|split; [exact Hshape|]].
    + intros via cwd base ref src res out Hin _ _.
      apply in_app_or in Hin as [Hin|[Hin|Hin]];
        [wrong_stage Hearly Hin|discriminate Hin|wrong_stage Hlate Hin].
    + intros via cwd ref src e Hin.
      apply in_app_or in Hin as [Hin|[Hin|Hin]];
        [wrong_stage Hearly Hin| |wrong_stage Hlate Hin].
      injection Hin as <- <- <- <- <-.
      exists tEarly, next, after. split; [reflexivity|exact Hnext].
Qed.




(** The local sync is a suffix of steps 3 to 8: with [syncLocal] disabled
    the steps give the same result and the same events up to it. *)
Lemma worktreeMerge_sync o isLocalOnly target h :
  let root := workspaceRoot o in
  let quiet := worktreeMerge P W (withSyncLocal false o) isLocalOnly target h in
  let run := worktreeMerge P W o isLocalOnly target h in
  run.1 = quiet.1
  /\ exists tSync,
       run.2 = (quiet.2 ++ tSync)%list
       /\ (tSync <> [] ->
           nullish (syncLocal o) true = true /\
           exists r, run.1 = Returned r /\ success r = true)
       /\ forall r, run.1 = Returned r ->
            (success r = true -> exists hash, commitHash r = Some hash)
            /\ syncStep W root target isLocalOnly (nullish (autoPush o) true)
                 (nullish (syncLocal o) true) r (h ++ quiet.2)%list
               = (Returned tt, tSync).
Proof.
  cbv zeta.
  assert (Hquiet : forall lo pushes syncs r hist tSync,
            syncStep W (workspaceRoot o) target lo pushes syncs r hist
            = (Returned tt, tSync) ->
            tSync <> [] -> syncs = true /\ success r = true).
  { intros lo pushes syncs r hist tSync Hstep Hne. unfold syncStep in Hstep.
    destruct (success r); [|now injection Hstep as <-].
    destruct syncs; [now split|]. now injection Hstep as <-. }
  destruct (worktreeMerge_run P W o isLocalOnly target h)
    as (Hrm & Hadd & Hok).
  destruct (worktreeMerge_run P W (withSyncLocal false o) isLocalOnly target h)
    as (Hrm' & Hadd' & Hok').
  unfold messageOf in *.
  cbn [withSyncLocal workspaceRoot sourceBranch targetBranch mergeStrategy
       autoPush commitMessage preflight syncLocal localOnly nullish] in *.
  destruct (existsSync W h _).
  - destruct (git W h (workspaceRoot o) (commandLine (WorktreeRemoveForce _)))
      as [out|e].
    + destruct (git W _ (workspaceRoot o)
                  (commandLine (WorktreeAddDetach _ _))) as [out'|e].
      * destruct (Hok out') as (r & tMerge & tSync & Hwm & Hmerge & _ & _
                                & Hhash & Hsync); [eauto|reflexivity|].
        destruct (Hok' out') as (r' & tMerge' & tSync' & Hwm' & Hmerge' & _
                                 & _ & _ & Hsync'); [eauto|reflexivity|].
        rewrite Hmerge in Hmerge'. injection Hmerge' as <- <-.
        unfold syncStep in Hsync'. rewrite andb_false_r in Hsync'.
        injection Hsync' as <-.
        rewrite Hwm, Hwm'. simpl. rewrite app_nil_r.
        split; [reflexivity|]. exists tSync. split; [|split].
        -- now rewrite <- ?app_assoc.
        -- intros Hne. destruct (Hquiet _ _ _ _ _ _ Hsync Hne). eauto.
        -- intros r0 [= <-]. split; [exact Hhash|exact Hsync].
      * rewrite (Hadd e), (Hadd' e); eauto. simpl.
        split; [reflexivity|]. exists []. rewrite ?app_nil_r.
        split; [reflexivity|]. split; [congruence|discriminate].
    + rewrite (Hrm e), (Hrm' e); auto. simpl.
      split; [reflexivity|]. exists [].
      split; [reflexivity|]. split; [congruence|discriminate].
  - destruct (git W _ (workspaceRoot o)
                (commandLine (WorktreeAddDetach _ _))) as [out'|e].
    + destruct (Hok out') as (r & tMerge & tSync & Hwm & Hmerge & _ & _
                              & Hhash & Hsync); [discriminate|reflexivity|].
      destruct (Hok' out') as (r' & tMerge' & tSync' & Hwm' & Hmerge' & _
                               & _ & _ & Hsync'); [discriminate|reflexivity|].
      rewrite Hmerge in Hmerge'. injection Hmerge' as <- <-.
      unfold syncStep in Hsync'. rewrite andb_false_r in Hsync'.
      injection Hsync' as <-.
      rewrite Hwm, Hwm'. simpl. rewrite app_nil_r.
      split; [reflexivity|]. exists tSync. split; [reflexivity|]. split.
      * intros Hne. destruct (Hquiet _ _ _ _ _ _ Hsync Hne). eauto.
      * intros r0 [= <-]. split; [exact Hhash|exact Hsync].
    + rewrite (Hadd e), (Hadd' e); try discriminate; try reflexivity. simpl.
      split; [reflexivity|]. exists [].
      split; [reflexivity|]. split; [congruence|discriminate].
Qed.

(** A verdict of the pre-flight check is a failure. *)
Lemma preflight_verdict_fails root source target isLocalOnly hist result tPre
    (enabled : bool) :
  (if enabled
   then preflightCheck W root source target isLocalOnly hist
   else (Returned None, [])) = (Returned (Some result), tPre) ->
  success result = false.
Proof.
  destruct enabled; [|discriminate].
  rewrite preflightCheck_run. cbv zeta.
  destruct (git W hist root _) as [mergeBase|e]; [|discriminate].
  destruct (outcomeStdout _) as [out|]; [|discriminate].
  destruct (includes _ out); [|discriminate].
  now intros [= <- _].
Qed.

(** The local sync is a suffix of the call: with [syncLocal] disabled the
    call completes the same way and its events are a prefix of the events of
    the call; what follows is the sync, which runs something only after a
    successful merge with [syncLocal] enabled. *)
Lemma mergeBranch_sync_suffix o h :
  let root := workspaceRoot o in
  let quiet := mergeBranch P W (withSyncLocal false o) h in
  let run := mergeBranch P W o h in
  run.1 = quiet.1
  /\ exists tSync,
       run.2 = (quiet.2 ++ tSync)%list
       /\ (tSync <> [] ->
           nullish (syncLocal o) true = true /\
           exists r, run.1 = Returned r /\ success r = true)
       /\ forall r,
            run.1 = Returned r -> success r = true ->
            nullish (syncLocal o) true = true ->
            exists isLocalOnly target hash,
              (resolveLocalOnly W o h).1 = Returned isLocalOnly
              /\ (resolveTargetBranch W o
                    (h ++ (resolveLocalOnly W o h).2)%list).1
                 = Returned target
              /\ commitHash r = Some hash
              /\ tSync
                 = if isLocalOnly
                   then expectedLocalSync W root target hash (h ++ quiet.2)
                   else if nullish (autoPush o) true
                        then expectedRemoteSync W root target (h ++ quiet.2)
                        else [].
Proof.
  cbv zeta.
  destruct (mergeBranch_run P W o h)
    as (isLocalOnly & target & tLocal & tTarget & Hlocal & Htarget & Hrest).
  destruct (mergeBranch_run P W (withSyncLocal false o) h)
    as (isLocalOnly' & target' & tLocal' & tTarget' & Hlocal' & Htarget'
        & Hrest').
  change (resolveLocalOnly W (withSyncLocal false o) h)
    with (resolveLocalOnly W o h) in Hlocal'.
  rewrite Hlocal in Hlocal'. injection Hlocal' as <- <-.
  change (resolveTargetBranch W (withSyncLocal false o) (h ++ tLocal)%list)
    with (resolveTargetBranch W o (h ++ tLocal)%list) in Htarget'.
  rewrite Htarget in Htarget'. injection Htarget' as <- <-.
  cbv zeta in Hrest, Hrest'.
  cbn [withSyncLocal workspaceRoot sourceBranch targetBranch mergeStrategy
       autoPush commitMessage preflight syncLocal localOnly] in Hrest'.
  destruct Hrest as (_ & Hfail & Hgo). destruct Hrest' as (_ & Hfail' & Hgo').
  rewrite Hlocal. simpl. rewrite Htarget. simpl.
  set (fetching := git W (h ++ tLocal ++ tTarget)%list (workspaceRoot o)
                     (commandLine FetchOrigin)) in *.
  assert (Hcases : (isLocalOnly = false /\ exists e, fetching = Rejected e)
                   \/ (isLocalOnly = false -> exists out,
                         fetching = Resolved out)).
  { destruct isLocalOnly; [right; discriminate|].
    destruct fetching as [out|e]; [right; eauto|left; eauto]. }
  destruct Hcases as [[Hremote [e Hfetch]]|Hok].
  { rewrite (Hfail e Hremote Hfetch), (Hfail' e Hremote Hfetch). simpl.
    split; [reflexivity|]. exists []. rewrite app_nil_r.
    split; [reflexivity|]. split; [congruence|discriminate]. }
  destruct (Hgo Hok) as (rejected & tPre & Hpre & Hrun).
  destruct (Hgo' Hok) as (rejected' & tPre' & Hpre' & Hrun').
  rewrite Hpre in Hpre'. injection Hpre' as <- <-.
  rewrite Hrun, Hrun'.
  destruct rejected as [result|].
  { simpl. split; [reflexivity|]. exists []. rewrite app_nil_r.
    split; [reflexivity|]. split; [congruence|]. intros r [= <-] Hsuccess.
    apply preflight_verdict_fails in Hpre. congruence. }
  set (tFetch := if isLocalOnly then [] else _) in *.
  destruct (worktreeMerge_sync o isLocalOnly target
              (h ++ (tLocal ++ tTarget) ++ tFetch ++ tPre)%list)
    as (Hsame & tSync & Htrace & Hsome & Hsync).
  cbv zeta in Hsame, Htrace, Hsome, Hsync.
  destruct (worktreeMerge P W o isLocalOnly target _) as [r t].
  destruct (worktreeMerge P W (withSyncLocal false o) isLocalOnly target _)
    as [r' t'].
  simpl in *. subst r' t. split; [reflexivity|].
  exists tSync. split; [now rewrite <- ?app_assoc|].
  split; [exact Hsome|].
  intros r0 -> Hsuccess Hsyncs.
  destruct (Hsync r0 eq_refl) as (Hhash & Hstep).
  destruct (Hhash Hsuccess) as [hash Hcommit].
  exists isLocalOnly, target, hash.
  split; [reflexivity|]. split; [reflexivity|]. split; [exact Hcommit|].
  unfold syncStep in Hstep. rewrite Hsuccess, Hsyncs, Hcommit in Hstep.
  simpl in Hstep. rewrite <- ?app_assoc in *.
  destruct isLocalOnly.
  - rewrite syncLocalBranchFromCommit_run in Hstep. now injection Hstep.
  - destruct (nullish (autoPush o) true).
    + rewrite syncLocalBranch_run in Hstep. now injection Hstep.
    + now injection Hstep.
Qed.

(** C7, as amended.  The local sync is the last step of a call and never
    changes its outcome: with [syncLocal] disabled the call completes the
    same way, and the events of the call are those of that quiet call
    followed by the events of the sync.  The workspace counts as being on
    the target branch when what [git symbolic-ref --short HEAD] prints is,
    once trimmed as [String.prototype.trim] trims it (of Unicode white space
    too), the target branch; it counts as detached when that command fails
    or prints white space only.  After a successful merge with [syncLocal]
    enabled the events of the sync are: in local-only mode, reading the
    current branch, then [git merge --ff-only <commit>] in place when the
    workspace is on the target branch and [git branch -f <target> <commit>]
    otherwise; with a remote and [autoPush] enabled, reading the current
    branch, then nothing more than a warning on a detached HEAD,
    [git merge --ff-only origin/<target>] in place on the target branch, and
    [git fetch origin <target>:<target>] (the ref only) otherwise; with a
    remote and [autoPush] disabled, nothing.  A failing sync command adds
    one warning and nothing else. *)
Theorem mergeBranch_sync o h :
  let root := workspaceRoot o in
  let quiet := mergeBranch P W (withSyncLocal false o) h in
  let run := mergeBranch P W o h in
  run.1 = quiet.1
  /\ exists tSync,
       run.2 = (quiet.2 ++ tSync)%list
       /\ forall r,
            run.1 = Returned r -> success r = true ->
            nullish (syncLocal o) true = true ->
            exists isLocalOnly target hash,
              (resolveLocalOnly W o h).1 = Returned isLocalOnly
              /\ (resolveTargetBranch W o
                    (h ++ (resolveLocalOnly W o h).2)%list).1
                 = Returned target
              /\ commitHash r = Some hash
              /\ tSync
                 = if isLocalOnly
                   then expectedLocalSync W root target hash (h ++ quiet.2)
                   else if nullish (autoPush o) true
                        then expectedRemoteSync W root target (h ++ quiet.2)
                        else [].
Proof.
  cbv zeta.
  destruct (mergeBranch_sync_suffix o h) as (Hsame & tSync & Htrace & _ & Hsync).
  split; [exact Hsame|]. exists tSync. split; [exact Htrace|exact Hsync].
Qed.

(** C1, as amended.  In every [mergeBranch] call, every merge-phase git
    command (merge, commit, rev-parse, push, reset or abort) is executed
    through [execGitSafe], in a working directory that does not resolve to
    the workspace root; [execGitSafe] throws, running nothing, whenever the
    resolved worktree path equals the resolved workspace root; and the only
    command changing a checkout that a call runs in the main workspace root
    is the fast-forward-only merge of the local sync step, which runs only
    after a successful merge and only when [syncLocal] is enabled. *)
Theorem mergeBranch_merges_in_worktree o h :
  (forall c worktreePath h',
     path_resolve P worktreePath = path_resolve P (workspaceRoot o) ->
     execGitSafe P W c worktreePath (workspaceRoot o) h'
     = (Threw (safetyError c), []))
  /\ Forall
       (fun ev =>
          match ev with
          | Exec via cwd c _ =>
              (mergePhase c = true ->
               via = Safe /\
               path_resolve P cwd <> path_resolve P (workspaceRoot o))
              /\ (mutatesMainCheckout P (workspaceRoot o) ev = true ->
                  via = Raw /\ cwd = workspaceRoot o /\
                  (exists ref, c = MergeFfOnly ref) /\
                  nullish (syncLocal o) true = true /\
                  exists r,
                    (mergeBranch P W o h).1 = Returned r /\ success r = true)
          | Warn _ => True
          end)
       (mergeBranch P W o h).2.
Proof.
  split.
  - intros c worktreePath h' Heq. unfold execGitSafe.
    rewrite Heq, String.eqb_refl. reflexivity.
  - apply List.Forall_forall. intros ev Hin.
    pose proof (mergeBranch_Tame P W o h) as Htame.
    rewrite List.Forall_forall in Htame. specialize (Htame ev Hin).
    destruct ev as [[|] cwd c res|msg]; simpl in *; [| |trivial].
    + destruct Htame as (-> & Hstage & Hphase). split; [congruence|].
      intros Hmut. apply andb_prop in Hmut as [Hmut _].
      assert (Hff : exists ref, c = MergeFfOnly ref).
      { unfold mergePhase in Hphase.
        destruct c; simpl in *; try discriminate. eauto. }
      destruct Hff as [ref ->].
      destruct (mergeBranch_sync_suffix o h)
        as (_ & tSync & Htrace & Hsome & _).
      cbv zeta in Htrace, Hsome.
      assert (Hsync : tSync <> []).
      { intros ->. rewrite app_nil_r in Htrace. rewrite Htrace in Hin.
        pose proof (mergeBranch_Tame P W (withSyncLocal false o) h) as Hq.
        pose proof (Tame_In_stage _ _ _ _ _ _ _ Hq Hin) as Hst.
        discriminate Hst. }
      destruct (Hsome Hsync) as (Hsyncs & r & Hrun & Hsuccess).
      repeat split; eauto.
    + destruct Htame as (Hne & _ & Hphase). split; [auto|].
      intros Hmut. apply andb_prop in Hmut as [_ Heq].
      now apply String.eqb_eq in Heq.
Qed.

End MergeClaims.

(** ** The claims on the example repositories *)

Section MergeRuns.

Import Js GitMerge Scenario.

(** Finds a given event in a run that has been computed. *)
Ltac find_event := vm_compute; repeat (first [left; reflexivity | right]).

(** C5 on an example: the dry run of [feature/x] reports a conflict in
    [src/app.ts]; the call returns the rejection with that file and creates
    no worktree. *)
Lemma mergeBranch_preflight_witness :
  (mergeBranch posix (world conflictingRepo) defaults []).1
  = Returned (mkResult false None true
                (Some "Pre-flight: merge conflicts detected")
                (Some ["src/app.ts"]))
  /\ existsb createsWorktree
       (mergeBranch posix (world conflictingRepo) defaults []).2 = false.
Proof.
  apply (proj1 (mergeBranch_preflight posix (world conflictingRepo)
                  defaults [])
           Raw "/repo" "0a1b2c" "origin/main" "feature/x"
           (conflictingRepo "/repo"
              "git merge-tree 0a1b2c origin/main feature/x")
           ("--- a/src/app.ts" ++ lf ++ "+++ b/src/app.ts" ++ lf
            ++ "<<<<<<< .our" ++ lf)).
  - find_event.
  - reflexivity.
  - reflexivity.
Defined.

(** C7, as stated, fails.  With a remote and [autoPush: false], a
    successful call with [syncLocal: true] runs no sync command at all; and
    on a detached HEAD (the workspace is not on the target branch) a
    successful default call reads the current branch and then updates
    neither the working tree nor the branch ref. *)
Lemma mergeBranch_leaves_local_branch :
  (mergeBranch posix (world cloneRepo) noPush []).1
  = Returned (mkResult true (Some "abc123") false None None)
  /\ syncLocal noPush = Some true
  /\ existsb (atStage Syncing)
       (mergeBranch posix (world cloneRepo) noPush []).2 = false
  /\ (mergeBranch posix (world detachedRepo) defaults []).1
     = Returned (mkResult true (Some "abc123") false None None)
  /\ existsb updatesLocalBranch
       (mergeBranch posix (world detachedRepo) defaults []).2 = false.
Proof. vm_compute. repeat split. Qed.

End MergeRuns.

(** ** Diagnostics: stuck tasks *)

Section DiagnosticsFacts.

Import Js Diagnostics.

Context {Metadata Session : Type}.
Context (getOrchestratorTaskMeta : Metadata -> option OrchestratorTaskMeta).

Implicit Types (services : @Services Metadata Session)
  (task : @Task Metadata).

(** The loop appends, task by task, the entries of the stuck ones. *)
Lemma stuckLoop_app services (tasks : list (@Task Metadata)) acc :
  stuckLoop getOrchestratorTaskMeta services tasks acc
  = (acc ++ omap (stuckEntry getOrchestratorTaskMeta services) tasks)%list.
Proof.
  revert acc. induction tasks as [|task rest IH]; intros acc; simpl.
  - now rewrite app_nil_r.
  - destruct (stuckEntry getOrchestratorTaskMeta services task) as [d|].
    + rewrite IH. now rewrite <- app_assoc.
    + apply IH.
Qed.

Lemma isCandidate_spec task :
  isCandidate task = true <->
  status task = IN_PROGRESS \/ status task = REVIEW.
Proof.
  unfold isCandidate. rewrite orb_true_iff, !String.eqb_eq. reflexivity.
Qed.

(** The loop body pushes an entry for a candidate exactly when an agent is
    assigned, the resume count is at least two and the agent has no active
    session; the entry is the task's report. *)
Lemma stuckEntry_Some services task d :
  stuckEntry getOrchestratorTaskMeta services task = Some d <->
  (exists meta agent,
     getOrchestratorTaskMeta (metadata task) = Some meta /\
     assignedAgent meta = Some agent /\ agent <> ""%string /\
     2 <= nullish (resumeCount meta) 0 /\
     getActiveSession services agent = None)
  /\ reportOf getOrchestratorTaskMeta task d.
Proof.
  unfold stuckEntry, reportOf.
  destruct (getOrchestratorTaskMeta (metadata task)) as [meta|].
  2: { split; [discriminate|]. now intros [(meta & _ & [=] & _) _]. }
  destruct (assignedAgent meta) as [agent|] eqn:Hagent.
  2: { split; [discriminate|].
       intros [(meta' & agent & [= <-] & Ha & _) _]. congruence. }
  destruct (String.eqb_spec agent "") as [->|Hne]; simpl.
  { split; [discriminate|].
    intros [(meta' & agent & [= <-] & Ha & Hne & _) _]. congruence. }
  destruct (Z.geb_spec (nullish (resumeCount meta) 0) 2) as [Hge|Hlt].
  2: { split; [discriminate|].
       intros [(meta' & agent' & [= <-] & Ha & _ & Hcount & _) _]. lia. }
  destruct (getActiveSession services agent) as [session|] eqn:Hsession.
  { split; [discriminate|].
    intros [(meta' & agent' & [= <-] & Ha & _ & _ & Hnone) _]. congruence. }
  split.
  - intros [= <-]. split.
    + exists meta, agent. repeat split; auto; try lia.
    + exists meta. now rewrite Hagent.
  - intros [_ (meta' & [= <-] & ->)]. now rewrite Hagent.
Qed.

(** C8.  The diagnostics read model reports a task as stuck exactly when
    its status is [in_progress] or [review], it has an assigned agent, its
    resume count is at least 2 and the session manager reports no active
    session for that agent.  The stuck tasks are reported once each, in the
    order of the task list, as entries of the response: [collectStuckTasks]
    computes this list from what it reads and does nothing else. *)
Theorem collectStuckTasks_exact services :
  collectStuckTasks getOrchestratorTaskMeta services
  = omap (stuckEntry getOrchestratorTaskMeta services)
      (List.filter isCandidate (apiList services))
  /\ forall d,
       In d (collectStuckTasks getOrchestratorTaskMeta services) <->
       exists task,
         In task (apiList services) /\
         Stuck getOrchestratorTaskMeta services task /\
         reportOf getOrchestratorTaskMeta task d.
Proof.
  assert (Heq : collectStuckTasks getOrchestratorTaskMeta services
                = omap (stuckEntry getOrchestratorTaskMeta services)
                    (List.filter isCandidate (apiList services))).
  { unfold collectStuckTasks. now rewrite stuckLoop_app. }
  split; [exact Heq|]. intros d. rewrite Heq.
  rewrite <- list_elem_of_In, list_elem_of_omap. split.
  - intros (task & Hin & Hentry).
    apply list_elem_of_In, filter_In in Hin as [Hin Hcand].
    apply stuckEntry_Some in Hentry as [Hmeta Hreport].
    exists task. split; [exact Hin|]. split; [|exact Hreport].
    split; [now apply isCandidate_spec|exact Hmeta].
  - intros (task & Hin & [Hstatus Hmeta] & Hreport).
    exists task. split.
    + apply list_elem_of_In, filter_In. split; [exact Hin|].
      now apply isCandidate_spec.
    + apply stuckEntry_Some. now split.
Qed.

End DiagnosticsFacts.

(** ** The rate-limit guard of the session endpoints *)

Section GuardFacts.

Import RateLimit SessionRoutes.

(** One live limit: every executable of the one-element chain is limited,
    and its reset time is the soonest. *)
Lemma statusOf_single exe reset recorded now :
  now < reset ->
  statusOf [exe] now (markLimited exe reset recorded ∅)
  = mkStatus true (Some reset).
Proof.
  intros Hlive. unfold statusOf, markLimited.
  rewrite lookup_empty, insert_empty.
  unfold isAllLimited, everyLimited, isLimited.
  rewrite lookup_singleton_eq. simpl.
  destruct (Z.leb_spec reset now) as [Hle|_]; [lia|].
  unfold getSoonestResetTime, expireStale.
  rewrite map_filter_singleton. simpl.
  destruct (Z.leb_spec reset now) as [Hle|_]; [lia|]. simpl.
  now rewrite map_to_list_singleton.
Qed.

(** The seconds of [Retry-After]: at least one, 60 when no reset time is
    known, and at most any whole number of seconds, one or more, that
    covers the time remaining until the reset. *)
Lemma retryAfterSeconds_bounds now soonest :
  1 <= retryAfterSeconds now soonest
  /\ (soonest = None -> retryAfterSeconds now soonest = 60)
  /\ (forall reset k,
        soonest = Some reset -> 1 <= k -> reset - now <= 1000 * k ->
        retryAfterSeconds now soonest <= k).
Proof.
  unfold retryAfterSeconds. split; [|split].
  - destruct soonest; lia.
  - now intros ->.
  - intros reset k -> Hk Hleft.
    assert (- k <= (now - reset) / 1000).
    { apply Z.div_le_lower_bound; lia. }
    lia.
Qed.

(** C6.  When all configured executables are rate-limited, the guard of the
    session start and resume endpoints answers HTTP 429 with a [Retry-After]
    header and a JSON body whose [error.code] is [RATE_LIMITED] and which
    carries [retryAfter] (the header's value) and [soonestReset].  The
    header is at least 1 second and at most the time remaining until
    [soonestReset], counted in whole seconds, and exactly 60 when no reset
    time is known.  When not all executables are limited, or when there is
    no dispatch daemon to ask, the guard lets the start or resume proceed.
    In the scenario of the spec, a tracker on which [claude] was marked
    limited for 30 seconds makes the guard answer 429 with a [Retry-After]
    between 1 and 30 for as long as the limit lasts. *)
Theorem rateLimitGuard_rejects now :
  (forall st,
     allLimited st = true ->
     exists secs msg,
       rateLimitGuard (Some st) now
       = Reject 429 secs
           (mkBody "RATE_LIMITED" msg secs (soonestReset st))
       /\ 1 <= secs
       /\ (soonestReset st = None -> secs = 60)
       /\ (forall reset k,
             soonestReset st = Some reset -> 1 <= k ->
             reset - now <= 1000 * k -> secs <= k))
  /\ (forall st, allLimited st = false -> rateLimitGuard (Some st) now = Proceed)
  /\ rateLimitGuard None now = Proceed
  /\ (forall marked,
        marked <= now < marked + 30000 ->
        exists secs body,
          rateLimitGuard
            (Some (statusOf ["claude"%string] now
                     (markLimited "claude" (marked + 30000) marked ∅)))
            now
          = Reject 429 secs body
          /\ 1 <= secs <= 30).
Proof.
  split; [|split; [|split]].
  - intros st Hall. unfold rateLimitGuard. rewrite Hall.
    eexists _, _. split; [reflexivity|].
    apply retryAfterSeconds_bounds.
  - intros st Hall. unfold rateLimitGuard. now rewrite Hall.
  - reflexivity.
  - intros marked Hnow. rewrite statusOf_single by lia.
    unfold rateLimitGuard. simpl. eexists _, _. split; [reflexivity|].
    destruct (retryAfterSeconds_bounds now (Some (marked + 30000)))
      as (Hmin & _ & Hmax).
    split; [exact Hmin|]. apply (Hmax (marked + 30000)); [reflexivity|lia|lia].
Qed.

End GuardFacts.

(** ** The unit tests of the repository, replayed on the model *)

Section Tests.

Import Js Scenario.

(** rate-limit-tracker tests: 'returns first non-limited executable in
    chain', 'returns first executable when none are limited', 'returns
    undefined for empty fallback chain', 'returns false for empty fallback
    chain', and the auto-expiry of a past reset time. *)
Example tracker_tests :
  (RateLimit.getAvailableExecutable ["claude"; "gpt-4"; "gemini"] 2000
     claudeLimited).1 = Some "gpt-4"
  /\ (RateLimit.getAvailableExecutable ["claude"; "gpt-4"; "gemini"] 2000
        RateLimit.empty).1 = Some "claude"
  /\ (RateLimit.getAvailableExecutable [] 2000 claudeLimited).1 = None
  /\ (RateLimit.isAllLimited [] 2000 claudeLimited).1 = false
  /\ (RateLimit.isAllLimited ["claude"] 2000 claudeLimited).1 = true
  /\ (RateLimit.isLimited "claude" 61000 claudeLimited).1 = false
  /\ (RateLimit.getSoonestResetTime 2000 claudeLimited).1 = Some 61000
  /\ (RateLimit.getSoonestResetTime 61000 claudeLimited).1 = None.
Proof. vm_compute. repeat split. Qed.

(** 'updating with a later resetsAt extends the limit' and 'updating with
    an earlier resetsAt does not downgrade'. *)
Example tracker_update_tests :
  RateLimit.effectiveReset
    (RateLimit.markLimited "claude" 121000 1001
       (RateLimit.markLimited "claude" 31000 1000 RateLimit.empty)) "claude"
  = Some 121000
  /\ RateLimit.effectiveReset
       (RateLimit.markLimited "claude" 31000 1001
          (RateLimit.markLimited "claude" 121000 1000 RateLimit.empty))
       "claude"
     = Some 121000.
Proof. vm_compute. repeat split. Qed.

(** diagnostics tests: 'identifies stuck tasks with high resume count and no
    active session', 'does not flag tasks with low resume count', 'does not
    flag tasks with active sessions'. *)
Example diagnostics_tests :
  Diagnostics.collectStuckTasks metaOf idleServices
  = [Diagnostics.mkStuck "el-stuck1" "Stuck task" "in_progress"
       (Some "el-worker1") 3 None]
  /\ Diagnostics.collectStuckTasks metaOf busyServices = [].
Proof. vm_compute. repeat split. Qed.

(** sessions.rate-limit tests: 429 with a [Retry-After] of at most 30 for a
    reset 30 s ahead, the default of 60, and a start that proceeds. *)
Example guard_tests :
  SessionRoutes.rateLimitGuard
    (Some (SessionRoutes.mkStatus true (Some 30500))) 700
  = SessionRoutes.Reject 429 30
      (SessionRoutes.mkBody "RATE_LIMITED"
         "All configured executables are rate-limited" 30 (Some 30500))
  /\ SessionRoutes.retryAfterSeconds 700 None = 60
  /\ SessionRoutes.rateLimitGuard
       (Some (SessionRoutes.mkStatus false None)) 700
     = SessionRoutes.Proceed.
Proof. vm_compute. repeat split. Qed.

(** A squash merge that stops on a conflict is reported as one, with its
    file; the worktree is reset and removed, and nothing runs in the
    workspace root afterwards. *)
Example conflict_run :
  (GitMerge.mergeBranch posix (world squashConflictRepo) defaults []).1
  = GitMerge.Returned
      (GitMerge.mkResult false None true (Some "Merge conflict detected")
         (Some ["src/app.ts"]))
  /\ existsb (GitMerge.mutatesMainCheckout posix "/repo")
       (GitMerge.mergeBranch posix (world squashConflictRepo) defaults []).2
     = false.
Proof. vm_compute. repeat split. Qed.

End Tests.

(** ** The theorems at work on the examples *)

Section Witnesses.

Import Js GitMerge Scenario.

Ltac in_run := vm_compute; repeat (first [left; reflexivity | right]).

(** C1 on an example: the fast-forward in the workspace root comes after a
    successful merge. *)
Lemma mergeBranch_merges_in_worktree_witness :
  exists r,
    (mergeBranch posix (world cloneRepo) defaults []).1 = Returned r
    /\ success r = true.
Proof.
  pose proof (proj2 (mergeBranch_merges_in_worktree posix (world cloneRepo)
                       defaults [])) as Hall.
  rewrite List.Forall_forall in Hall.
  specialize (Hall (Exec Raw "/repo" (MergeFfOnly "origin/main") (ok ""))).
  destruct Hall as [_ Hmut]; [in_run|].
  destruct Hmut as (_ & _ & _ & _ & Hr); [reflexivity|]. exact Hr.
Defined.

(** C7 on an example: on the clone, checked out on [main], the sync reads
    the current branch and fast-forwards in place. *)
Lemma mergeBranch_sync_witness :
  exists tSync,
    (mergeBranch posix (world cloneRepo) defaults []).2
    = ((mergeBranch posix (world cloneRepo) noSync []).2 ++ tSync)%list
    /\ tSync
       = [Exec Raw "/repo" SymbolicRefShortHead (ok ("main" ++ lf));
          Exec Raw "/repo" (MergeFfOnly "origin/main") (ok "")].
Proof.
  destruct (mergeBranch_sync posix (world cloneRepo) defaults [])
    as (_ & tSync & Htrace & Hsync).
  exists tSync. split; [exact Htrace|].
  destruct (Hsync (mkResult true (Some "abc123") false None None))
    as (isLocalOnly & target & hash & Hlocal & Htarget & Hhash & ->);
    [vm_compute; reflexivity|reflexivity|reflexivity|].
  vm_compute in Hlocal, Htarget, Hhash.
  injection Hlocal as <-. injection Htarget as <-. injection Hhash as <-.
  vm_compute. reflexivity.
Defined.

(** C8 on an example: the stuck task of the test is reported. *)
Lemma collectStuckTasks_exact_witness :
  In (Diagnostics.mkStuck "el-stuck1" "Stuck task" "in_progress"
        (Some "el-worker1") 3 None)
    (Diagnostics.collectStuckTasks metaOf idleServices).
Proof.
  apply (proj2 (collectStuckTasks_exact metaOf idleServices)).
  exists stuckTask. split; [right; left; reflexivity|]. split.
  - split; [left; reflexivity|].
    exists (Diagnostics.mkMeta (Some "el-worker1") (Some 3) None),
      "el-worker1"%string.
    repeat split; try reflexivity; [discriminate|vm_compute; discriminate].
  - exists (Diagnostics.mkMeta (Some "el-worker1") (Some 3) None).
    split; reflexivity.
Defined.

(** C6 on an example: 12 seconds after [claude] was marked limited for 30
    seconds, the guard answers 429 with a [Retry-After] between 1 and 30. *)
Lemma rateLimitGuard_rejects_witness :
  exists secs body,
    SessionRoutes.rateLimitGuard
      (Some (SessionRoutes.statusOf ["claude"%string] 13000
               (RateLimit.markLimited "claude" (1000 + 30000) 1000 ∅)))
      13000
    = SessionRoutes.Reject 429 secs body
    /\ 1 <= secs <= 30.
Proof.
  apply (proj2 (proj2 (proj2 (rateLimitGuard_rejects 13000))) 1000). lia.
Defined.

End Witnesses.

(** ** The tracker: what its reads answer and what they change *)

Section TrackerFacts.

Import RateLimit RateLimitViews.

Implicit Types (limits : gmap string InternalEntry) (exe : string).

(** [expireStale] keeps exactly the entries that are still live. *)
Lemma expireStale_lookup now limits exe :
  expireStale now limits !! exe
  = if limitedAt limits now exe then limits !! exe else None.
Proof.
  unfold expireStale, limitedAt. apply option_eq. intros e.
  rewrite map_lookup_filter_Some. simpl. split.
  - intros [Hlook Hlive]. rewrite Hlook. now rewrite Hlive.
  - intros Hsome. destruct (limits !! exe) as [entry|]; [|discriminate].
    destruct (resetsAt entry <=? now) eqn:Hstale; simpl in Hsome;
      [discriminate|].
    injection Hsome as <-. split; [reflexivity|]. now rewrite Hstale.
Qed.

Lemma limitedAt_effectiveReset limits now exe :
  limitedAt limits now exe
  = match effectiveReset limits exe with
    | Some reset => now <? reset
    | None => false
    end.
Proof.
  unfold limitedAt, effectiveReset.
  destruct (limits !! exe) as [entry|]; simpl; [|reflexivity].
  destruct (Z.leb_spec (resetsAt entry) now), (Z.ltb_spec now (resetsAt entry));
    simpl; trivial; lia.
Qed.

(** [every] over [isLimited] answers whether every executable of the chain
    is limited. *)
Lemma everyLimited_result chain now limits :
  (everyLimited chain now limits).1 = forallb (limitedAt limits now) chain.
Proof.
  revert limits. induction chain as [|x rest IH]; intros limits; [reflexivity|].
  simpl. rewrite <- isLimited_result.
  destruct (isLimited x now limits) as [limited limits'] eqn:Hx. simpl.
  destruct limited; [|reflexivity]. rewrite IH. clear IH.
  induction rest as [|y rest IH]; [reflexivity|]. simpl.
  pose proof (isLimited_preserves x y now limits) as Hkeep.
  rewrite Hx in Hkeep. simpl in Hkeep. now rewrite Hkeep, IH.
Qed.

Lemma expiredOnly_refl now limits : expiredOnly now limits limits.
Proof. intros exe. now left. Qed.

Lemma expiredOnly_trans now l1 l2 l3 :
  expiredOnly now l1 l2 -> expiredOnly now l2 l3 -> expiredOnly now l1 l3.
Proof.
  intros H12 H23 exe. destruct (H23 exe) as [H|[H (e & He & Hle)]].
  - rewrite H. apply H12.
  - right. split; [exact H|]. destruct (H12 exe) as [H'|[H' _]].
    + exists e. now rewrite <- H'.
    + congruence.
Qed.

Lemma isLimited_expiredOnly exe now limits :
  expiredOnly now limits (isLimited exe now limits).2.
Proof.
  unfold isLimited. destruct (limits !! exe) as [entry|] eqn:Hlook;
    [|apply expiredOnly_refl].
  destruct (Z.leb_spec (resetsAt entry) now); [|apply expiredOnly_refl].
  simpl. intros exe'. destruct (decide (exe = exe')) as [<-|Hne].
  - right. rewrite lookup_delete_eq. split; [reflexivity|]. now exists entry.
  - left. now rewrite lookup_delete_ne.
Qed.

Lemma getAvailableExecutable_expiredOnly chain now limits :
  expiredOnly now limits (getAvailableExecutable chain now limits).2.
Proof.
  revert limits. induction chain as [|x rest IH]; intros limits;
    [apply expiredOnly_refl|].
  simpl. pose proof (isLimited_expiredOnly x now limits) as Hx.
  destruct (isLimited x now limits) as [limited limits']. simpl in Hx.
  destruct limited; simpl; [|exact Hx].
  eapply expiredOnly_trans; [exact Hx|apply IH].
Qed.

Lemma everyLimited_expiredOnly chain now limits :
  expiredOnly now limits (everyLimited chain now limits).2.
Proof.
  revert limits. induction chain as [|x rest IH]; intros limits;
    [apply expiredOnly_refl|].
  simpl. pose proof (isLimited_expiredOnly x now limits) as Hx.
  destruct (isLimited x now limits) as [limited limits']. simpl in Hx.
  destruct limited; simpl; [|exact Hx].
  eapply expiredOnly_trans; [exact Hx|apply IH].
Qed.

Lemma expireStale_expiredOnly now limits :
  expiredOnly now limits (expireStale now limits).
Proof.
  intros exe. rewrite expireStale_lookup. unfold limitedAt.
  destruct (limits !! exe) as [entry|]; [|now left].
  destruct (Z.leb_spec (resetsAt entry) now); simpl; [|now left].
  right. split; [reflexivity|]. now exists entry.
Qed.

(** What [expiredOnly] gives an observer: the same answer about every
    executable, now and at every later clock reading. *)
Lemma expiredOnly_limitedAt now limits limits' :
  expiredOnly now limits limits' ->
  forall exe later, now <= later ->
    limitedAt limits' later exe = limitedAt limits later exe.
Proof.
  intros Hexp exe later Hlater. unfold limitedAt.
  destruct (Hexp exe) as [->|[-> (entry & -> & Hstale)]]; [reflexivity|].
  destruct (Z.leb_spec (resetsAt entry) later); [reflexivity|lia].
Qed.

(** X1.  After [markLimited(exe, t)], [isLimited(exe)] answers [true] at
    the clock reading [now] exactly when [now] is before [t] or the
    executable was already limited at [now]: marking never shortens a limit
    and never lifts one.  The answers about the other executables are
    unchanged. *)
Theorem markLimited_then_isLimited exe t recorded now limits :
  (isLimited exe now (markLimited exe t recorded limits)).1
  = (now <? t) || limitedAt limits now exe
  /\ forall exe',
       exe' <> exe ->
       (isLimited exe' now (markLimited exe t recorded limits)).1
       = (isLimited exe' now limits).1.
Proof.
  split.
  - rewrite isLimited_result, !limitedAt_effectiveReset,
      effectiveReset_markLimited.
    destruct (effectiveReset limits exe) as [t0|].
    + destruct (Z.ltb_spec now (Z.max t0 t)), (Z.ltb_spec now t),
        (Z.ltb_spec now t0); simpl; trivial; lia.
    + now rewrite orb_false_r.
  - intros exe' Hne. rewrite !isLimited_result. unfold limitedAt.
    now rewrite markLimited_other by congruence.
Qed.

(** The answer of [isAllLimited]: [false] for an empty chain, and otherwise
    whether every executable of the chain is limited. *)
Lemma isAllLimited_result chain now limits :
  (isAllLimited chain now limits).1
  = match chain with
    | [] => false
    | _ => forallb (limitedAt limits now) chain
    end.
Proof.
  destruct chain as [|x rest]; [reflexivity|].
  unfold isAllLimited. apply everyLimited_result.
Qed.

(** X2.  [isAllLimited(chain)] is [true] exactly when the chain is not
    empty and every executable in it is limited.  For a non-empty chain this
    is the case exactly when [getAvailableExecutable(chain)] finds nothing;
    for the empty chain the two disagree: nothing is available, and yet
    [isAllLimited] answers [false]. *)
Theorem isAllLimited_every chain now limits :
  ((isAllLimited chain now limits).1 = true <->
   chain <> [] /\ Forall (fun exe => limitedAt limits now exe = true) chain)
  /\ (chain <> [] ->
      ((isAllLimited chain now limits).1 = true <->
       (getAvailableExecutable chain now limits).1 = None))
  /\ (isAllLimited [] now limits).1 = false
  /\ (getAvailableExecutable [] now limits).1 = None.
Proof.
  rewrite isAllLimited_result, getAvailableExecutable_None.
  split; [|split; [|split; reflexivity]].
  - destruct chain as [|x rest].
    + split; [discriminate|]. now intros [Hne _].
    + rewrite forallb_forall, List.Forall_forall. split.
      * intros Hall. split; [discriminate|exact Hall].
      * now intros [_ Hall].
  - intros Hne. destruct chain as [|x rest]; [congruence|].
    rewrite forallb_forall, List.Forall_forall. reflexivity.
Qed.

(** The loop of [getSoonestResetTime] computes a minimum. *)
Lemma soonest_fold entries init :
  match fold_left soonestStep entries init with
  | Some s =>
      (init = Some s \/ In s (resetsAt <$> entries))
      /\ (forall s0, init = Some s0 -> s <= s0)
      /\ Forall (fun entry => s <= resetsAt entry) entries
  | None => init = None /\ entries = []
  end.
Proof.
  revert init. induction entries as [|entry rest IH]; intros init; simpl.
  - destruct init as [s|]; [|now split].
    split; [now left|]. split; [|constructor]. intros s0 [= <-]. lia.
  - specialize (IH (soonestStep init entry)).
    destruct (fold_left soonestStep rest (soonestStep init entry)) as [s|].
    + destruct IH as (Hfrom & Hinit & Hrest).
      unfold soonestStep in Hfrom, Hinit.
      destruct init as [s0|].
      * destruct (Z.ltb_spec (resetsAt entry) s0) as [Hlt|Hge].
        -- specialize (Hinit _ eq_refl). split; [|split].
           ++ destruct Hfrom as [[= <-]|Hin]; [right; now left|].
              right. now right.
           ++ intros s1 [= <-]. lia.
           ++ constructor; [exact Hinit|exact Hrest].
        -- specialize (Hinit _ eq_refl). split; [|split].
           ++ destruct Hfrom as [[= <-]|Hin]; [now left|]. right. now right.
           ++ intros s1 [= <-]. exact Hinit.
           ++ constructor; [lia|exact Hrest].
      * specialize (Hinit _ eq_refl). split; [|split].
        -- destruct Hfrom as [[= <-]|Hin]; [right; now left|].
           right. now right.
        -- discriminate.
        -- constructor; [exact Hinit|exact Hrest].
    + destruct IH as [Hstep _]. unfold soonestStep in Hstep.
      destruct init as [s0|]; [destruct (_ <? _)|]; discriminate.
Qed.

(** What [getSoonestResetTime] returns: the earliest reset time among the
    executables that are limited, or nothing when none is. *)
Lemma getSoonestResetTime_result now limits :
  match (getSoonestResetTime now limits).1 with
  | Some soonest =>
      now < soonest
      /\ (exists exe,
            limitedAt limits now exe = true /\
            effectiveReset limits exe = Some soonest)
      /\ (forall exe reset,
            limitedAt limits now exe = true ->
            effectiveReset limits exe = Some reset -> soonest <= reset)
  | None => forall exe, limitedAt limits now exe = false
  end.
Proof.
  unfold getSoonestResetTime. simpl.
  pose proof (soonest_fold (snd <$> map_to_list (expireStale now limits)) None)
    as Hfold.
  assert (Hentry : forall entry,
            In entry (snd <$> map_to_list (expireStale now limits)) <->
            exists exe, limits !! exe = Some entry /\
                        limitedAt limits now exe = true).
  { intros entry. rewrite <- list_elem_of_In, list_elem_of_fmap. split.
    - intros ([exe e] & -> & Hin). apply elem_of_map_to_list in Hin.
      rewrite expireStale_lookup in Hin. exists exe. simpl.
      destruct (limitedAt limits now exe); [now split|discriminate].
    - intros (exe & Hlook & Hlive). exists (exe, entry). split; [reflexivity|].
      apply elem_of_map_to_list. now rewrite expireStale_lookup, Hlive. }
  destruct (fold_left soonestStep _ None) as [soonest|].
  - destruct Hfold as ([[=]|Hin] & _ & Hmin).
    rewrite <- list_elem_of_In, list_elem_of_fmap in Hin.
    destruct Hin as (entry & -> & Hin). apply list_elem_of_In, Hentry in Hin.
    destruct Hin as (exe & Hlook & Hlive). split; [|split].
    + unfold limitedAt in Hlive. rewrite Hlook in Hlive.
      destruct (Z.leb_spec (resetsAt entry) now); [discriminate|lia].
    + exists exe. split; [exact Hlive|]. unfold effectiveReset.
      now rewrite Hlook.
    + intros exe' reset Hlive' Hreset. unfold effectiveReset in Hreset.
      destruct (limits !! exe') as [entry'|] eqn:Hlook'; [|discriminate].
      injection Hreset as <-. rewrite List.Forall_forall in Hmin.
      apply Hmin, Hentry. now exists exe'.
  - destruct Hfold as [_ Hnil]. intros exe.
    destruct (limitedAt limits now exe) eqn:Hlive; [|reflexivity]. exfalso.
    assert (Hl := Hlive). unfold limitedAt in Hl.
    destruct (limits !! exe) as [entry|] eqn:Hlook; [|discriminate].
    assert (Hin : In entry (snd <$> map_to_list (expireStale now limits))).
    { apply Hentry. now exists exe. }
    rewrite Hnil in Hin. destruct Hin.
Qed.

(** X3.  [getSoonestResetTime()] returns the earliest reset time among the
    executables that are limited at [now]: it is in the future, it is the
    reset time of one of them, and none of them resets earlier.  It returns
    [undefined] exactly when no executable is limited; entries that have
    expired are never reported. *)
Theorem getSoonestResetTime_min now limits :
  (forall soonest,
     (getSoonestResetTime now limits).1 = Some soonest ->
     now < soonest
     /\ (exists exe,
           limitedAt limits now exe = true /\
           effectiveReset limits exe = Some soonest)
     /\ (forall exe reset,
           limitedAt limits now exe = true ->
           effectiveReset limits exe = Some reset -> soonest <= reset))
  /\ ((getSoonestResetTime now limits).1 = None <->
      forall exe, limitedAt limits now exe = false).
Proof.
  pose proof (getSoonestResetTime_result now limits) as Hres.
  destruct (getSoonestResetTime now limits).1 as [soonest|].
  - split.
    + now intros s [= <-].
    + split; [discriminate|]. intros Hnone.
      destruct Hres as (_ & (exe & Hlive & _) & _).
      rewrite Hnone in Hlive. discriminate.
  - split; [discriminate|]. split; [now intros _|reflexivity].
Qed.

(** X4.  [getAllLimits()] lists exactly the limits that are still live at
    [now]: an entry is listed if and only if the map holds an entry for its
    executable that resets after [now], and it carries that entry's reset
    and recording times.  No executable is listed twice, and the call
    leaves the map without its expired entries.  (The order of the list is
    not stated: a JavaScript [Map] iterates in insertion order, which the
    finite map of the model does not record.) *)
Theorem getAllLimits_live now limits :
  (forall entry,
     In entry (getAllLimits now limits).1 <->
     exists e,
       limits !! executable entry = Some e /\ now < resetsAt e /\
       entry = mkLimit (executable entry) (resetsAt e) (recordedAt e))
  /\ NoDup (executable <$> (getAllLimits now limits).1)
  /\ (getAllLimits now limits).2 = expireStale now limits.
Proof.
  unfold getAllLimits. simpl. split; [|split; [|reflexivity]].
  - intros entry. rewrite <- list_elem_of_In, list_elem_of_fmap. split.
    + intros ([exe e] & -> & Hin). apply elem_of_map_to_list in Hin.
      rewrite expireStale_lookup in Hin. simpl. exists e.
      destruct (limitedAt limits now exe) eqn:Hlive; [|discriminate].
      split; [exact Hin|]. split; [|reflexivity].
      unfold limitedAt in Hlive. rewrite Hin in Hlive.
      destruct (Z.leb_spec (resetsAt e) now); [discriminate|lia].
    + intros (e & Hlook & Hlive & Hentry).
      exists (executable entry, e). split; [exact Hentry|].
      apply elem_of_map_to_list. rewrite expireStale_lookup.
      unfold limitedAt. rewrite Hlook.
      destruct (Z.leb_spec (resetsAt e) now); [lia|reflexivity].
  - rewrite <- list_fmap_compose.
    replace (executable ∘ _) with (@fst string InternalEntry)
      by reflexivity.
    apply NoDup_fst_map_to_list.
Qed.

(** X5.  The reading methods ([isLimited], [getAvailableExecutable],
    [isAllLimited], [getSoonestResetTime], [getAllLimits]) change the map
    only by deleting entries whose reset time has passed; every other entry
    is kept as it is.  Hence a read never changes what the tracker answers
    about any executable, at the same or at any later clock reading. *)
Theorem reads_expire_only now limits :
  (forall exe, expiredOnly now limits (isLimited exe now limits).2)
  /\ (forall chain,
        expiredOnly now limits (getAvailableExecutable chain now limits).2)
  /\ (forall chain, expiredOnly now limits (isAllLimited chain now limits).2)
  /\ expiredOnly now limits (getSoonestResetTime now limits).2
  /\ expiredOnly now limits (getAllLimits now limits).2
  /\ (forall limits',
        expiredOnly now limits limits' ->
        forall exe later, now <= later ->
          limitedAt limits' later exe = limitedAt limits later exe).
Proof.
  repeat split.
  - intros exe. apply isLimited_expiredOnly.
  - intros chain. apply getAvailableExecutable_expiredOnly.
  - intros [|x rest]; [apply expiredOnly_refl|].
    unfold isAllLimited. apply everyLimited_expiredOnly.
  - apply expireStale_expiredOnly.
  - apply expireStale_expiredOnly.
  - apply expiredOnly_limitedAt.
Qed.

(** X6.  When [isAllLimited(chain)] has answered [true] at the clock
    reading [now], every executable of the chain has a reset time after
    [now], and a [getSoonestResetTime()] that follows on the same tracker,
    at a clock reading [later] that is [now] or after it, returns a time as
    long as an executable of the chain is still limited at [later], in
    particular at the same clock reading; the time is after [later], and no
    executable of the chain that is still limited at [later] resets before
    it.  It returns [undefined] only when every limit of the chain has
    expired by [later]. *)
Theorem isAllLimited_then_soonest chain now later limits :
  (isAllLimited chain now limits).1 = true ->
  now <= later ->
  let soonest :=
    (getSoonestResetTime later (isAllLimited chain now limits).2).1 in
  Forall (fun exe =>
            exists reset,
              effectiveReset limits exe = Some reset /\ now < reset) chain
  /\ (forall s,
        soonest = Some s ->
        later < s
        /\ Forall (fun exe =>
                     forall reset,
                       effectiveReset limits exe = Some reset ->
                       later < reset -> s <= reset) chain)
  /\ (soonest = None ->
      Forall (fun exe =>
                exists reset,
                  effectiveReset limits exe = Some reset /\ reset <= later)
        chain)
  /\ (Exists (fun exe => limitedAt limits later exe = true) chain ->
      exists s, soonest = Some s)
  /\ (later = now -> exists s, soonest = Some s).
Proof.
  intros Hall Hlater. cbv zeta.
  pose proof (isAllLimited_result chain now limits) as Hevery.
  rewrite Hall in Hevery.
  destruct chain as [|x rest]; [discriminate|]. symmetry in Hevery.
  rewrite forallb_forall in Hevery.
  assert (Hexp : expiredOnly now limits (isAllLimited (x :: rest) now limits).2).
  { apply everyLimited_expiredOnly. }
  set (limits' := (isAllLimited (x :: rest) now limits).2) in *.
  assert (Hlim : forall exe,
            limitedAt limits' later exe = limitedAt limits later exe).
  { intros exe. now apply (expiredOnly_limitedAt now). }
  assert (Hsame : forall exe,
            limitedAt limits later exe = true ->
            effectiveReset limits' exe = effectiveReset limits exe).
  { intros exe Hlive. unfold effectiveReset.
    destruct (Hexp exe) as [->|[_ (entry & Hlook & Hstale)]]; [reflexivity|].
    unfold limitedAt in Hlive. rewrite Hlook in Hlive.
    destruct (Z.leb_spec (resetsAt entry) later); [discriminate|lia]. }
  assert (Hresets : Forall (fun exe =>
                              exists reset,
                                effectiveReset limits exe = Some reset /\
                                now < reset) (x :: rest)).
  { apply List.Forall_forall. intros exe Hin.
    specialize (Hevery exe Hin). rewrite limitedAt_effectiveReset in Hevery.
    destruct (effectiveReset limits exe) as [reset|]; [|discriminate].
    exists reset. split; [reflexivity|]. now apply Z.ltb_lt. }
  assert (Hsome : Exists (fun exe => limitedAt limits later exe = true)
                    (x :: rest) ->
                  exists s, (getSoonestResetTime later limits').1 = Some s).
  { intros Hex. apply List.Exists_exists in Hex as (exe & _ & Hlive).
    pose proof (getSoonestResetTime_result later limits') as Hmin.
    destruct (getSoonestResetTime later limits').1 as [s|]; [now exists s|].
    specialize (Hmin exe). rewrite Hlim, Hlive in Hmin. discriminate. }
  pose proof (getSoonestResetTime_result later limits') as Hmin.
  split; [exact Hresets|]. split; [|split; [|split; [exact Hsome|]]].
  - intros s Hs. rewrite Hs in Hmin. destruct Hmin as (Hfuture & _ & Hleast).
    split; [exact Hfuture|]. apply List.Forall_forall.
    intros exe Hin reset Hreset Hlive.
    assert (Hl : limitedAt limits later exe = true).
    { rewrite limitedAt_effectiveReset, Hreset. now apply Z.ltb_lt. }
    apply (Hleast exe); [now rewrite Hlim|]. now rewrite Hsame.
  - intros Hnone. rewrite Hnone in Hmin. apply List.Forall_forall.
    intros exe Hin. rewrite List.Forall_forall in Hresets.
    destruct (Hresets exe Hin) as (reset & Hreset & _).
    exists reset. split; [exact Hreset|].
    specialize (Hmin exe). rewrite Hlim, limitedAt_effectiveReset, Hreset in Hmin.
    now apply Z.ltb_ge.
  - intros ->. apply Hsome. constructor. apply Hevery. now left.
Qed.

Lemma isAllLimited_then_soonest_witness :
  exists s,
    (getSoonestResetTime 3000
       (isAllLimited ["claude"%string] 2000 Scenario.claudeLimited).2).1
    = Some s
    /\ 3000 < s.
Proof.
  destruct (isAllLimited_then_soonest ["claude"%string] 2000 3000
              Scenario.claudeLimited)
    as (_ & Hsome & _ & Hex & _); [vm_compute; reflexivity|lia|].
  destruct Hex as [s Hs]; [constructor; vm_compute; reflexivity|].
  exists s. split; [exact Hs|]. now apply Hsome.
Defined.

End TrackerFacts.

(** ** POSIX paths: where the temporary worktree lies *)

Section PathFacts.

Import Js NodePath PathViews.

Open Scope string_scope.

Lemma splitSlash_nonempty s : splitSlash s <> [].
Proof.
  destruct s as [|c rest]; simpl; [discriminate|].
  destruct (Ascii.eqb c "/"); [discriminate|].
  destruct (splitSlash rest); discriminate.
Qed.

Lemma append_cons c s t : String c s ++ t = String c (s ++ t).
Proof. reflexivity. Qed.

Lemma append_nil_l t : "" ++ t = t.
Proof. reflexivity. Qed.

(** [(a + '/' + b).split('/')] is [a.split('/')] followed by
    [b.split('/')]. *)
Lemma splitSlash_app a b :
  splitSlash (a ++ "/" ++ b) = (splitSlash a ++ splitSlash b)%list.
Proof.
  induction a as [|c a IH].
  - reflexivity.
  - rewrite append_cons. cbn [splitSlash]. rewrite IH.
    destruct (Ascii.eqb c "/"); [reflexivity|].
    pose proof (splitSlash_nonempty a).
    now destruct (splitSlash a).
Qed.

Lemma splitSlash_noSlash s : noSlash s = true -> splitSlash s = [s].
Proof.
  induction s as [|c s IH]; [reflexivity|]. cbn [noSlash splitSlash].
  intros [Hc Hs]%andb_prop. apply negb_true_iff in Hc. rewrite Hc.
  now rewrite (IH Hs).
Qed.

Lemma splitSlash_slash_free s : Forall (fun seg => noSlash seg = true) (splitSlash s).
Proof.
  induction s as [|c s IH]; [repeat constructor|]. cbn [splitSlash].
  destruct (Ascii.eqb c "/") eqn:Hc; [now constructor|].
  destruct (splitSlash s) as [|seg segs]; [repeat constructor; simpl; now rewrite Hc|].
  inversion IH; subst. constructor; [|assumption].
  simpl. now rewrite Hc.
Qed.

(** Normalizing a list of segments in two parts. *)
Lemma normalizeSegs_app aar stack xs ys :
  normalizeSegs aar stack (xs ++ ys)
  = normalizeSegs aar (rev (normalizeSegs aar stack xs)) ys.
Proof.
  revert stack. induction xs as [|x xs IH]; intros stack.
  - simpl. now rewrite rev_involutive.
  - cbn [app normalizeSegs].
    destruct (String.eqb x "" || String.eqb x "."); [apply IH|].
    destruct (String.eqb x ".."); [|apply IH].
    destruct stack as [|top below]; [apply IH|].
    destruct (String.eqb top ".."); apply IH.
Qed.

Lemma ordinary_step aar stack seg rest :
  ordinary seg = true ->
  normalizeSegs aar stack (seg :: rest) = normalizeSegs aar (seg :: stack) rest.
Proof.
  unfold ordinary. intros Hord.
  apply andb_prop in Hord as [Hord _].
  apply andb_prop in Hord as [Hord Hdd].
  apply andb_prop in Hord as [He Hd].
  apply negb_true_iff in He, Hd, Hdd.
  cbn [normalizeSegs]. now rewrite He, Hd, Hdd.
Qed.

(** Ordinary segments are kept, in order. *)
Lemma normalizeSegs_ordinary aar stack segs :
  Forall (fun seg => ordinary seg = true) segs ->
  normalizeSegs aar stack segs = (rev stack ++ segs)%list.
Proof.
  intros Hall. revert stack.
  induction Hall as [|seg segs Hseg Hall IH]; intros stack.
  - simpl. now rewrite app_nil_r.
  - rewrite (ordinary_step _ _ _ _ Hseg), IH. simpl.
    now rewrite <- app_assoc.
Qed.

(** What normalization leaves, when it may not climb above the root, is
    ordinary. *)
Lemma normalizeSegs_false_ordinary stack segs :
  Forall (fun seg => ordinary seg = true) stack ->
  Forall (fun seg => noSlash seg = true) segs ->
  Forall (fun seg => ordinary seg = true) (normalizeSegs false stack segs).
Proof.
  intros Hstack Hsegs. revert stack Hstack.
  induction Hsegs as [|seg segs Hseg Hsegs IH]; intros stack Hstack.
  - simpl. rewrite List.Forall_forall in *. intros x Hx.
    apply Hstack. now apply in_rev.
  - cbn [normalizeSegs].
    destruct (String.eqb seg "") eqn:He; [now apply IH|].
    destruct (String.eqb seg ".") eqn:Hd; [now apply IH|]. cbn [orb].
    destruct (String.eqb seg "..") eqn:Hdd.
    + destruct stack as [|top below]; [now apply IH|].
      destruct (String.eqb top ".."); [now apply IH|].
      apply IH. now inversion Hstack.
    + apply IH. constructor; [|exact Hstack].
      unfold ordinary. now rewrite He, Hd, Hdd, Hseg.
Qed.

(** What normalization leaves holds no separator and no empty segment. *)
Lemma normalizeSegs_segments aar stack segs :
  Forall (fun seg => noSlash seg = true /\ seg <> "") stack ->
  Forall (fun seg => noSlash seg = true) segs ->
  Forall (fun seg => noSlash seg = true /\ seg <> "")
    (normalizeSegs aar stack segs).
Proof.
  intros Hstack Hsegs. revert stack Hstack.
  induction Hsegs as [|seg segs Hseg Hsegs IH]; intros stack Hstack.
  - simpl. rewrite List.Forall_forall in *. intros x Hx.
    apply Hstack. now apply in_rev.
  - cbn [normalizeSegs].
    destruct (String.eqb_spec seg "") as [He|He]; [now apply IH|].
    destruct (String.eqb seg "."); [now apply IH|]. cbn [orb].
    destruct (String.eqb seg "..") eqn:Hdd.
    + destruct stack as [|top below].
      * apply IH. destruct aar; repeat constructor. discriminate.
      * destruct (String.eqb top "..").
        -- apply IH. destruct aar; [|exact Hstack].
           constructor; [|exact Hstack]. split; [reflexivity|discriminate].
        -- apply IH. now inversion Hstack.
    + apply IH. constructor; [|exact Hstack]. now split.
Qed.

(** A relative path normalized on its own and then resolved against a
    directory resolves as the path itself does. *)
Lemma normalizeSegs_resolved stack kept segs rest :
  Forall (fun seg => seg <> "" /\ seg <> ".") kept ->
  normalizeSegs false stack (normalizeSegs true kept segs ++ rest)
  = normalizeSegs false stack (rev kept ++ segs ++ rest).
Proof.
  revert kept. induction segs as [|seg segs IH]; intros kept Hkept.
  - reflexivity.
  - assert (Hskip : forall front,
              String.eqb seg "" || String.eqb seg "." = true ->
              normalizeSegs false stack (front ++ seg :: segs ++ rest)
              = normalizeSegs false stack (front ++ segs ++ rest)).
    { intros front Hs. rewrite !(normalizeSegs_app false stack front).
      cbn [normalizeSegs]. now rewrite Hs. }
    cbn [normalizeSegs].
    destruct (String.eqb seg "" || String.eqb seg ".") eqn:Hs.
    { rewrite (IH kept Hkept). cbn [app]. now rewrite Hskip. }
    apply orb_false_elim in Hs as [He Hd].
    destruct (String.eqb_spec seg "..") as [->|Hdd].
    + destruct kept as [|top below].
      * now rewrite (IH [".."]) by (repeat constructor; discriminate).
      * destruct (String.eqb_spec top "..") as [->|Htop].
        -- rewrite (IH (".." :: ".." :: below)).
           ++ cbn [rev app]. now rewrite <- !app_assoc.
           ++ constructor; [split; discriminate|exact Hkept].
        -- rewrite (IH below) by now inversion Hkept.
           cbn [rev app]. rewrite <- !app_assoc.
           rewrite !(normalizeSegs_app false stack (rev below)).
           cbn [app normalizeSegs].
           inversion Hkept as [|? ? [Hne Hnd] ?]; subst.
           apply String.eqb_neq in Hne, Hnd, Htop.
           rewrite Hne, Hnd, Htop. cbn [orb].
           change (".." =? "") with false. change (".." =? ".") with false.
           cbn [orb]. change (".." =? "..") with true. cbv iota.
           reflexivity.
    + rewrite (IH (seg :: kept)).
      * cbn [rev app]. now rewrite <- !app_assoc.
      * constructor; [|exact Hkept].
        split; now apply String.eqb_neq.
Qed.

Lemma normalizeSegs_trailing aar stack segs :
  normalizeSegs aar stack (segs ++ [""]) = normalizeSegs aar stack segs.
Proof.
  rewrite normalizeSegs_app. cbn [normalizeSegs].
  change ("" =? "") with true. cbn [orb]. apply rev_involutive.
Qed.

Lemma splitSlash_trailing s :
  splitSlash (s ++ "/") = (splitSlash s ++ [""])%list.
Proof. exact (splitSlash_app s ""). Qed.

Lemma string_app_assoc (a b c : string) : (a ++ b) ++ c = a ++ b ++ c.
Proof.
  induction a as [|x a IH]; [reflexivity|].
  rewrite !append_cons. now rewrite IH.
Qed.

Lemma string_app_length (a b : string) :
  String.length (a ++ b) = (String.length a + String.length b)%nat.
Proof.
  induction a as [|x a IH]; [reflexivity|].
  rewrite append_cons. cbn [String.length]. now rewrite IH.
Qed.

Lemma concat_cons2 sep (x y : string) rest :
  String.concat sep (x :: y :: rest)
  = x ++ sep ++ String.concat sep (y :: rest).
Proof. reflexivity. Qed.

Lemma concat_app sep (xs ys : list string) :
  ys <> [] ->
  String.concat sep (xs ++ ys)
  = match xs with
    | [] => String.concat sep ys
    | _ => String.concat sep xs ++ sep ++ String.concat sep ys
    end.
Proof.
  intros Hys. induction xs as [|x xs IH]; [reflexivity|].
  destruct xs as [|y xs].
  - destruct ys as [|y ys]; [congruence|]. reflexivity.
  - cbn [app] in *. rewrite !concat_cons2, IH.
    now rewrite !string_app_assoc.
Qed.

(** Joining segments that hold no separator and splitting again gives the
    segments back. *)
Lemma splitSlash_concat segs :
  segs <> [] ->
  Forall (fun seg => noSlash seg = true) segs ->
  splitSlash (String.concat "/" segs) = segs.
Proof.
  intros Hne Hall. induction Hall as [|seg segs Hseg Hall IH]; [congruence|].
  destruct segs as [|seg' segs].
  - now apply splitSlash_noSlash.
  - rewrite concat_cons2, splitSlash_app, (splitSlash_noSlash _ Hseg).
    now rewrite IH.
Qed.

Lemma noSlash_app a b : noSlash (a ++ b) = noSlash a && noSlash b.
Proof.
  induction a as [|x a IH]; [reflexivity|].
  rewrite append_cons. cbn [noSlash]. now rewrite IH, andb_assoc.
Qed.

Lemma noSlash_replaced c : noSlash (replaced c) = true.
Proof.
  unfold replaced.
  destruct (nat_of_ascii c <? 128)%nat;
    [|destruct (nat_of_ascii c <? 192)%nat;
      [|destruct (nat_of_ascii c <? 240)%nat]; reflexivity].
  cbn [noSlash]. rewrite andb_true_r. apply negb_true_iff.
  destruct (isSafeChar c) eqn:Hc; [|reflexivity].
  destruct (Ascii.eqb_spec c "/") as [->|]; [discriminate Hc|reflexivity].
Qed.

Lemma noSlash_sanitize s : noSlash (sanitize s) = true.
Proof.
  induction s as [|c s IH]; [reflexivity|]. cbn [sanitize].
  now rewrite noSlash_app, noSlash_replaced, IH.
Qed.

Lemma noSlash_digits u : noSlash (NilEmpty.string_of_uint u) = true.
Proof. induction u; simpl; trivial. Qed.

Lemma noSlash_decimal n : noSlash (decimal n) = true.
Proof.
  unfold decimal, NilZero.string_of_uint.
  destruct (N.to_uint n) eqn:Hn; [reflexivity|..];
    rewrite <- Hn; apply noSlash_digits.
Qed.

Lemma mergeDirName_ordinary source now :
  ordinary (mergeDirName source now) = true.
Proof.
  unfold ordinary, mergeDirName.
  rewrite !noSlash_app, noSlash_sanitize, noSlash_decimal. reflexivity.
Qed.

Lemma ordinary_inv seg :
  ordinary seg = true -> seg <> "" /\ noSlash seg = true.
Proof.
  unfold ordinary. intros Hord.
  apply andb_prop in Hord as [Hord Hns].
  apply andb_prop in Hord as [Hord _].
  apply andb_prop in Hord as [He _].
  split; [|exact Hns]. apply negb_true_iff in He. now apply String.eqb_neq.
Qed.

Lemma worktreeSegments_ordinary name :
  ordinary name = true ->
  Forall (fun seg => ordinary seg = true) (worktreeSegments name).
Proof. intros Hname. repeat constructor. exact Hname. Qed.

Lemma endsWithSlash_app a b :
  b <> "" -> endsWithSlash (a ++ b) = endsWithSlash b.
Proof.
  intros Hb. induction a as [|x a IH]; [reflexivity|].
  rewrite append_cons. cbn [endsWithSlash]. rewrite IH.
  destruct (a ++ b) eqn:Hab; [|reflexivity].
  destruct a; [|discriminate Hab]. now destruct b.
Qed.

Lemma endsWithSlash_noSlash s : noSlash s = true -> endsWithSlash s = false.
Proof.
  induction s as [|c s IH]; [reflexivity|]. cbn [noSlash endsWithSlash].
  intros [Hc Hs]%andb_prop. apply negb_true_iff in Hc.
  destruct s; [exact Hc|now apply IH].
Qed.

Lemma isAbsolute_cons c s :
  isAbsolute (String c s) = if ascii_dec "/" c then true else false.
Proof. destruct s; reflexivity. Qed.

Lemma isAbsolute_segment seg :
  seg <> "" -> noSlash seg = true -> isAbsolute seg = false.
Proof.
  destruct seg as [|c seg]; [congruence|]. intros _.
  cbn [noSlash]. intros [Hc _]%andb_prop. apply negb_true_iff in Hc.
  rewrite isAbsolute_cons.
  destruct (ascii_dec "/" c) as [<-|]; [discriminate Hc|reflexivity].
Qed.

Lemma isAbsolute_app a b : a <> "" -> isAbsolute (a ++ b) = isAbsolute a.
Proof.
  destruct a as [|c a]; [congruence|]. intros _. rewrite append_cons.
  now rewrite !isAbsolute_cons.
Qed.

Lemma isAbsolute_concat seg segs :
  seg <> "" -> noSlash seg = true ->
  isAbsolute (String.concat "/" (seg :: segs)) = false.
Proof.
  intros Hne Hns. destruct segs as [|seg' segs].
  - now apply isAbsolute_segment.
  - rewrite concat_cons2, isAbsolute_app by exact Hne.
    now apply isAbsolute_segment.
Qed.

(** The path that [path.join(root, '.stoneforge/.worktrees', name)]
    returns. *)
Lemma join_worktree root name :
  ordinary name = true ->
  let abs := isAbsolute root in
  join [root; ".stoneforge/.worktrees"; name]
  = (if abs then "/" else "")
    ++ String.concat "/"
         (normalizeSegs (negb abs) []
            (if String.eqb root "" then [] else splitSlash root)
          ++ worktreeSegments name).
Proof.
  intros Hname abs.
  destruct (ordinary_inv _ Hname) as [Hne Hns].
  assert (Htail : forall aar front,
            normalizeSegs aar [] (front ++ worktreeSegments name)
            = (normalizeSegs aar [] front ++ worktreeSegments name)%list).
  { intros aar front. rewrite normalizeSegs_app.
    rewrite normalizeSegs_ordinary by now apply worktreeSegments_ordinary.
    now rewrite rev_involutive. }
  assert (Hsplit : splitSlash (".stoneforge/.worktrees" ++ "/" ++ name)
                   = worktreeSegments name).
  { now rewrite splitSlash_app, (splitSlash_noSlash _ Hns). }
  assert (Hq : forall front,
            String.eqb (String.concat "/" (front ++ worktreeSegments name)) ""
            = false).
  { intros front. rewrite concat_app by discriminate.
    destruct front as [|x front]; [reflexivity|].
    apply String.eqb_neq. intros Hempty.
    apply (f_equal String.length) in Hempty.
    rewrite !string_app_length in Hempty. cbn in Hempty. lia. }
  assert (Htrail : forall front,
            endsWithSlash (front ++ "/" ++ name) = false).
  { intros front.
    rewrite endsWithSlash_app by discriminate.
    change ("/" ++ name) with (String "/" name).
    cbn [endsWithSlash]. destruct name; [congruence|].
    now apply endsWithSlash_noSlash. }
  apply String.eqb_neq in Hne.
  unfold join.
  destruct root as [|c root].
  - cbn [List.filter]. change ("" =? "") with true. cbn [negb].
    change (".stoneforge/.worktrees" =? "") with false. rewrite Hne.
    cbn [negb]. rewrite concat_cons2. cbn [String.concat].
    unfold normalize, normalizeString.
    change (".stoneforge/.worktrees" ++ "/" ++ name =? "") with false.
    cbv iota. rewrite Htrail.
    change (isAbsolute (".stoneforge/.worktrees" ++ "/" ++ name)) with false.
    subst abs. cbv zeta. cbn [negb isAbsolute String.prefix].
    rewrite Hsplit.
    change (worktreeSegments name) with ([] ++ worktreeSegments name)%list at 1 2.
    rewrite (Htail true []). cbn [normalizeSegs rev].
    now rewrite (Hq []).
  - cbn [List.filter]. change (String c root =? "") with false. cbn [negb].
    change (".stoneforge/.worktrees" =? "") with false. rewrite Hne.
    cbn [negb]. rewrite !concat_cons2. cbn [String.concat].
    unfold normalize, normalizeString.
    change (String c root ++ "/" ++ ".stoneforge/.worktrees" ++ "/" ++ name
            =? "") with false.
    cbv iota. cbv zeta.
    rewrite <- (string_app_assoc (String c root) "/"), <- string_app_assoc.
    rewrite Htrail.
    rewrite !string_app_assoc.
    rewrite (isAbsolute_app (String c root)) by discriminate.
    fold abs. rewrite splitSlash_app, Hsplit, Htail, Hq.
    now destruct abs.
Qed.

Lemma resolve_empty cwd :
  resolve cwd ""
  = "/" ++ String.concat "/" (normalizeSegs false [] (splitSlash cwd)).
Proof.
  unfold resolve, normalizeString. change ("" =? "") with true. cbv iota.
  now rewrite splitSlash_trailing, normalizeSegs_trailing.
Qed.

Lemma resolve_absolute cwd p :
  isAbsolute p = true ->
  resolve cwd p
  = "/" ++ String.concat "/" (normalizeSegs false [] (splitSlash p)).
Proof.
  intros Habs. unfold resolve, normalizeString. rewrite Habs.
  destruct p as [|c p]; [discriminate Habs|].
  change (String c p =? "") with false. cbv iota.
  now rewrite splitSlash_trailing, normalizeSegs_trailing.
Qed.

Lemma resolve_relative cwd p :
  p <> "" -> isAbsolute p = false ->
  resolve cwd p
  = "/" ++ String.concat "/"
             (normalizeSegs false [] (splitSlash cwd ++ splitSlash p)).
Proof.
  intros Hne Hrel. unfold resolve, normalizeString. rewrite Hrel.
  apply String.eqb_neq in Hne. rewrite Hne.
  now rewrite splitSlash_app, splitSlash_trailing, app_assoc,
    normalizeSegs_trailing.
Qed.

Lemma isAbsolute_segments segs :
  segs <> [] ->
  Forall (fun seg => noSlash seg = true /\ seg <> "") segs ->
  isAbsolute (String.concat "/" segs) = false.
Proof.
  intros Hne Hall. destruct Hall as [|seg segs [Hns Hseg] _]; [congruence|].
  now apply isAbsolute_concat.
Qed.

Lemma segments_slash_free segs :
  Forall (fun seg => noSlash seg = true /\ seg <> "") segs ->
  Forall (fun seg => noSlash seg = true) segs.
Proof. apply List.Forall_impl. now intros seg [Hns _]. Qed.

Lemma worktreeSegments_segments name :
  ordinary name = true ->
  Forall (fun seg => noSlash seg = true /\ seg <> "") (worktreeSegments name).
Proof.
  intros [Hne Hns]%ordinary_inv.
  repeat constructor; try reflexivity; try discriminate; assumption.
Qed.

(** The directory [<root>/.stoneforge/.worktrees/<name>] resolves to the
    segments of the resolved root followed by the three appended ones. *)
Lemma resolve_worktree cwd root name :
  ordinary name = true ->
  exists segs,
    Forall (fun seg => noSlash seg = true /\ seg <> "") segs
    /\ resolve cwd root = "/" ++ String.concat "/" segs
    /\ resolve cwd (join [root; ".stoneforge/.worktrees"; name])
       = "/" ++ String.concat "/" (segs ++ worktreeSegments name).
Proof.
  intros Hname. rewrite (join_worktree root name Hname). cbv zeta.
  pose proof (worktreeSegments_segments name Hname) as Hthree.
  assert (Htail : forall front,
            normalizeSegs false [] (front ++ worktreeSegments name)
            = (normalizeSegs false [] front ++ worktreeSegments name)%list).
  { intros front. rewrite normalizeSegs_app.
    rewrite normalizeSegs_ordinary by now apply worktreeSegments_ordinary.
    now rewrite rev_involutive. }
  assert (Hkept : forall aar front,
            Forall (fun seg => noSlash seg = true) front ->
            Forall (fun seg => noSlash seg = true /\ seg <> "")
              (normalizeSegs aar [] front)).
  { intros aar front Hfront. now apply normalizeSegs_segments. }
  assert (Hback : forall front : list string,
            Forall (fun seg => noSlash seg = true /\ seg <> "") front ->
            splitSlash (String.concat "/" (front ++ worktreeSegments name))
            = (front ++ worktreeSegments name)%list).
  { intros front Hfront. apply splitSlash_concat.
    - now destruct front.
    - apply segments_slash_free, Forall_app. now split. }
  assert (Hq : forall front : list string,
            String.concat "/" (front ++ worktreeSegments name) <> "").
  { intros front Hempty. rewrite concat_app in Hempty by discriminate.
    destruct front as [|x front]; [discriminate Hempty|].
    apply (f_equal String.length) in Hempty.
    rewrite !string_app_length in Hempty. cbn in Hempty. lia. }
  destruct root as [|c root].
  - exists (normalizeSegs false [] (splitSlash cwd)).
    split; [apply Hkept, splitSlash_slash_free|].
    split; [apply resolve_empty|].
    change (isAbsolute "") with false. change ("" =? "") with true.
    cbv iota. cbn [negb normalizeSegs rev]. rewrite append_nil_l.
    rewrite resolve_relative.
    + now rewrite (Hback []), Htail by constructor.
    + apply (Hq []).
    + apply isAbsolute_segments; [discriminate|exact Hthree].
  - change (String c root =? "") with false. cbv iota.
    destruct (isAbsolute (String c root)) eqn:Habs; cbn [negb].
    + exists (normalizeSegs false [] (splitSlash (String c root))).
      split; [apply Hkept, splitSlash_slash_free|].
      split; [now apply resolve_absolute|].
      set (kept := normalizeSegs false [] (splitSlash (String c root))).
      assert (Hord : Forall (fun seg => ordinary seg = true) kept).
      { apply normalizeSegs_false_ordinary;
          [constructor|apply splitSlash_slash_free]. }
      rewrite resolve_absolute.
      * change ("/" ++ ?q) with (String "/" q) at 2.
        cbn [splitSlash]. change (Ascii.eqb "/" "/") with true. cbv iota.
        rewrite Hback by apply Hkept, splitSlash_slash_free.
        cbn [normalizeSegs]. change ("" =? "") with true. cbn [orb].
        rewrite Htail. now rewrite (normalizeSegs_ordinary _ _ _ Hord).
      * change ("/" ++ ?q) with (String "/" q). rewrite isAbsolute_cons.
        now destruct (ascii_dec "/" "/").
    + rewrite append_nil_l.
      exists (normalizeSegs false []
                (splitSlash cwd ++ splitSlash (String c root))).
      split.
      { apply Hkept, Forall_app.
        split; apply splitSlash_slash_free. }
      split; [now apply resolve_relative|].
      rewrite resolve_relative.
      * rewrite Hback by apply Hkept, splitSlash_slash_free.
        rewrite normalizeSegs_app, normalizeSegs_resolved by constructor.
        cbn [rev app]. rewrite <- normalizeSegs_app.
        now rewrite app_assoc, Htail.
      * apply Hq.
      * apply isAbsolute_segments.
        -- now destruct (normalizeSegs true [] (splitSlash (String c root))).
        -- apply Forall_app. split; [|exact Hthree].
           apply Hkept, splitSlash_slash_free.
Qed.

End PathFacts.

(** ** The anatomy of a [mergeBranch] run *)

Section BodyFacts.

Import Js GitMerge MergeViews.

Context (P : PathApi) (W : World).

Implicit Types (h : list Event) (root : string).

Ltac ask_git :=
  repeat match goal with
    | |- context [git W ?hh ?cwd ?cmd] =>
        let res := fresh "res" in
        destruct (git W hh cwd cmd) as [res|res] eqn:?; simpl
    end.

(** The [catch] block, when the guard of [execGitSafe] lets the abort
    through. *)
Lemma onMergeError_eq root mergeDir strategy e h :
  path_resolve P mergeDir <> path_resolve P root ->
  onMergeError P W root mergeDir strategy e h
  = if looksLikeConflict e
    then (Returned (mkResult false None true (Some "Merge conflict detected")
                      (mergeConflictFiles (errorOutput e))),
          [Exec Safe mergeDir (abortOf strategy)
             (git W h mergeDir (commandLine (abortOf strategy)))])
    else (Returned (mkResult false None false
                      (Some (if String.eqb (errorOutput e) ""
                             then "Merge failed" else errorOutput e))
                      None), []).
Proof.
  intros Hne. apply String.eqb_neq in Hne.
  unfold onMergeError, looksLikeConflict, errorOutput.
  destruct (_ || _); [|reflexivity].
  unfold execGitSafe. rewrite Hne. unfold tryCatch, bind, ret.
  destruct strategy; simpl; destruct (git W h mergeDir _); reflexivity.
Qed.

(** The [try] block, when the guard lets the commands through: either every
    step succeeds (a failed push is only logged) and the block returns a
    success, or the first failing step is the last command of the block and
    its error is thrown. *)
Lemma mergeSteps_run root source target mergeDir message strategy pushes h :
  path_resolve P mergeDir <> path_resolve P root ->
  match mergeSteps P W root source target mergeDir message strategy pushes h
  with
  | (Returned r, t) =>
      (exists hash, r = mkResult true (Some hash) false None None)
      /\ Forall (fun ev =>
                   match ev with
                   | Exec via cwd c (Rejected e) =>
                       via = Safe /\ cwd = mergeDir /\
                       c = PushOriginHead target /\
                       In (Warn (pushWarning e)) t
                   | Exec via cwd c (Resolved _) =>
                       via = Safe /\ cwd = mergeDir /\
                       (mergeStep c = true \/ c = PushOriginHead target)
                   | Warn _ => True
                   end) t
  | (Threw e, t) =>
      exists before c,
        t = (before ++ [Exec Safe mergeDir c (Rejected e)])%list
        /\ mergeStep c = true
        /\ Forall (fun ev =>
                     exists c' out,
                       ev = Exec Safe mergeDir c' (Resolved out) /\
                       mergeStep c' = true) before
  end.
Proof.
  intros Hne. apply String.eqb_neq in Hne.
  unfold mergeSteps, when, execGitSafe. rewrite Hne.
  unfold tryCatch, bind, ret, warn, pushWarning.
  destruct strategy, pushes; simpl; ask_git;
    first
      [ solve [split; [eauto|]; repeat constructor; simpl; auto 10]
      | solve [eexists [], _; split; [reflexivity|]; split; [reflexivity|];
               repeat constructor]
      | solve [eexists [_], _; split; [reflexivity|]; split; [reflexivity|];
               repeat constructor; eauto]
      | solve [eexists [_; _], _; split; [reflexivity|]; split; [reflexivity|];
               repeat constructor; eauto]
      ].
Qed.

(** When the guard lets the commands through, the [try] block starts with
    the merge command, run inside the worktree. *)
Lemma mergeSteps_first root source target mergeDir message strategy pushes h :
  path_resolve P mergeDir <> path_resolve P root ->
  exists res rest,
    (mergeSteps P W root source target mergeDir message strategy pushes h).2
    = Exec Safe mergeDir (mergeCommand strategy source message) res :: rest.
Proof.
  intros Hne. apply String.eqb_neq in Hne.
  unfold mergeSteps, when, execGitSafe. rewrite Hne.
  unfold tryCatch, bind, ret, warn.
  destruct strategy, pushes; simpl; ask_git; eexists _, _; reflexivity.
Qed.

Lemma mergeBody_first root source target mergeDir message strategy pushes
    hist r tBody :
  path_resolve P mergeDir <> path_resolve P root ->
  tryCatch (mergeSteps P W root source target mergeDir message strategy pushes)
    (onMergeError P W root mergeDir strategy) hist = (Returned r, tBody) ->
  exists res rest,
    tBody
    = Exec Safe mergeDir (mergeCommand strategy source message) res :: rest.
Proof.
  intros Hne. unfold tryCatch.
  destruct (mergeSteps_first root source target mergeDir message strategy
              pushes hist Hne) as (res & rest & Hfirst).
  destruct (mergeSteps _ _ _ _ _ _ _ _ _ hist) as [[r0|e] t1].
  - intros [= <- <-]. now exists res, rest.
  - destruct (onMergeError _ _ _ _ _ _ _) as [c t2]. intros [= -> <-].
    simpl in Hfirst. subst t1. now exists res, (rest ++ t2)%list.
Qed.

(** The result of the [catch] block, whether or not the abort ran. *)
Lemma onMergeError_result root mergeDir strategy e h :
  (onMergeError P W root mergeDir strategy e h).1
  = Returned
      (if looksLikeConflict e
       then mkResult false None true (Some "Merge conflict detected")
              (mergeConflictFiles (errorOutput e))
       else mkResult false None false
              (Some (if String.eqb (errorOutput e) ""
                     then "Merge failed" else errorOutput e))
              None).
Proof.
  unfold onMergeError, looksLikeConflict, errorOutput.
  destruct (_ || _); [|reflexivity].
  unfold execGitSafe, tryCatch, bind, ret, throw.
  destruct strategy;
    destruct (String.eqb (path_resolve P mergeDir) (path_resolve P root));
    simpl; try destruct (git W h mergeDir _); reflexivity.
Qed.

(** The [try] and [catch] blocks together, when the guard of [execGitSafe]
    lets the commands through: every step succeeds and the result is a
    success, a failed push being logged; or the first failing step is
    followed, on a conflict, by the abort, and its error decides the
    result. *)
Lemma mergeBody_cases root source target mergeDir message strategy pushes
    hist r tBody :
  path_resolve P mergeDir <> path_resolve P root ->
  tryCatch (mergeSteps P W root source target mergeDir message strategy pushes)
    (onMergeError P W root mergeDir strategy) hist = (Returned r, tBody) ->
  ((exists hash, r = mkResult true (Some hash) false None None)
   /\ Forall (fun ev =>
                match ev with
                | Exec via cwd c (Rejected e) =>
                    via = Safe /\ cwd = mergeDir /\
                    c = PushOriginHead target /\
                    In (Warn (pushWarning e)) tBody
                | Exec via cwd c (Resolved _) =>
                    via = Safe /\ cwd = mergeDir /\
                    (mergeStep c = true \/ c = PushOriginHead target)
                | Warn _ => True
                end) tBody)
  \/ (exists before c e res,
        tBody
        = (before ++ Exec Safe mergeDir c (Rejected e)
             :: if looksLikeConflict e
                then [Exec Safe mergeDir (abortOf strategy) res]
                else [])%list
        /\ mergeStep c = true
        /\ Forall (fun ev =>
                     exists c' out,
                       ev = Exec Safe mergeDir c' (Resolved out) /\
                       mergeStep c' = true) before
        /\ r = if looksLikeConflict e
               then mkResult false None true (Some "Merge conflict detected")
                      (mergeConflictFiles (errorOutput e))
               else mkResult false None false
                      (Some (if String.eqb (errorOutput e) ""
                             then "Merge failed" else errorOutput e))
                      None).
Proof.
  intros Hne. unfold tryCatch.
  pose proof (mergeSteps_run root source target mergeDir message strategy
                pushes hist Hne) as Hsteps.
  destruct (mergeSteps _ _ _ _ _ _ _ _ _ hist) as [[r0|e] t1].
  - intros [= <- <-]. now left.
  - destruct Hsteps as (before & c & -> & Hstep & Hbefore).
    rewrite (onMergeError_eq _ _ _ _ _ Hne).
    intros Hrun. right.
    exists before, c, e,
      (git W (hist ++ before ++ [Exec Safe mergeDir c (Rejected e)])%list
         mergeDir (commandLine (abortOf strategy))).
    destruct (looksLikeConflict e); injection Hrun as <- <-;
      rewrite <- app_assoc; simpl; auto.
Qed.

(** Whatever the [try] and [catch] blocks return is well formed. *)
Lemma mergeBody_wellFormed root source target mergeDir message strategy
    pushes hist r tBody :
  tryCatch (mergeSteps P W root source target mergeDir message strategy pushes)
    (onMergeError P W root mergeDir strategy) hist = (Returned r, tBody) ->
  wellFormed r.
Proof.
  unfold tryCatch.
  destruct (mergeSteps _ _ _ _ _ _ _ _ _ hist) as [[r0|e] t1] eqn:Hsteps.
  - intros [= <- <-]. apply mergeSteps_Returned in Hsteps as [[hash ->] _].
    unfold wellFormed. simpl. eauto.
  - pose proof (onMergeError_result root mergeDir strategy e (hist ++ t1)%list)
      as Hres.
    destruct (onMergeError _ _ _ _ _ _ _) as [r1 t2]. simpl in Hres.
    subst r1. intros [= <- <-].
    destruct (looksLikeConflict e); unfold wellFormed; simpl.
    + split; [reflexivity|]. split; [|discriminate]. eexists.
      split; [reflexivity|discriminate].
    + split; [reflexivity|]. split; [|reflexivity]. eexists.
      split; [reflexivity|].
      destruct (String.eqb_spec (errorOutput e) ""); [discriminate|assumption].
Qed.

(** Steps 4 to 7: the [try] and [catch] blocks run inside the worktree, and
    the [finally] block then removes it, whatever happened. *)
Lemma mergeInWorktree_anatomy root source target mergeDir message strategy
    pushes h :
  exists r tBody removal,
    mergeInWorktree P W root source target mergeDir message strategy pushes h
    = (Returned r,
       (tBody ++ [Exec Raw root (WorktreeRemoveForce mergeDir) removal])%list)
    /\ tryCatch
         (mergeSteps P W root source target mergeDir message strategy pushes)
         (onMergeError P W root mergeDir strategy) h
       = (Returned r, tBody)
    /\ Forall (inWorktree mergeDir) tBody.
Proof.
  set (body := tryCatch _ _).
  assert (Hnever : NeverThrows body).
  { apply NeverThrows_tryCatch. intros e. apply onMergeError_NeverThrows. }
  assert (Hin : Emits (inWorktree mergeDir) body).
  { apply Emits_tryCatch.
    - unfold mergeSteps. destruct strategy;
        repeat first
          [ apply Emits_ret | apply Emits_bind; [|intros ?]
          | apply Emits_tryCatch; [|intros ?] | apply Emits_when
          | apply Emits_warn | apply Emits_execGitSafe; intros ? ? ];
        simpl; auto.
    - intros e. unfold onMergeError. destruct (_ || _); [|apply Emits_ret].
      destruct strategy;
        repeat first
          [ apply Emits_ret | apply Emits_bind; [|intros ?]
          | apply Emits_tryCatch; [|intros ?]
          | apply Emits_execGitSafe; intros ? ? ];
        simpl; auto. }
  destruct (NeverThrows_run body h Hnever) as (r & tBody & Hbody).
  exists r, tBody,
    (git W (h ++ tBody)%list root (commandLine (WorktreeRemoveForce mergeDir))).
  split; [|split; [exact Hbody|]].
  - unfold mergeInWorktree, tryFinally. fold body. rewrite Hbody.
    unfold removeWorktree, tryCatch, bind, execAsync, ret.
    now destruct (git W _ root _).
  - specialize (Hin h). now rewrite Hbody in Hin.
Qed.

(** The anatomy of steps 3 to 8: either the worktree administration fails
    before a worktree exists and the error is thrown, or the worktree is
    created, the merge runs inside it, the worktree is removed, and the
    local sync comes last. *)
Lemma worktreeMerge_anatomy o isLocalOnly target h :
  let root := workspaceRoot o in
  let strategy := nullish (mergeStrategy o) Squash in
  let pushes := nullish (autoPush o) true in
  let syncs := nullish (syncLocal o) true in
  let mergeDir := mergeDirOf P root (sourceBranch o) (dateNow W h) in
  (exists e tAdmin,
     worktreeMerge P W o isLocalOnly target h = (Threw e, tAdmin)
     /\ Forall (fun ev =>
                  exists c res,
                    ev = Exec Raw root c res /\ stageOf c = WorktreeAdmin /\
                    worktreeCreated ev = false) tAdmin
     /\ exists init c,
          tAdmin = (init ++ [Exec Raw root c (Rejected e)])%list
          /\ Forall (quiet root) init)
  \/ (exists tClean out r tBody removal tSync hist hist',
        worktreeMerge P W o isLocalOnly target h
        = (Returned r,
           (tClean
            ++ Exec Raw root
                 (WorktreeAddDetach mergeDir (refOf isLocalOnly target))
                 (Resolved out)
            :: tBody
            ++ Exec Raw root (WorktreeRemoveForce mergeDir) removal
            :: tSync)%list)
        /\ Forall (fun ev =>
                     exists out',
                       ev = Exec Raw root (WorktreeRemoveForce mergeDir)
                              (Resolved out')) tClean
        /\ tryCatch
             (mergeSteps P W root (sourceBranch o) target mergeDir
                (messageOf o strategy target) strategy
                (pushes && negb isLocalOnly))
             (onMergeError P W root mergeDir strategy) hist
           = (Returned r, tBody)
        /\ Forall (inWorktree mergeDir) tBody
        /\ syncStep W root target isLocalOnly pushes syncs r hist'
           = (Returned tt, tSync)).
Proof.
  cbv zeta.
  destruct (worktreeMerge_run P W o isLocalOnly target h)
    as (Hrm & Hadd & Hok).
  cbv zeta in Hrm, Hadd, Hok.
  set (root := workspaceRoot o) in *.
  set (mergeDir := mergeDirOf P root (sourceBranch o) (dateNow W h)) in *.
  assert (Hcreated : forall tClean out,
            (exists r tMerge tSync,
               worktreeMerge P W o isLocalOnly target h
               = (Returned r,
                  (tClean
                   ++ Exec Raw root
                        (WorktreeAddDetach mergeDir (refOf isLocalOnly target))
                        (Resolved out) :: tMerge ++ tSync)%list)
               /\ mergeInWorktree P W root (sourceBranch o) target mergeDir
                    (messageOf o (nullish (mergeStrategy o) Squash) target)
                    (nullish (mergeStrategy o) Squash)
                    (nullish (autoPush o) true && negb isLocalOnly)
                    (h ++ tClean
                     ++ [Exec Raw root
                           (WorktreeAddDetach mergeDir
                              (refOf isLocalOnly target)) (Resolved out)])%list
                  = (Returned r, tMerge)
               /\ syncStep W root target isLocalOnly (nullish (autoPush o) true)
                    (nullish (syncLocal o) true) r
                    (h ++ tClean
                     ++ Exec Raw root
                          (WorktreeAddDetach mergeDir
                             (refOf isLocalOnly target)) (Resolved out)
                     :: tMerge)%list
                  = (Returned tt, tSync)) ->
            Forall (fun ev =>
                      exists out',
                        ev = Exec Raw root (WorktreeRemoveForce mergeDir)
                               (Resolved out')) tClean ->
            exists tClean out r tBody removal tSync hist hist',
              worktreeMerge P W o isLocalOnly target h
              = (Returned r,
                 (tClean
                  ++ Exec Raw root
                       (WorktreeAddDetach mergeDir (refOf isLocalOnly target))
                       (Resolved out)
                  :: tBody
                  ++ Exec Raw root (WorktreeRemoveForce mergeDir) removal
                  :: tSync)%list)
              /\ Forall (fun ev =>
                           exists out',
                             ev = Exec Raw root (WorktreeRemoveForce mergeDir)
                                    (Resolved out')) tClean
              /\ tryCatch
                   (mergeSteps P W root (sourceBranch o) target mergeDir
                      (messageOf o (nullish (mergeStrategy o) Squash) target)
                      (nullish (mergeStrategy o) Squash)
                      (nullish (autoPush o) true && negb isLocalOnly))
                   (onMergeError P W root mergeDir
                      (nullish (mergeStrategy o) Squash)) hist
                 = (Returned r, tBody)
              /\ Forall (inWorktree mergeDir) tBody
              /\ syncStep W root target isLocalOnly (nullish (autoPush o) true)
                   (nullish (syncLocal o) true) r hist'
                 = (Returned tt, tSync)).
  { intros tClean out (r & tMerge & tSync & Hrun & Hmerge & Hsync) Hclean.
    destruct (mergeInWorktree_anatomy root (sourceBranch o) target mergeDir
                (messageOf o (nullish (mergeStrategy o) Squash) target)
                (nullish (mergeStrategy o) Squash)
                (nullish (autoPush o) true && negb isLocalOnly)
                (h ++ tClean
                 ++ [Exec Raw root
                       (WorktreeAddDetach mergeDir (refOf isLocalOnly target))
                       (Resolved out)])%list)
      as (r' & tBody & removal & Hwhole & Hbody & Hinside).
    rewrite Hmerge in Hwhole. injection Hwhole as <- ->.
    eexists tClean, out, r, tBody, removal, tSync, _, _.
    split; [|split; [exact Hclean|split; [exact Hbody|split;
                                                        [exact Hinside|exact Hsync]]]].
    rewrite Hrun. now rewrite <- app_assoc. }
  destruct (existsSync W h mergeDir) eqn:Hleft.
  - destruct (git W h root (commandLine (WorktreeRemoveForce mergeDir)))
      as [out|e] eqn:Hrem.
    + destruct (git W _ root (commandLine (WorktreeAddDetach _ _)))
        as [out'|e] eqn:Hcr.
      * right.
        apply (Hcreated [Exec Raw root (WorktreeRemoveForce mergeDir)
                           (Resolved out)] out').
        -- destruct (Hok out') as (r & tMerge & tSync & Hrun & Hmerge & _ & _
                                   & _ & Hsync); [eauto|reflexivity|].
           now exists r, tMerge, tSync.
        -- repeat constructor. eauto.
      * left. rewrite (Hadd e); [|eauto|reflexivity].
        eexists e, _. split; [reflexivity|]. split.
        -- repeat constructor; eexists _, _; eauto.
        -- eexists [_], _. split; [reflexivity|].
           repeat constructor. intros e' (c' & [=] & _).
    + left. rewrite (Hrm e); [|reflexivity|reflexivity].
      eexists e, _. split; [reflexivity|]. split.
      * repeat constructor; eexists _, _; eauto.
      * eexists [], _. split; [reflexivity|constructor].
  - destruct (git W _ root (commandLine (WorktreeAddDetach _ _)))
      as [out'|e] eqn:Hcr.
    + right. apply (Hcreated [] out').
      * destruct (Hok out') as (r & tMerge & tSync & Hrun & Hmerge & _ & _
                                & _ & Hsync); [discriminate|reflexivity|].
        now exists r, tMerge, tSync.
      * constructor.
    + left. rewrite (Hadd e); [|discriminate|reflexivity].
      eexists e, _. split; [reflexivity|]. split.
      * repeat constructor; eexists _, _; eauto.
      * eexists [], _. split; [reflexivity|constructor].
Qed.

(** *** Probing runs plain commands in the workspace root *)

Ltac probes :=
  repeat first
    [ apply Emits_ret | apply Emits_bind; [|intros ?]
    | apply Emits_tryCatch; [|intros ?] | apply Emits_orFallThrough
    | apply Emits_execAsync; intros ?; eexists _, _; split; reflexivity ].

Lemma hasRemote_probes root name :
  Emits (rawAt root Probing) (hasRemote W root name).
Proof. unfold hasRemote. probes. Qed.

Lemma detectTargetBranch_probes root :
  Emits (rawAt root Probing) (detectTargetBranch W root).
Proof.
  unfold detectTargetBranch.
  apply Emits_bind; [apply hasRemote_probes|]. intros remoteExists.
  apply Emits_bind.
  - destruct remoteExists; [|apply Emits_ret]. unfold tryRemoteBranches.
    apply Emits_bind; [probes|]. intros [b|]; [apply Emits_ret|].
    apply Emits_bind; [probes|]. intros [b|]; [apply Emits_ret|]. probes.
  - intros [b|]; [apply Emits_ret|].
    apply Emits_bind; [|intros ?; apply Emits_ret]. simpl.
    apply Emits_bind; [probes|]. intros [b|]; [apply Emits_ret|].
    apply Emits_bind; [probes|]. intros [b|]; apply Emits_ret.
Qed.

Lemma resolveLocalOnly_probes o :
  Emits (rawAt (workspaceRoot o) Probing) (resolveLocalOnly W o).
Proof.
  unfold resolveLocalOnly. destruct (localOnly o); [apply Emits_ret|].
  apply Emits_bind; [apply hasRemote_probes|]. intros ?. apply Emits_ret.
Qed.

Lemma resolveTargetBranch_probes o :
  Emits (rawAt (workspaceRoot o) Probing) (resolveTargetBranch W o).
Proof.
  unfold resolveTargetBranch.
  destruct (targetBranch o); [apply Emits_ret|apply detectTargetBranch_probes].
Qed.

Lemma preflightCheck_raw root source target isLocalOnly :
  Emits (rawAt root Preflighting)
    (preflightCheck W root source target isLocalOnly).
Proof.
  intros h. rewrite preflightCheck_run. cbv zeta.
  destruct (git W h root _); repeat constructor; eexists _, _; eauto.
Qed.

(** The anatomy of a [mergeBranch] run up to step 3: probing, the fetch
    unless the call is local-only, the pre-flight check unless it is
    disabled; then a thrown fetch error, the pre-flight verdict, or steps 3
    to 8. *)
Lemma mergeBranch_anatomy o h :
  let root := workspaceRoot o in
  exists isLocalOnly target tProbe tFetch tPre,
    (resolveLocalOnly W o h).1 = Returned isLocalOnly
    /\ Forall (rawAt root Probing) tProbe
    /\ Forall (rawAt root Fetching) tFetch
    /\ (isLocalOnly = true -> tFetch = [])
    /\ Forall (rawAt root Preflighting) tPre
    /\ (nullish (preflight o) true = false -> tPre = [])
    /\ ((exists e,
           mergeBranch P W o h = (Threw e, (tProbe ++ tFetch)%list)
           /\ tPre = []
           /\ tFetch = [Exec Raw root FetchOrigin (Rejected e)])
        \/ (Forall (quiet root) tFetch
            /\ ((exists out,
                   mergeBranch P W o h
                   = (Returned (preflightRejection out),
                      (tProbe ++ tFetch ++ tPre)%list))
                \/ (exists hist,
                      mergeBranch P W o h
                      = ((worktreeMerge P W o isLocalOnly target hist).1,
                         (tProbe ++ tFetch ++ tPre
                          ++ (worktreeMerge P W o isLocalOnly target hist).2)%list))))).
Proof.
  cbv zeta.
  destruct (mergeBranch_run P W o h)
    as (isLocalOnly & target & tLocal & tTarget & Hlocal & Htarget & Hrest).
  cbv zeta in Hrest. destruct Hrest as (_ & Hfail & Hgo).
  set (root := workspaceRoot o) in *.
  set (fetching := git W (h ++ tLocal ++ tTarget)%list root
                     (commandLine FetchOrigin)) in *.
  set (tFetch := if isLocalOnly then []
                 else [Exec Raw root FetchOrigin fetching]) in *.
  assert (Hprobe : Forall (rawAt root Probing) (tLocal ++ tTarget)).
  { apply Forall_app. split.
    - pose proof (resolveLocalOnly_probes o h) as Ht. now rewrite Hlocal in Ht.
    - pose proof (resolveTargetBranch_probes o (h ++ tLocal)%list) as Ht.
      now rewrite Htarget in Ht. }
  assert (Hfetch : Forall (rawAt root Fetching) tFetch).
  { unfold tFetch. destruct isLocalOnly; repeat constructor.
    eexists _, _. eauto. }
  assert (Hnofetch : isLocalOnly = true -> tFetch = []).
  { unfold tFetch. now intros ->. }
  assert (Hreached :
    (isLocalOnly = false -> exists out, fetching = Resolved out) ->
    exists tPre,
      Forall (rawAt root Preflighting) tPre
      /\ (nullish (preflight o) true = false -> tPre = [])
      /\ ((exists out,
             mergeBranch P W o h
             = (Returned (preflightRejection out),
                ((tLocal ++ tTarget) ++ tFetch ++ tPre)%list))
          \/ (exists hist,
                mergeBranch P W o h
                = ((worktreeMerge P W o isLocalOnly target hist).1,
                   ((tLocal ++ tTarget) ++ tFetch ++ tPre
                    ++ (worktreeMerge P W o isLocalOnly target hist).2)%list)))).
  { intros Hok. destruct (Hgo Hok) as (rejected & tPre & Hpre & Hrun).
    exists tPre. split; [|split].
    - destruct (nullish (preflight o) true).
      + pose proof (preflightCheck_raw root (sourceBranch o) target
                      isLocalOnly (h ++ (tLocal ++ tTarget) ++ tFetch)%list)
          as Ht.
        now rewrite Hpre in Ht.
      + injection Hpre as <- <-. constructor.
    - intros Hoff. rewrite Hoff in Hpre. now injection Hpre as <- <-.
    - destruct rejected as [result|].
      + left. destruct (nullish (preflight o) true); [|discriminate Hpre].
        rewrite preflightCheck_run in Hpre. cbv zeta in Hpre.
        destruct (git W _ root (commandLine (MergeBase _ _)))
          as [mergeBase|e]; [|discriminate Hpre].
        destruct (outcomeStdout _) as [out|]; [|discriminate Hpre].
        destruct (includes _ out); [|discriminate Hpre].
        injection Hpre as <- <-. exists out. exact Hrun.
      + right. exists (h ++ (tLocal ++ tTarget) ++ tFetch ++ tPre)%list.
        rewrite Hrun.
        now destruct (worktreeMerge P W o isLocalOnly target _). }
  exists isLocalOnly, target, (tLocal ++ tTarget)%list, tFetch.
  destruct isLocalOnly.
  - destruct Hreached as (tPre & Hpretame & Hoff & Hcases); [discriminate|].
    exists tPre. rewrite Hlocal.
    repeat (split; [first [reflexivity|assumption]|]). right.
    split; [constructor|exact Hcases].
  - destruct fetching as [out|e] eqn:Hf.
    + destruct Hreached as (tPre & Hpretame & Hoff & Hcases); [eauto|].
      exists tPre. rewrite Hlocal.
      repeat (split; [first [reflexivity|assumption]|]). right.
      split; [|exact Hcases].
      repeat constructor. intros e' (c' & [=] & _).
    + exists []. rewrite Hlocal.
      repeat (split; [first [reflexivity|assumption|constructor]|]).
      left. exists e. split; [now apply Hfail|]. split; reflexivity.
Qed.

(** A command of an earlier stage is no failure outside the [try]
    block. *)
Lemma rawAt_quiet root stage ev :
  rawAt root stage ev -> stage <> Fetching -> stage <> WorktreeAdmin ->
  quiet root ev.
Proof.
  intros (c & res & -> & Hst) Hf Ha e (c' & [= <- _] & [Hc|Hc]); congruence.
Qed.

(** The anatomy of a whole [mergeBranch] run.  Before the temporary
    worktree exists it runs plain commands in the workspace root; it then
    throws the error of the last of them, the only one that failed outside
    the [try] block; or none of them failed and it returns the pre-flight
    verdict, or creates the worktree, runs the [try] and [catch] blocks
    inside it, removes it and runs the local sync. *)
Lemma mergeBranch_whole o h :
  let root := workspaceRoot o in
  let strategy := nullish (mergeStrategy o) Squash in
  let pushes := nullish (autoPush o) true in
  let syncs := nullish (syncLocal o) true in
  exists isLocalOnly target tBefore,
    (resolveLocalOnly W o h).1 = Returned isLocalOnly
    /\ Forall (beforeMerge root isLocalOnly (nullish (preflight o) true))
         tBefore
    /\ ((exists e init c,
           mergeBranch P W o h = (Threw e, tBefore)
           /\ tBefore = (init ++ [Exec Raw root c (Rejected e)])%list
           /\ Forall (quiet root) init)
        \/ (Forall (quiet root) tBefore
            /\ ((exists out,
                   mergeBranch P W o h
                   = (Returned (preflightRejection out), tBefore))
                \/ (exists mergeDir out r tBody removal tSync hist hist',
                      mergeBranch P W o h
                      = (Returned r,
                         (tBefore
                          ++ Exec Raw root
                               (WorktreeAddDetach mergeDir
                                  (refOf isLocalOnly target))
                               (Resolved out)
                          :: tBody
                          ++ Exec Raw root (WorktreeRemoveForce mergeDir)
                               removal
                          :: tSync)%list)
                      /\ tryCatch
                           (mergeSteps P W root (sourceBranch o) target
                              mergeDir (messageOf o strategy target) strategy
                              (pushes && negb isLocalOnly))
                           (onMergeError P W root mergeDir strategy) hist
                         = (Returned r, tBody)
                      /\ Forall (inWorktree mergeDir) tBody
                      /\ syncStep W root target isLocalOnly pushes syncs r
                           hist'
                         = (Returned tt, tSync)
                      /\ exists now,
                           mergeDir
                           = mergeDirOf P root (sourceBranch o) now)))).
Proof.
  cbv zeta.
  destruct (mergeBranch_anatomy o h)
    as (isLocalOnly & target & tProbe & tFetch & tPre & Hlocal & Hprobe
        & Hfetch & Hnofetch & Hpre & Hnopre & Hcases).
  cbv zeta in *. set (root := workspaceRoot o) in *.
  set (preflights := nullish (preflight o) true) in *.
  assert (Hearly : Forall (beforeMerge root isLocalOnly preflights)
                     (tProbe ++ tFetch ++ tPre)).
  { repeat (apply Forall_app; split).
    - eapply Forall_impl; [exact Hprobe|]. intros ev (c & res & -> & Hst).
      exists c, res. split; [reflexivity|]. now rewrite Hst.
    - destruct isLocalOnly; [rewrite (Hnofetch eq_refl); constructor|].
      eapply Forall_impl; [exact Hfetch|]. intros ev (c & res & -> & Hst).
      exists c, res. split; [reflexivity|]. now rewrite Hst.
    - destruct preflights; [|rewrite (Hnopre eq_refl); constructor].
      eapply Forall_impl; [exact Hpre|]. intros ev (c & res & -> & Hst).
      exists c, res. split; [reflexivity|]. now rewrite Hst. }
  assert (Hprobeq : Forall (quiet root) tProbe).
  { eapply Forall_impl; [exact Hprobe|]. intros ev Hev.
    eapply rawAt_quiet; [exact Hev|discriminate|discriminate]. }
  assert (Hpreq : Forall (quiet root) tPre).
  { eapply Forall_impl; [exact Hpre|]. intros ev Hev.
    eapply rawAt_quiet; [exact Hev|discriminate|discriminate]. }
  exists isLocalOnly, target.
  destruct Hcases
    as [(e & Hrun & -> & Hfailed)|(Hfetchq & [(out & Hrun)|(hist & Hrun)])].
  - exists (tProbe ++ tFetch)%list. split; [exact Hlocal|]. split.
    + now rewrite app_nil_r in Hearly.
    + left. exists e, tProbe, FetchOrigin. rewrite Hfailed in *.
      split; [exact Hrun|]. split; [reflexivity|exact Hprobeq].
  - exists (tProbe ++ tFetch ++ tPre)%list. split; [exact Hlocal|].
    split; [exact Hearly|]. right. split.
    + repeat (apply Forall_app; split); assumption.
    + left. now exists out.
  - destruct (worktreeMerge_anatomy o isLocalOnly target hist)
      as [(e & tAdmin & Hwm & Hadmin & init & c & -> & Hinit)
         |(tClean & out & r & tBody & removal & tSync & hist1 & hist2 & Hwm
           & Hclean & Hbody & Hinside & Hsync)];
      rewrite Hwm in Hrun; simpl in Hrun.
    + exists (tProbe ++ tFetch ++ tPre ++ init
              ++ [Exec Raw root c (Rejected e)])%list.
      split; [exact Hlocal|]. split.
      * replace (tProbe ++ tFetch ++ tPre ++ init
                 ++ [Exec Raw root c (Rejected e)])%list
          with ((tProbe ++ tFetch ++ tPre)
                ++ init ++ [Exec Raw root c (Rejected e)])%list
          by now rewrite <- !app_assoc.
        apply Forall_app. split; [exact Hearly|].
        eapply Forall_impl; [exact Hadmin|].
        intros ev (c' & res & -> & Hst & Hnot).
        exists c', res. split; [reflexivity|]. now rewrite Hst.
      * left. exists e, (tProbe ++ tFetch ++ tPre ++ init)%list, c.
        split; [exact Hrun|]. split; [now rewrite <- !app_assoc|].
        repeat (apply Forall_app; split); assumption.
    + exists ((tProbe ++ tFetch ++ tPre) ++ tClean)%list.
      split; [exact Hlocal|]. split.
      * apply Forall_app. split; [exact Hearly|].
        eapply Forall_impl; [exact Hclean|]. intros ev (out' & ->).
        eexists _, _. split; [reflexivity|]. reflexivity.
      * right. split.
        -- repeat (apply Forall_app; split); try assumption.
           eapply Forall_impl; [exact Hclean|].
           intros ev (out' & ->) e' (c' & [=] & _).
        -- right.
           eexists _, out, r, tBody, removal, tSync, hist1, hist2.
           split; [|split; [exact Hbody|split; [exact Hinside|split;
                      [exact Hsync|now eexists]]]].
           rewrite Hrun. now rewrite <- !app_assoc.
Qed.

(** The same, without what it says of failures. *)
Lemma mergeBranch_full o h :
  let root := workspaceRoot o in
  let strategy := nullish (mergeStrategy o) Squash in
  let pushes := nullish (autoPush o) true in
  let syncs := nullish (syncLocal o) true in
  exists isLocalOnly target tBefore,
    (resolveLocalOnly W o h).1 = Returned isLocalOnly
    /\ Forall (beforeMerge root isLocalOnly (nullish (preflight o) true))
         tBefore
    /\ ((exists e, mergeBranch P W o h = (Threw e, tBefore))
        \/ (exists out,
              mergeBranch P W o h
              = (Returned (preflightRejection out), tBefore))
        \/ (exists mergeDir out r tBody removal tSync hist hist',
              mergeBranch P W o h
              = (Returned r,
                 (tBefore
                  ++ Exec Raw root
                       (WorktreeAddDetach mergeDir (refOf isLocalOnly target))
                       (Resolved out)
                  :: tBody
                  ++ Exec Raw root (WorktreeRemoveForce mergeDir) removal
                  :: tSync)%list)
              /\ tryCatch
                   (mergeSteps P W root (sourceBranch o) target mergeDir
                      (messageOf o strategy target) strategy
                      (pushes && negb isLocalOnly))
                   (onMergeError P W root mergeDir strategy) hist
                 = (Returned r, tBody)
              /\ Forall (inWorktree mergeDir) tBody
              /\ syncStep W root target isLocalOnly pushes syncs r hist'
                 = (Returned tt, tSync)
              /\ exists now,
                   mergeDir = mergeDirOf P root (sourceBranch o) now)).
Proof.
  cbv zeta.
  destruct (mergeBranch_whole o h)
    as (isLocalOnly & target & tBefore & Hlocal & Hbefore
        & [(e & _ & _ & Hrun & _)|(_ & [Hrun|Hrun])]).
  - exists isLocalOnly, target, tBefore. eauto.
  - exists isLocalOnly, target, tBefore. eauto.
  - exists isLocalOnly, target, tBefore. eauto 6.
Qed.

End BodyFacts.

(** ** What a [mergeBranch] run does, and what it never does *)

Section TraceClaims.

Import Js GitMerge MergeViews.

Context (P : PathApi) (W : World).

Implicit Types (h t : list Event) (root : string).

Lemma beforeMerge_inv root lo pre via cwd c res :
  beforeMerge root lo pre (Exec via cwd c res) ->
  via = Raw /\ cwd = root /\
  match stageOf c with
  | Probing => True
  | Fetching => lo = false
  | Preflighting => pre = true
  | WorktreeAdmin => worktreeCreated (Exec via cwd c res) = false
  | _ => False
  end.
Proof. intros (c' & res' & [= -> -> -> ->] & Hst). auto. Qed.

Lemma beforeMerge_not_safe root lo pre ev :
  beforeMerge root lo pre ev ->
  match ev with
  | Exec Safe _ _ _ => False
  | _ => True
  end.
Proof. now intros (c' & res' & -> & _). Qed.

(** The events of the local sync are warnings and sync commands run with
    [execAsync] in the workspace root. *)
Lemma syncStep_raw root target isLocalOnly pushes syncs r hist tSync :
  syncStep W root target isLocalOnly pushes syncs r hist = (Returned tt, tSync) ->
  Forall (fun ev =>
            match ev with
            | Exec via cwd c _ =>
                via = Raw /\ cwd = root /\ stageOf c = Syncing
            | Warn _ => True
            end) tSync.
Proof.
  intros Hsync.
  pose proof (syncStep_Tame P W root target isLocalOnly pushes syncs r hist)
    as Htame.
  rewrite Hsync in Htame. simpl in Htame.
  eapply Forall_impl; [exact Htame|].
  intros [[|] cwd c res|msg]; simpl; [| |trivial].
  - intros (-> & Hst & _). split; [reflexivity|]. split; [reflexivity|].
    destruct (stageOf c); simpl in Hst; congruence.
  - intros (_ & Hst & _). discriminate.
Qed.

(** Splits the membership of an event in a run along the parts of the
    run. *)
Ltac in_parts Hin :=
  repeat first
    [ apply in_app_or in Hin as [Hin|Hin]
    | apply in_inv in Hin as [Hin|Hin] ].

Ltac from_before Hbefore Hin :=
  let X := fresh in
  rewrite List.Forall_forall in Hbefore;
  pose proof (beforeMerge_inv _ _ _ _ _ _ _ (Hbefore _ Hin)) as X;
  simpl in X; destruct X as (? & ? & X); subst;
  try discriminate; try contradiction; try tauto.

Ltac from_sync Hsync Hin :=
  let X := fresh in
  apply syncStep_raw in Hsync;
  rewrite List.Forall_forall in Hsync;
  pose proof (Hsync _ Hin) as X; simpl in X;
  destruct X as (? & ? & X); subst; try discriminate.




(** A run that holds a successful [git worktree add] is one that went
    through steps 3 to 8, and the directory is the one that step 3 built. *)
Lemma worktree_created o h via cwd dir ref out :
  In (Exec via cwd (WorktreeAddDetach dir ref) (Resolved out))
    (mergeBranch P W o h).2 ->
  exists isLocalOnly target tBefore r tBody removal tSync hist hist',
    mergeBranch P W o h
    = (Returned r,
       (tBefore
        ++ Exec Raw (workspaceRoot o) (WorktreeAddDetach dir ref) (Resolved out)
        :: tBody
        ++ Exec Raw (workspaceRoot o) (WorktreeRemoveForce dir) removal
        :: tSync)%list)
    /\ Forall (beforeMerge (workspaceRoot o) isLocalOnly
                 (nullish (preflight o) true)) tBefore
    /\ tryCatch
         (mergeSteps P W (workspaceRoot o) (sourceBranch o) target dir
            (messageOf o (nullish (mergeStrategy o) Squash) target)
            (nullish (mergeStrategy o) Squash)
            (nullish (autoPush o) true && negb isLocalOnly))
         (onMergeError P W (workspaceRoot o) dir
            (nullish (mergeStrategy o) Squash)) hist
       = (Returned r, tBody)
    /\ Forall (inWorktree dir) tBody
    /\ syncStep W (workspaceRoot o) target isLocalOnly
         (nullish (autoPush o) true) (nullish (syncLocal o) true) r hist'
       = (Returned tt, tSync)
    /\ exists now, dir = mergeDirOf P (workspaceRoot o) (sourceBranch o) now.
Proof.
  intros Hin.
  destruct (mergeBranch_full P W o h)
    as (isLocalOnly & target & tBefore & _ & Hbefore
        & [(e & Hrun)|[(out0 & Hrun)
           |(mergeDir & out0 & r & tBody & removal & tSync & hist & hist'
             & Hrun & Hbody & Hinside & Hsync & Hdir)]]);
    cbv zeta in *; rewrite Hrun in *; simpl in Hin |- *.
  - from_before Hbefore Hin.
  - from_before Hbefore Hin.
  - assert (Hall := Hbefore). in_parts Hin.
    + from_before Hbefore Hin.
    + injection Hin as <- <- <- <- <-.
      now exists isLocalOnly, target, tBefore, r, tBody, removal, tSync,
        hist, hist'.
    + pose proof (mergeBranch_Tame P W o h) as Htame.
      rewrite Hrun in Htame. simpl in Htame.
      rewrite List.Forall_forall in Htame, Hinside.
      specialize (Hinside _ Hin).
      assert (Hin' : In (Exec via cwd (WorktreeAddDetach dir ref)
                           (Resolved out))
                       (tBefore
                        ++ Exec Raw (workspaceRoot o)
                             (WorktreeAddDetach mergeDir
                                (refOf isLocalOnly target)) (Resolved out0)
                        :: tBody
                        ++ Exec Raw (workspaceRoot o)
                             (WorktreeRemoveForce mergeDir) removal :: tSync)).
      { apply in_or_app. right. right. apply in_or_app. now left. }
      specialize (Htame _ Hin'). destruct via; simpl in *; [tauto|].
      destruct Htame as (_ & _ & Hphase). discriminate.
    + discriminate Hin.
    + from_sync Hsync Hin.
Qed.

(** X8.  Whenever a run of [mergeBranch] has created its temporary
    worktree (a [git worktree add --detach] that succeeded), the run goes on
    to [git worktree remove --force] of that same directory, whatever the
    merge did in between: success, conflict, or any other failure.  Between
    the two, every command runs through [execGitSafe] inside the worktree;
    before and after, none does. *)
Theorem mergeBranch_removes_worktree o h via cwd dir ref out :
  In (Exec via cwd (WorktreeAddDetach dir ref) (Resolved out))
    (mergeBranch P W o h).2 ->
  exists before inside removal after,
    (mergeBranch P W o h).2
    = (before
       ++ Exec Raw (workspaceRoot o) (WorktreeAddDetach dir ref) (Resolved out)
       :: inside
       ++ Exec Raw (workspaceRoot o) (WorktreeRemoveForce dir) removal
       :: after)%list
    /\ Forall (inWorktree dir) inside
    /\ Forall (fun ev =>
                 match ev with
                 | Exec Safe _ _ _ => False
                 | _ => True
                 end) (before ++ after).
Proof.
  intros Hin.
  destruct (worktree_created o h via cwd dir ref out Hin)
    as (isLocalOnly & target & tBefore & r & tBody & removal & tSync & hist
        & hist' & Hrun & Hbefore & Hbody & Hinside & Hsync & _).
  rewrite Hrun. simpl. exists tBefore, tBody, removal, tSync.
  split; [reflexivity|]. split; [exact Hinside|].
  apply Forall_app. split.
  - eapply Forall_impl; [exact Hbefore|]. intros ev.
    apply beforeMerge_not_safe.
  - eapply Forall_impl; [exact (syncStep_raw _ _ _ _ _ _ _ _ Hsync)|].
    intros [[|] ? ? ?|?]; simpl; [trivial| |trivial].
    now intros [[=] _].
Qed.

(** Without a push to run, the [try] and [catch] blocks never talk to the
    remote. *)
Lemma mergeBody_offline root source target mergeDir message strategy :
  Emits (fun ev => contactsRemote ev = false)
    (tryCatch
       (mergeSteps P W root source target mergeDir message strategy false)
       (onMergeError P W root mergeDir strategy)).
Proof.
  apply Emits_tryCatch.
  - unfold mergeSteps, when. destruct strategy;
      repeat first
        [ apply Emits_ret | apply Emits_bind; [|intros ?]
        | apply Emits_execGitSafe; intros ? ? ];
      reflexivity.
  - intros e. unfold onMergeError. destruct (_ || _); [|apply Emits_ret].
    destruct strategy;
      repeat first
        [ apply Emits_ret | apply Emits_bind; [|intros ?]
        | apply Emits_tryCatch; [|intros ?]
        | apply Emits_execGitSafe; intros ? ? ];
      reflexivity.
Qed.

(** In local-only mode the local sync never talks to the remote. *)
Lemma syncStep_offline root target pushes syncs r :
  Emits (fun ev => contactsRemote ev = false)
    (syncStep W root target true pushes syncs r).
Proof.
  unfold syncStep. apply Emits_when. intros h.
  rewrite syncLocalBranchFromCommit_run. unfold expectedLocalSync. cbv zeta.
  destruct (git W h root (commandLine SymbolicRefShortHead)) as [out|e].
  - destruct (String.eqb _ target); destruct (git W _ root _);
      repeat constructor.
  - destruct (git W _ root _); repeat constructor.
Qed.

(** X9.  Every result that [mergeBranch] returns is well formed: a success
    carries a commit hash and neither an error nor a conflict; a failure
    carries no commit hash and a non-empty error message, and it lists
    conflict files only when it reports a conflict. *)
Theorem mergeBranch_result_shape o h r :
  (mergeBranch P W o h).1 = Returned r -> wellFormed r.
Proof.
  destruct (mergeBranch_full P W o h)
    as (isLocalOnly & target & tBefore & _ & Hbefore
        & [(e & Hrun)|[(out0 & Hrun)
           |(mergeDir & out0 & r' & tBody & removal & tSync & hist & hist'
             & Hrun & Hbody & Hinside & Hsync & Hdir)]]);
    cbv zeta in *; rewrite Hrun; simpl.
  - discriminate.
  - intros [= <-]. unfold wellFormed, preflightRejection. simpl.
    split; [reflexivity|]. split; [|discriminate].
    eexists. split; [reflexivity|discriminate].
  - intros [= <-]. eapply mergeBody_wellFormed. exact Hbody.
Qed.

(** A merge-phase command of a run was run through [execGitSafe] in the
    temporary worktree of the run, which does not resolve to the workspace
    root. *)
Lemma merge_phase_event o h via cwd c res :
  In (Exec via cwd c res) (mergeBranch P W o h).2 -> mergePhase c = true ->
  via = Safe /\ path_resolve P cwd <> path_resolve P (workspaceRoot o).
Proof.
  intros Hin Hphase. pose proof (mergeBranch_Tame P W o h) as Htame.
  rewrite List.Forall_forall in Htame. specialize (Htame _ Hin).
  destruct via; simpl in Htame.
  - destruct Htame as (_ & _ & Hno). congruence.
  - split; [reflexivity|]. tauto.
Qed.

(** X10.  A push that the remote rejects does not fail the merge: the run
    still returns a success with the commit hash, and the failure is logged
    as a warning that carries the error's message. *)
Theorem mergeBranch_tolerates_push_failure o h via cwd tg e :
  In (Exec via cwd (PushOriginHead tg) (Rejected e)) (mergeBranch P W o h).2 ->
  (exists hash,
     (mergeBranch P W o h).1
     = Returned (mkResult true (Some hash) false None None))
  /\ In (Warn (pushWarning e)) (mergeBranch P W o h).2.
Proof.
  intros Hin.
  destruct (merge_phase_event _ _ _ _ _ _ Hin eq_refl) as [-> Hne].
  destruct (mergeBranch_full P W o h)
    as (isLocalOnly & target & tBefore & _ & Hbefore
        & [(e0 & Hrun)|[(out0 & Hrun)
           |(mergeDir & out0 & r & tBody & removal & tSync & hist & hist'
             & Hrun & Hbody & Hinside & Hsync & Hdir)]]);
    cbv zeta in *; rewrite Hrun in *; simpl in Hin |- *.
  - from_before Hbefore Hin.
  - from_before Hbefore Hin.
  - in_parts Hin.
    + from_before Hbefore Hin.
    + discriminate Hin.
    + rewrite List.Forall_forall in Hinside.
      pose proof (Hinside _ Hin) as Hcwd. simpl in Hcwd. subst cwd.
      destruct (mergeBody_cases P W _ _ _ _ _ _ _ _ _ _ Hne Hbody)
        as [[[hash ->] Hall]|(before & c & e1 & res & -> & Hstep & Hok & _)].
      * rewrite List.Forall_forall in Hall.
        destruct (Hall _ Hin) as (_ & _ & _ & Hwarn).
        split; [now exists hash|].
        apply in_or_app. right. right. apply in_or_app. now left.
      * exfalso. in_parts Hin.
        -- rewrite List.Forall_forall in Hok.
           destruct (Hok _ Hin) as (c' & out & [=] & _).
        -- injection Hin as Hc He. subst c. discriminate Hstep.
        -- destruct (looksLikeConflict e1); [|destruct Hin].
           destruct Hin as [Hin|[]]. now destruct (nullish (mergeStrategy o) Squash).
    + discriminate Hin.
    + from_sync Hsync Hin.
Qed.

Lemma mergeStep_mergePhase c : mergeStep c = true -> mergePhase c = true.
Proof. now destruct c. Qed.

(** X11.  When a merge, commit or rev-parse command fails inside the
    worktree, its error alone decides the result: a conflict result, with
    the files parsed from the output, when the error's output mentions
    [CONFLICT] or [Automatic merge failed], and otherwise a plain failure
    with the output as message ([Merge failed] when there is none).  The
    merge is aborted in the worktree exactly in the conflict case; nothing
    is pushed, and the local branch is not synced. *)
Theorem mergeBranch_failure_classified o h via cwd c e :
  In (Exec via cwd c (Rejected e)) (mergeBranch P W o h).2 ->
  mergeStep c = true ->
  (mergeBranch P W o h).1
  = Returned
      (if looksLikeConflict e
       then mkResult false None true (Some "Merge conflict detected")
              (mergeConflictFiles (errorOutput e))
       else mkResult false None false
              (Some (if String.eqb (errorOutput e) ""
                     then "Merge failed" else errorOutput e))
              None)
  /\ ((exists res,
         In (Exec Safe cwd (abortOf (nullish (mergeStrategy o) Squash)) res)
           (mergeBranch P W o h).2)
      <-> looksLikeConflict e = true)
  /\ (forall via' cwd' tg res,
        ~ In (Exec via' cwd' (PushOriginHead tg) res) (mergeBranch P W o h).2)
  /\ existsb (atStage Syncing) (mergeBranch P W o h).2 = false.
Proof.
  intros Hin Hstep.
  destruct (merge_phase_event _ _ _ _ _ _ Hin (mergeStep_mergePhase _ Hstep))
    as [-> Hne].
  destruct (mergeBranch_full P W o h)
    as (isLocalOnly & target & tBefore & _ & Hbefore
        & [(e0 & Hrun)|[(out0 & Hrun)
           |(mergeDir & out0 & r & tBody & removal & tSync & hist & hist'
             & Hrun & Hbody & Hinside & Hsync & Hdir)]]);
    cbv zeta in *; rewrite Hrun in *; simpl in Hin |- *.
  - from_before Hbefore Hin.
  - from_before Hbefore Hin.
  - assert (Hbodyin : In (Exec Safe cwd c (Rejected e)) tBody).
    { in_parts Hin; trivial.
      - from_before Hbefore Hin.
      - injection Hin as _ _ <- _. discriminate Hstep.
      - injection Hin as _ _ <- _. discriminate Hstep.
      - from_sync Hsync Hin. }
    clear Hin.
    assert (Hcwd : cwd = mergeDir).
    { rewrite List.Forall_forall in Hinside. exact (Hinside _ Hbodyin). }
    subst cwd.
    destruct (mergeBody_cases P W _ _ _ _ _ _ _ _ _ _ Hne Hbody)
      as [[[hash ->] Hall]|(before & c1 & e1 & res & -> & Hstep1 & Hok & ->)].
    { exfalso. rewrite List.Forall_forall in Hall.
      destruct (Hall _ Hbodyin) as (_ & _ & -> & _). discriminate Hstep. }
    assert (He : e1 = e /\ c1 = c).
    { in_parts Hbodyin.
      - rewrite List.Forall_forall in Hok.
        destruct (Hok _ Hbodyin) as (c' & out & [=] & _).
      - now injection Hbodyin as <- <-.
      - destruct (looksLikeConflict e1); [|destruct Hbodyin].
        destruct Hbodyin as [Hab|[]]. injection Hab as Hc _. subst c.
        now destruct (nullish (mergeStrategy o) Squash). }
    destruct He as [-> ->].
    assert (Hnosync : tSync = []).
    { unfold syncStep in Hsync.
      destruct (looksLikeConflict e); simpl in Hsync; now injection Hsync. }
    subst tSync.
    split; [reflexivity|]. split; [|split].
    + split.
      * intros (res' & Hab). in_parts Hab.
        -- from_before Hbefore Hab.
        -- discriminate Hab.
        -- rewrite List.Forall_forall in Hok.
           destruct (Hok _ Hab) as (c' & out & [= <-] & Hc').
           now destruct (nullish (mergeStrategy o) Squash).
        -- injection Hab as Hc _. subst c.
           now destruct (nullish (mergeStrategy o) Squash).
        -- now destruct (looksLikeConflict e).
        -- now destruct (nullish (mergeStrategy o) Squash).
        -- destruct Hab.
      * intros Hconf. rewrite Hconf. exists res.
        apply in_or_app. right. right. apply in_or_app. left.
        apply in_or_app. right. right. now left.
    + intros via' cwd' tg res' Hpush. in_parts Hpush.
      * from_before Hbefore Hpush.
      * discriminate Hpush.
      * rewrite List.Forall_forall in Hok.
        destruct (Hok _ Hpush) as (c' & out & Heq & Hc').
        inversion Heq; subst. discriminate Hc'.
      * inversion Hpush; subst. discriminate Hstep.
      * destruct (looksLikeConflict e); [|destruct Hpush].
        destruct Hpush as [Hab|[]]. inversion Hab.
        now destruct (nullish (mergeStrategy o) Squash).
      * discriminate Hpush.
      * destruct Hpush.
    + apply not_true_is_false. intros Hex.
      apply existsb_exists in Hex as (ev & Hev & Hsy).
      destruct ev as [via' cwd' c' res'|msg]; [|discriminate Hsy].
      simpl in Hsy. apply Stage_eqb_eq in Hsy.
      in_parts Hev.
      * from_before Hbefore Hev. rewrite Hsy in *. contradiction.
      * inversion Hev; subst. discriminate Hsy.
      * rewrite List.Forall_forall in Hok.
        destruct (Hok _ Hev) as (c'' & out & Heq & Hc').
        inversion Heq; subst. destruct c''; discriminate.
      * inversion Hev; subst. destruct c'; discriminate.
      * destruct (looksLikeConflict e); [|destruct Hev].
        destruct Hev as [Hab|[]]. inversion Hab; subst.
        now destruct (nullish (mergeStrategy o) Squash).
      * inversion Hev; subst. discriminate Hsy.
      * destruct Hev.
Qed.

(** A command that a run sends through [execGitSafe] is a merge-phase
    command. *)
Lemma safe_event_phase o h cwd c res :
  In (Exec Safe cwd c res) (mergeBranch P W o h).2 -> mergePhase c = true.
Proof.
  intros Hin. pose proof (mergeBranch_Tame P W o h) as Htame.
  rewrite List.Forall_forall in Htame. specialize (Htame _ Hin).
  simpl in Htame. tauto.
Qed.

Lemma inWorktree_inv dir t via cwd c res :
  Forall (inWorktree dir) t -> In (Exec via cwd c res) t ->
  via = Safe /\ cwd = dir.
Proof.
  intros Hall Hin. rewrite List.Forall_forall in Hall.
  specialize (Hall _ Hin). now destruct via.
Qed.

(** X12.  A local-only run never talks to the remote: when the call
    resolves to local-only (by its [localOnly] option, or because the
    repository has no remote [origin]), the run holds no [git fetch] and no
    [git push], whatever the other options say. *)
Theorem mergeBranch_local_only_offline o h :
  (resolveLocalOnly W o h).1 = Returned true ->
  existsb contactsRemote (mergeBranch P W o h).2 = false.
Proof.
  intros Hlocal.
  destruct (mergeBranch_full P W o h)
    as (isLocalOnly & target & tBefore & Hlo & Hbefore & Hcases).
  rewrite Hlocal in Hlo. injection Hlo as <-. cbv zeta in *.
  assert (Hquiet : existsb contactsRemote tBefore = false).
  { apply not_true_is_false. intros Hex.
    apply existsb_exists in Hex as (ev & Hin & Hev).
    destruct ev as [via cwd c res|msg]; [|discriminate Hev].
    from_before Hbefore Hin.
    destruct c; simpl in *; try discriminate; contradiction. }
  destruct Hcases
    as [(e & Hrun)|[(out0 & Hrun)
       |(mergeDir & out0 & r & tBody & removal & tSync & hist & hist'
         & Hrun & Hbody & Hinside & Hsync & Hdir)]];
    rewrite Hrun; simpl; try exact Hquiet.
  rewrite existsb_app, Hquiet. simpl. rewrite existsb_app. simpl.
  rewrite andb_false_r in Hbody.
  pose proof (mergeBody_offline (workspaceRoot o) (sourceBranch o) target
                mergeDir
                (messageOf o (nullish (mergeStrategy o) Squash) target)
                (nullish (mergeStrategy o) Squash) hist) as Hb.
  rewrite Hbody in Hb. simpl in Hb.
  pose proof (syncStep_offline (workspaceRoot o) target
                (nullish (autoPush o) true) (nullish (syncLocal o) true) r
                hist') as Hs.
  rewrite Hsync in Hs. simpl in Hs.
  apply orb_false_intro; apply not_true_is_false; intros Hex;
    apply existsb_exists in Hex as (ev & Hin & Hev);
    rewrite List.Forall_forall in Hb, Hs.
  - rewrite (Hb _ Hin) in Hev. discriminate.
  - rewrite (Hs _ Hin) in Hev. discriminate.
Qed.

(** X13.  The switches of [mergeBranch] are honoured: with
    [preflight: false] the run holds no pre-flight command (no merge-base,
    no merge-tree), and with [autoPush: false] it never pushes. *)
Theorem mergeBranch_switches o h :
  (nullish (preflight o) true = false ->
   existsb (atStage Preflighting) (mergeBranch P W o h).2 = false)
  /\ (nullish (autoPush o) true = false ->
      forall via cwd tg res,
        ~ In (Exec via cwd (PushOriginHead tg) res) (mergeBranch P W o h).2).
Proof.
  pose proof (safe_event_phase o h) as Hphase.
  destruct (mergeBranch_full P W o h)
    as (isLocalOnly & target & tBefore & _ & Hbefore & Hcases).
  cbv zeta in *. split.
  - intros Hoff. rewrite Hoff in Hbefore.
    apply not_true_is_false. intros Hex.
    apply existsb_exists in Hex as (ev & Hin & Hev).
    destruct ev as [via cwd c res|msg]; [|discriminate Hev].
    simpl in Hev. apply Stage_eqb_eq in Hev.
    destruct Hcases
      as [(e & Hrun)|[(out0 & Hrun)
         |(mergeDir & out0 & r & tBody & removal & tSync & hist & hist'
           & Hrun & Hbody & Hinside & Hsync & Hdir)]];
      rewrite Hrun in *; simpl in Hin.
    + from_before Hbefore Hin. rewrite Hev in *. discriminate.
    + from_before Hbefore Hin. rewrite Hev in *. discriminate.
    + assert (Hin' := Hin). in_parts Hin.
      * from_before Hbefore Hin. rewrite Hev in *. discriminate.
      * inversion Hin; subst. discriminate Hev.
      * destruct (inWorktree_inv _ _ _ _ _ _ Hinside Hin) as [-> ->].
        apply Hphase in Hin'. unfold mergePhase in Hin'.
        rewrite Hev in Hin'. discriminate.
      * inversion Hin; subst. discriminate Hev.
      * from_sync Hsync Hin. congruence.
  - intros Hoff via cwd tg res Hin.
    destruct Hcases
      as [(e & Hrun)|[(out0 & Hrun)
         |(mergeDir & out0 & r & tBody & removal & tSync & hist & hist'
           & Hrun & Hbody & Hinside & Hsync & Hdir)]];
      rewrite Hrun in *; simpl in Hin.
    + from_before Hbefore Hin.
    + from_before Hbefore Hin.
    + in_parts Hin.
      * from_before Hbefore Hin.
      * discriminate Hin.
      * rewrite Hoff in Hbody. simpl in Hbody.
        pose proof (mergeBody_offline (workspaceRoot o) (sourceBranch o) target
                      mergeDir
                      (messageOf o (nullish (mergeStrategy o) Squash) target)
                      (nullish (mergeStrategy o) Squash) hist) as Hb.
        rewrite Hbody in Hb. simpl in Hb. rewrite List.Forall_forall in Hb.
        specialize (Hb _ Hin). discriminate Hb.
      * discriminate Hin.
      * from_sync Hsync Hin.
Qed.

End TraceClaims.


(** ** Branch detection and local sync never fail *)

Section DetectClaims.

Import Js GitMerge MergeViews.

Context (W : World).

(** Every capture of a scan satisfies what the matcher guarantees. *)
Lemma scanAll_Forall {A} (matchAt : string -> option (A * nat))
    (Q : A -> Prop) skip s :
  (forall s' a n, matchAt s' = Some (a, n) -> Q a) ->
  Forall Q (scanAll matchAt skip s).
Proof.
  intros Hq. revert skip. induction s as [|ch rest IH]; intros skip; simpl;
    [constructor|].
  destruct skip as [|k]; [|apply IH].
  destruct (matchAt (String ch rest)) as [[a len]|] eqn:Hm; [|apply IH].
  constructor; [now apply (Hq _ _ _ Hm)|apply IH].
Qed.

(** The branch that [/refs\/remotes\/origin\/(.+)/] captures is not
    empty. *)
Lemma matchOriginHead_nonempty s b :
  matchOriginHead s = Some b -> b <> ""%string.
Proof.
  unfold matchOriginHead, scanFirst. intros Hhead.
  assert (Hall : Forall (fun b => b <> ""%string)
                   (scanAll (matchLiteralDotPlus "refs/remotes/origin/") 0 s)).
  { apply scanAll_Forall. intros s' a n. unfold matchLiteralDotPlus.
    destruct (String.prefix _ s'); [|discriminate].
    destruct (dotPlus _); [discriminate|]. now intros [= <- _]. }
  destruct (scanAll _ 0 s) as [|b' rest]; [discriminate|].
  injection Hhead as <-. now inversion Hall.
Qed.

Ltac ask_world :=
  repeat match goal with
    | |- context [git W ?hh ?cwd ?cmd] =>
        let res := fresh "res" in
        destruct (git W hh cwd cmd) as [res|res]; cbn
    | |- context [matchOriginHead ?s] =>
        let b := fresh "b" in
        let Hb := fresh "Hb" in
        destruct (matchOriginHead s) as [b|] eqn:Hb; cbn
    end.

(** X7.  [detectTargetBranch] always returns, and what it returns is a
    non-empty branch name: no failure of [git] makes it throw.  It only
    runs read-only probes in the workspace root, six at most. *)
Theorem detectTargetBranch_total root h :
  exists branch,
    (detectTargetBranch W root h).1 = Returned branch
    /\ branch <> ""%string
    /\ Forall (rawAt root Probing) (detectTargetBranch W root h).2
    /\ (length (detectTargetBranch W root h).2 <= 6)%nat.
Proof.
  pose proof (detectTargetBranch_probes W root h) as Hprobes.
  revert Hprobes.
  unfold detectTargetBranch, hasRemote, tryRemoteBranches, tryLocalBranches,
    orFallThrough, tryCatch, bind, execAsync, ret.
  cbn. ask_world; intros Hprobes; eexists; (split; [reflexivity|]);
    (split; [first [discriminate|eapply matchOriginHead_nonempty; eassumption]|]);
    (split; [exact Hprobes|simpl; lia]).
Qed.

(** X21.  The local sync is best effort.  [syncLocalBranch] and
    [syncLocalBranchFromCommit] always return, whatever git answers, and
    each logs a warning exactly when it has not moved the local branch.
    Both read the current branch with [git symbolic-ref --short HEAD] and
    trim the answer.  [syncLocalBranch] skips the update exactly when that
    command fails or answers white space only, and then logs the
    detached-HEAD warning; otherwise it runs
    [git merge --ff-only origin/<target>] when the trimmed answer is the
    target and [git fetch origin <target>:<target>] when it is not.
    [syncLocalBranchFromCommit] always runs an update:
    [git merge --ff-only <commit>] when the command succeeds and the trimmed
    answer is the target, [git branch -f <target> <commit>] otherwise, also
    on a detached HEAD.  Neither runs more than two commands. *)
Theorem syncLocalBranch_best_effort root target hash h :
  let remote := syncLocalBranch W root target h in
  let local := syncLocalBranchFromCommit W root target hash h in
  let head := git W h root (commandLine SymbolicRefShortHead) in
  let current := match head with
                 | Resolved out => trim (stdout out)
                 | Rejected _ => ""%string
                 end in
  let onTarget := match head with
                  | Resolved out => String.eqb (trim (stdout out)) target
                  | Rejected _ => false
                  end in
  remote.1 = Returned tt /\ local.1 = Returned tt
  /\ existsb isWarning remote.2 = negb (existsb movedBranch remote.2)
  /\ existsb isWarning local.2 = negb (existsb movedBranch local.2)
  /\ (existsb updatesLocalBranch remote.2 = false <-> current = ""%string)
  /\ (In (Warn detachedHeadWarning) remote.2 <-> current = ""%string)
  /\ (current <> ""%string ->
      exists res,
        In (Exec Raw root
              (if String.eqb current target
               then MergeFfOnly ("origin/" ++ target)
               else FetchOriginRef target) res) remote.2)
  /\ (exists res,
        In (Exec Raw root
              (if onTarget then MergeFfOnly hash else BranchForce target hash)
              res) local.2)
  /\ (length (List.filter (fun ev => negb (isWarning ev)) remote.2) <= 2)%nat
  /\ (length (List.filter (fun ev => negb (isWarning ev)) local.2) <= 2)%nat.
Proof.
  cbv zeta. rewrite syncLocalBranch_run, syncLocalBranchFromCommit_run.
  unfold expectedRemoteSync, expectedLocalSync. cbv zeta. cbn [fst snd].
  split; [reflexivity|]. split; [reflexivity|].
  destruct (git W h root (commandLine SymbolicRefShortHead)) as [out|e];
    [destruct (String.eqb_spec (trim (stdout out)) "") as [Hempty|Hfull];
     destruct (String.eqb (trim (stdout out)) target)|];
    repeat match goal with
      | |- context [git W ?hh root ?cmd] => destruct (git W hh root cmd)
      end;
    cbn; repeat split; try lia; try discriminate; try congruence; auto;
    try (eexists; auto; fail);
    try (intros _; eexists; auto; fail);
    intros Hin;
    repeat (destruct Hin as [Hin|Hin]; [discriminate Hin|]);
    contradiction.
Qed.

End DetectClaims.

(** ** The run theorems on the example repositories *)

Section TraceWitnesses.

Import Js GitMerge MergeViews Scenario MoreScenarios.

Ltac in_run := vm_compute; repeat (first [left; reflexivity | right]).

Lemma mergeBranch_removes_worktree_witness :
  exists before inside removal after,
    (mergeBranch posix (world cloneRepo) defaults []).2
    = (before
       ++ Exec Raw "/repo" (WorktreeAddDetach mergeDir "origin/main") (ok "")
       :: inside
       ++ Exec Raw "/repo" (WorktreeRemoveForce mergeDir) removal
       :: after)%list
    /\ Forall (inWorktree mergeDir) inside
    /\ Forall (fun ev =>
                 match ev with
                 | Exec Safe _ _ _ => False
                 | _ => True
                 end) (before ++ after).
Proof.
  apply (mergeBranch_removes_worktree posix (world cloneRepo) defaults []
           Raw "/repo" mergeDir "origin/main" (mkOut "" "")).
  in_run.
Defined.

Lemma mergeBranch_result_shape_witness :
  wellFormed (mkResult true (Some "abc123") false None None).
Proof.
  apply (mergeBranch_result_shape posix (world cloneRepo) defaults []).
  vm_compute. reflexivity.
Defined.

Lemma mergeBranch_tolerates_push_failure_witness :
  (exists hash,
     (mergeBranch posix (world pushRejectedRepo) defaults []).1
     = Returned (mkResult true (Some hash) false None None))
  /\ In (Warn "[git/merge] Failed to push to remote: Command failed: git push origin HEAD:main")
       (mergeBranch posix (world pushRejectedRepo) defaults []).2.
Proof.
  apply (mergeBranch_tolerates_push_failure posix (world pushRejectedRepo)
           defaults [] Safe mergeDir "main"
           (mkErr "Command failed: git push origin HEAD:main" (Some "")
              (Some "! [rejected] HEAD -> main (fetch first)"))).
  in_run.
Defined.

Lemma mergeBranch_failure_classified_witness :
  (mergeBranch posix (world squashConflictRepo) defaults []).1
  = Returned (mkResult false None true (Some "Merge conflict detected")
                (Some ["src/app.ts"]))
  /\ existsb (atStage Syncing)
       (mergeBranch posix (world squashConflictRepo) defaults []).2 = false.
Proof.
  destruct (mergeBranch_failure_classified posix (world squashConflictRepo)
              defaults [] Safe mergeDir (MergeSquash "feature/x")
              (mkErr "Command failed: git merge --squash feature/x"
                 (Some ("CONFLICT (content): Merge conflict in src/app.ts"
                        ++ lf ++ "Automatic merge failed; fix conflicts"
                        ++ lf))
                 (Some "")))
    as (Hresult & _ & _ & Hsync); [in_run|reflexivity|].
  split; [exact Hresult|exact Hsync].
Defined.

Lemma mergeBranch_local_only_offline_witness :
  existsb contactsRemote (mergeBranch posix (world cloneRepo) localCall []).2
  = false.
Proof.
  apply (mergeBranch_local_only_offline posix (world cloneRepo) localCall []).
  reflexivity.
Defined.


(** White space is trimmed as JavaScript trims it, and the name of the
    worktree replaces code units: a no-break space after a branch name is
    dropped, a character outside ASCII becomes one dash. *)
Example trim_and_replace_unicode :
  trim (" main" ++ nbsp ++ lf) = "main"
  /\ trim (nbsp ++ lf) = ""
  /\ sanitize ("feat/" ++ eAcute) = "feat--".
Proof. vm_compute. repeat split. Qed.

(** On a branch called [main] with a no-break space after it, the sync of
    the default call takes the workspace to be on [main] and fast-forwards
    in place. *)
Example sync_on_a_branch_with_a_trimmed_name :
  let run := (mergeBranch posix (world nbspBranchRepo) defaults []).2 in
  skipn (length run - 2) run
  = [Exec Raw "/repo" SymbolicRefShortHead (ok ("main" ++ nbsp ++ lf));
     Exec Raw "/repo" (MergeFfOnly "origin/main") (ok "")].
Proof. vm_compute. reflexivity. Qed.

End TraceWitnesses.

(** ** The temporary worktree under POSIX paths *)

Section PosixClaims.

Import Js NodePath GitMerge MergeViews PathViews.

Open Scope string_scope.

Lemma concat_nonempty sep (seg : string) segs :
  seg <> "" -> String.concat sep (seg :: segs) <> "".
Proof.
  destruct seg as [|c seg]; [congruence|]. intros _.
  destruct segs; [discriminate|]. rewrite concat_cons2. discriminate.
Qed.

Lemma append_longer (a b : string) : b <> "" -> a ++ b <> a.
Proof.
  intros Hb Heq. apply (f_equal String.length) in Heq.
  rewrite string_app_length in Heq. destruct b; [congruence|].
  cbn [String.length] in Heq. lia.
Qed.

(** The directory of the temporary worktree never resolves to the
    workspace root. *)
Lemma mergeDir_not_root cwd root source now :
  resolve cwd (mergeDirOf (posix cwd) root source now) <> resolve cwd root.
Proof.
  unfold mergeDirOf. cbn [posix path_join].
  fold (mergeDirName source now).
  destruct (resolve_worktree cwd root _ (mergeDirName_ordinary source now))
    as (segs & Hsegs & Hroot & Hdir).
  rewrite Hdir, Hroot. rewrite concat_app by discriminate.
  destruct segs as [|seg segs].
  - apply (append_longer "/"). discriminate.
  - rewrite <- (string_app_assoc "/"). apply append_longer. discriminate.
Qed.

(** X14.  With Node's POSIX [path], the directory of the temporary
    worktree resolves to the resolved workspace root followed by
    [/.stoneforge/.worktrees/_merge-<branch>-<time>], where [<branch>] is
    the source branch with every UTF-16 code unit outside [[a-zA-Z0-9-]]
    replaced by [-] (so a character outside ASCII gives one dash, or two
    when it lies beyond U+FFFF): it lies inside the workspace whatever the
    root ([..] segments, a relative or an empty root) and whatever the
    branch name, and it never resolves to the root itself. *)
Theorem mergeDir_below_root cwd root source now :
  let P := posix cwd in
  let mergeDir := mergeDirOf P root source now in
  path_resolve P mergeDir
  = (if String.eqb (path_resolve P root) "/" then "" else path_resolve P root)
    ++ "/.stoneforge/.worktrees/" ++ mergeDirName source now
  /\ path_resolve P mergeDir <> path_resolve P root.
Proof.
  cbv zeta. split; [|apply mergeDir_not_root].
  unfold mergeDirOf. cbn [posix path_join path_resolve].
  fold (mergeDirName source now).
  destruct (resolve_worktree cwd root _ (mergeDirName_ordinary source now))
    as (segs & Hsegs & Hroot & Hdir).
  rewrite Hdir, Hroot. rewrite concat_app by discriminate.
  destruct segs as [|seg segs]; [reflexivity|].
  inversion Hsegs as [|? ? [_ Hseg] _]; subst.
  pose proof (concat_nonempty "/" seg segs Hseg) as Hne.
  set (joined := String.concat "/" (seg :: segs)) in *.
  assert (Hnot : ("/" ++ joined =? "/") = false).
  { destruct joined; [congruence|reflexivity]. }
  rewrite Hnot. now rewrite (string_app_assoc "/" joined).
Qed.

End PosixClaims.

Section PosixRuns.

Import Js NodePath GitMerge MergeViews PathViews.

Context (cwd : string) (W : World).

(** X15.  With Node's POSIX [path], the guard of [execGitSafe] never
    stops [mergeBranch]: the worktree that a run has created does not
    resolve to the workspace root, and the run goes on to the merge command
    ([git merge --squash], or [git merge --no-ff] for the merge strategy)
    inside that worktree. *)
Theorem mergeBranch_posix_merges o h via dir' dir ref out :
  In (Exec via dir' (WorktreeAddDetach dir ref) (Resolved out))
    (mergeBranch (posix cwd) W o h).2 ->
  resolve cwd dir <> resolve cwd (workspaceRoot o)
  /\ exists target res,
       In (Exec Safe dir
             (mergeCommand (nullish (mergeStrategy o) Squash) (sourceBranch o)
                (messageOf o (nullish (mergeStrategy o) Squash) target))
             res)
         (mergeBranch (posix cwd) W o h).2.
Proof.
  intros Hin.
  destruct (worktree_created (posix cwd) W o h via dir' dir ref out Hin)
    as (isLocalOnly & target & tBefore & r & tBody & removal & tSync & hist
        & hist' & Hrun & _ & Hbody & _ & _ & now & ->).
  pose proof (mergeDir_not_root cwd (workspaceRoot o) (sourceBranch o) now)
    as Hne.
  split; [exact Hne|].
  destruct (mergeBody_first (posix cwd) W _ _ _ _ _ _ _ _ _ _ Hne Hbody)
    as (res & rest & ->).
  exists target, res. rewrite Hrun. simpl.
  apply in_or_app. right. right. now left.
Qed.

End PosixRuns.

Section PosixWitnesses.

Import Js GitMerge MergeViews Scenario.

Lemma mergeBranch_posix_merges_witness :
  NodePath.resolve "/home/dev" mergeDir <> NodePath.resolve "/home/dev" "/repo"
  /\ exists target res,
       In (Exec Safe mergeDir
             (mergeCommand Squash "feature/x"
                (messageOf defaults Squash target)) res)
         (mergeBranch posix (world cloneRepo) defaults []).2.
Proof.
  apply (mergeBranch_posix_merges "/home/dev" (world cloneRepo) defaults []
           Raw "/repo" mergeDir "origin/main" (mkOut "" "")).
  vm_compute. repeat (first [left; reflexivity | right]).
Defined.

End PosixWitnesses.

(** ** Parsing what git prints *)

Section ReportFacts.

Import Js GitMerge GitReport.

Open Scope string_scope.

Lemma prefix_cons a l b s :
  String.prefix (String a l) (String b s)
  = if ascii_dec a b then String.prefix l s else false.
Proof. reflexivity. Qed.

Lemma prefix_empty s : String.prefix "" s = true.
Proof. now destruct s. Qed.

Lemma prefix_app a b : String.prefix a (a ++ b) = true.
Proof.
  induction a as [|c a IH]; [apply prefix_empty|].
  rewrite append_cons, prefix_cons. now destruct (ascii_dec c c).
Qed.

(** A literal without a line feed that is no prefix of a text is no
    prefix of the text followed by a line feed and more. *)
Lemma prefix_line lit text rest :
  lacks "010" lit = true ->
  String.prefix lit text = false ->
  String.prefix lit (text ++ LF ++ rest) = false.
Proof.
  revert text. induction lit as [|a lit IH]; intros text Hlacks Hno.
  - now rewrite prefix_empty in Hno.
  - cbn [lacks] in Hlacks. apply andb_prop in Hlacks as [Ha Hlacks].
    apply negb_true_iff, Ascii.eqb_neq in Ha.
    destruct text as [|b text].
    + change ("" ++ LF ++ rest) with (String "010" rest).
      rewrite prefix_cons. now destruct (ascii_dec a "010").
    + rewrite append_cons, prefix_cons. rewrite prefix_cons in Hno.
      destruct (ascii_dec a b); [now apply IH|reflexivity].
Qed.

Lemma dropStr_app a b : dropStr (String.length a) (a ++ b) = b.
Proof. induction a as [|c a IH]; [reflexivity|exact IH]. Qed.

Lemma substring_app a b : String.substring 0 (String.length a) (a ++ b) = a.
Proof.
  induction a as [|c a IH]; [now destruct b|].
  rewrite append_cons. cbn [String.length String.substring]. now rewrite IH.
Qed.

Lemma notParenPlus_app kind rest :
  notParenPlus kind = kind -> notParenPlus (kind ++ ")" ++ rest) = kind.
Proof.
  induction kind as [|c kind IH]; [reflexivity|].
  rewrite append_cons. cbn [notParenPlus].
  destruct (Ascii.eqb c ")"); [discriminate|].
  intros [= Hkind]. now rewrite IH.
Qed.

(** A line feed behind a text does not complete a line terminator of
    three bytes. *)
Lemma startsWithLineTerminator_app c path rest :
  startsWithLineTerminator (String c path) = false ->
  startsWithLineTerminator (String c (path ++ LF ++ rest)) = false.
Proof.
  cbn [startsWithLineTerminator]. intros [-> Hthree]%orb_false_elim.
  cbn [orb]. unfold LF.
  destruct path as [|c2 [|c3 tail]].
  - rewrite append_nil_l, append_cons, append_nil_l.
    destruct rest as [|c3 tail]; [reflexivity|].
    unfold isLineTerminator3. cbn. now rewrite andb_false_r.
  - rewrite !append_cons, !append_nil_l.
    unfold isLineTerminator3. cbn. now rewrite andb_false_r.
  - rewrite !append_cons. exact Hthree.
Qed.

Lemma dotPlus_app path rest :
  dotPlus path = path -> dotPlus (path ++ LF ++ rest) = path.
Proof.
  induction path as [|c path IH]; [reflexivity|].
  rewrite append_cons. cbn [dotPlus].
  destruct (startsWithLineTerminator (String c path)) eqn:Hstart;
    [discriminate|].
  rewrite (startsWithLineTerminator_app c path rest Hstart).
  intros [= Hpath]. now rewrite IH.
Qed.

Lemma plainPath_inv path :
  plainPath path = true -> path <> "" /\ dotPlus path = path.
Proof.
  unfold plainPath. intros [Hne Hdot]%andb_prop.
  apply negb_true_iff, String.eqb_neq in Hne.
  now apply String.eqb_eq in Hdot.
Qed.

(** ** Scanning *)

Lemma scanAll_skip {A} (matchAt : string -> option (A * nat)) m rest :
  scanAll matchAt (String.length m) (m ++ rest) = scanAll matchAt 0 rest.
Proof.
  induction m as [|c m IH]; [reflexivity|].
  rewrite append_cons. cbn [String.length scanAll]. exact IH.
Qed.

(** A match at the start of the text: the scan resumes behind it. *)
Lemma scanAll_match {A} (matchAt : string -> option (A * nat)) m rest a :
  m <> "" ->
  matchAt (m ++ rest) = Some (a, String.length m) ->
  scanAll matchAt 0 (m ++ rest) = a :: scanAll matchAt 0 rest.
Proof.
  destruct m as [|c m]; [congruence|]. intros _ Hm.
  rewrite append_cons in *. cbn [scanAll]. rewrite Hm.
  cbn [String.length Nat.pred]. now rewrite scanAll_skip.
Qed.

Lemma scanAll_hit {A} (matchAt : string -> option (A * nat)) c rest a len :
  matchAt (String c rest) = Some (a, len) ->
  scanAll matchAt 0 (String c rest)
  = a :: scanAll matchAt (Nat.pred len) rest.
Proof. intros Hm. cbn [scanAll]. now rewrite Hm. Qed.

Lemma scanAll_miss {A} (matchAt : string -> option (A * nat)) c rest :
  matchAt (String c rest) = None ->
  scanAll matchAt 0 (String c rest) = scanAll matchAt 0 rest.
Proof. intros Hm. cbn [scanAll]. now rewrite Hm. Qed.

(** A text that does not hold the literal with which every match starts
    adds nothing to a scan, whether it is a line or the end of the
    output. *)
Lemma scanAll_text_line {A} (matchAt : string -> option (A * nat)) lit text
    rest :
  (forall s, String.prefix lit s = false -> matchAt s = None) ->
  lacks "010" lit = true ->
  includes lit text = false ->
  scanAll matchAt 0 (text ++ LF ++ rest) = scanAll matchAt 0 rest.
Proof.
  intros Hlit Hlacks. induction text as [|c text IH]; intros Hno.
  - change ("" ++ LF ++ rest) with (String "010" rest).
    apply scanAll_miss, Hlit.
    change (String "010" rest) with ("" ++ LF ++ rest).
    apply prefix_line; [exact Hlacks|].
    destruct lit; [discriminate Hno|reflexivity].
  - cbn [includes] in Hno. apply orb_false_elim in Hno as [Hhere Hlater].
    rewrite append_cons, scanAll_miss; [now apply IH|].
    apply Hlit. rewrite <- append_cons. now apply prefix_line.
Qed.

Lemma scanAll_text_end {A} (matchAt : string -> option (A * nat)) lit text :
  (forall s, String.prefix lit s = false -> matchAt s = None) ->
  includes lit text = false ->
  scanAll matchAt 0 text = [].
Proof.
  intros Hlit. induction text as [|c text IH]; intros Hno; [reflexivity|].
  cbn [includes] in Hno. apply orb_false_elim in Hno as [Hhere Hlater].
  rewrite scanAll_miss; [now apply IH|now apply Hlit].
Qed.

(** ** The report of a conflict *)

Lemma matchConflictAt_prefix s :
  String.prefix "CONFLICT (" s = false -> matchConflictAt s = None.
Proof. intros Hno. unfold matchConflictAt. now rewrite Hno. Qed.

Lemma matchLiteralDotPlus_prefix lit s :
  String.prefix lit s = false -> matchLiteralDotPlus lit s = None.
Proof. intros Hno. unfold matchLiteralDotPlus. now rewrite Hno. Qed.

Lemma plainKind_inv kind :
  plainKind kind = true ->
  kind <> "" /\ notParenPlus kind = kind /\ includes "in " kind = false.
Proof.
  unfold plainKind. intros [[Hne Hparen]%andb_prop Hin]%andb_prop.
  apply negb_true_iff, String.eqb_neq in Hne.
  apply String.eqb_eq in Hparen. now apply negb_true_iff in Hin.
Qed.

(** The regular expression of the [catch] block matches a conflict line as
    a whole. *)
Lemma matchConflictAt_line kind path rest :
  plainKind kind = true -> plainPath path = true ->
  matchConflictAt (mergeLine (ConflictIn kind path) ++ LF ++ rest)
  = Some (mergeLine (ConflictIn kind path),
          String.length (mergeLine (ConflictIn kind path))).
Proof.
  intros (Hkind & Hparen & _)%plainKind_inv (Hpath & Hdot)%plainPath_inv.
  cbn [mergeLine]. rewrite !string_app_assoc.
  set (close := "): Merge conflict in ").
  unfold matchConflictAt. rewrite prefix_app, dropStr_app.
  change (close ++ path ++ LF ++ rest)
    with (")" ++ (": Merge conflict in " ++ path ++ LF ++ rest)).
  rewrite (notParenPlus_app kind _ Hparen).
  change (")" ++ (": Merge conflict in " ++ path ++ LF ++ rest))
    with (close ++ path ++ LF ++ rest).
  rewrite <- string_app_length.
  rewrite <- (string_app_assoc "CONFLICT (" kind), dropStr_app.
  fold close. rewrite prefix_app, dropStr_app, (dotPlus_app path rest Hdot).
  rewrite <- !string_app_length.
  rewrite <- (string_app_assoc _ close), <- (string_app_assoc _ path).
  rewrite substring_app.
  destruct kind; [congruence|]. destruct path; [congruence|].
  now rewrite !string_app_assoc.
Qed.

Lemma matchInTailAt_prefix s :
  String.prefix "in " s = false -> matchInTailAt s = None.
Proof. intros Hno. unfold matchInTailAt. now rewrite Hno. Qed.

(** [/in (.+)$/] finds nothing inside a conflict kind. *)
Lemma scanAll_kind kind rest :
  includes "in " kind = false ->
  scanAll matchInTailAt 0 (kind ++ "): " ++ rest)
  = scanAll matchInTailAt 0 ("): " ++ rest).
Proof.
  induction kind as [|c kind IH]; [reflexivity|]. intros Hno.
  cbn [includes] in Hno. apply orb_false_elim in Hno as [Hhere Hlater].
  rewrite append_cons, scanAll_miss; [now apply IH|].
  apply matchInTailAt_prefix. clear IH Hlater.
  destruct kind as [|c2 [|c3 kind]];
    rewrite ?append_cons, ?append_nil_l;
    change ("): " ++ rest) with (String ")" (String ":" (String " " rest)));
    rewrite ?prefix_cons in *;
    repeat match goal with
      | |- context [ascii_dec ?a ?b] => destruct (ascii_dec a b)
      end;
    try reflexivity; try discriminate.
  now rewrite prefix_empty in Hhere.
Qed.

(** The callback of the [catch] block gets the path out of a conflict
    line. *)
Lemma conflictFileOf_line kind path :
  plainKind kind = true -> plainPath path = true ->
  conflictFileOf (mergeLine (ConflictIn kind path)) = path.
Proof.
  intros (_ & _ & Hin)%plainKind_inv (Hpath & Hdot)%plainPath_inv.
  unfold conflictFileOf, scanFirst. cbn [mergeLine].
  change ("): Merge conflict in " ++ path)
    with ("): " ++ ("Merge conflict in " ++ path)).
  set (tail := "Merge conflict in " ++ path).
  set (line := kind ++ "): " ++ tail).
  rewrite !append_cons, append_nil_l.
  rewrite !scanAll_miss by reflexivity.
  subst line. rewrite (scanAll_kind kind _ Hin). subst tail.
  rewrite !append_cons, !append_nil_l.
  rewrite !scanAll_miss by reflexivity.
  assert (Hm : matchInTailAt (String "i" (String "n" (String " " path)))
               = Some (path, String.length
                               (String "i" (String "n" (String " " path))))).
  { unfold matchInTailAt. rewrite !prefix_cons, prefix_empty.
    cbn [dropStr]. rewrite Hdot, String.eqb_refl.
    destruct path; [congruence|reflexivity]. }
  now rewrite (scanAll_hit _ _ _ _ _ Hm).
Qed.

(** What the scan of the [catch] block finds in a report: its conflict
    lines. *)
Lemma scan_merge_report lines tail :
  forallb plainMergeLine lines = true ->
  includes "CONFLICT (" tail = false ->
  scanAll matchConflictAt 0 (report mergeLine lines tail)
  = omap (fun l => match l with
                   | ConflictIn _ _ => Some (mergeLine l)
                   | MergeText _ => None
                   end) lines.
Proof.
  intros Hlines Htail. induction lines as [|l lines IH].
  - apply (scanAll_text_end _ "CONFLICT (");
      [exact matchConflictAt_prefix|exact Htail].
  - cbn [forallb] in Hlines. apply andb_prop in Hlines as [Hl Hlines].
    cbn [report omap list_omap]. destruct l as [kind path|text].
    + cbn [plainMergeLine] in Hl. apply andb_prop in Hl as [Hkind Hpath].
      assert (Hne : mergeLine (ConflictIn kind path) <> "").
      { cbn [mergeLine]. rewrite append_cons. discriminate. }
      rewrite (scanAll_match _ _ _ _ Hne
                 (matchConflictAt_line kind path _ Hkind Hpath)).
      change (LF ++ ?rest) with (String "010" rest).
      rewrite scanAll_miss by reflexivity. now rewrite IH.
    + cbn [plainMergeLine mergeLine] in *. apply negb_true_iff in Hl.
      rewrite (scanAll_text_line _ "CONFLICT (");
        [now apply IH|exact matchConflictAt_prefix|reflexivity|exact Hl].
Qed.

(** X22.  The parser of the [catch] block reads a report of [git merge]
    back: when the output consists of lines, each ended by a line feed,
    that are either [CONFLICT (<kind>): Merge conflict in <path>] or text
    without [CONFLICT (], followed by such a text, then [conflictFiles] is
    the list of the paths, in order, and [undefined] when no line reports a
    conflict.  (A kind that held the text [in ] with its space would be
    read as part of the path; such kinds are excluded.) *)
Theorem mergeConflictFiles_report lines tail :
  forallb plainMergeLine lines = true ->
  includes "CONFLICT (" tail = false ->
  mergeConflictFiles (report mergeLine lines tail)
  = match omap conflictPath lines with
    | [] => None
    | files => Some files
    end.
Proof.
  intros Hlines Htail. unfold mergeConflictFiles.
  rewrite (scan_merge_report lines tail Hlines Htail). clear Htail.
  assert (Hfiles :
    List.filter (fun f => negb (String.eqb f ""))
      (List.map conflictFileOf
         (omap (fun l => match l with
                         | ConflictIn _ _ => Some (mergeLine l)
                         | MergeText _ => None
                         end) lines))
    = omap conflictPath lines).
  { induction lines as [|l lines IH]; [reflexivity|].
    cbn [forallb] in Hlines. apply andb_prop in Hlines as [Hl Hlines].
    cbn [omap list_omap]. destruct l as [kind path|text];
      [|now apply IH].
    cbn [plainMergeLine] in Hl. apply andb_prop in Hl as [Hkind Hpath].
    cbn [conflictPath List.map List.filter].
    rewrite (conflictFileOf_line kind path Hkind Hpath).
    destruct (plainPath_inv _ Hpath) as [Hne _].
    apply String.eqb_neq in Hne. rewrite Hne. cbn [negb].
    now rewrite IH. }
  assert (Hlen :
    length (omap (fun l => match l with
                           | ConflictIn _ _ => Some (mergeLine l)
                           | MergeText _ => None
                           end) lines)
    = length (omap conflictPath lines)).
  { clear. induction lines as [|[kind path|text] lines IH];
      cbn [omap list_omap conflictPath length]; congruence. }
  rewrite <- Hfiles in *.
  destruct (omap _ lines) as [|m ms]; [reflexivity|].
  destruct (List.filter _ _); [discriminate Hlen|reflexivity].
Qed.

(** The header of a file's diff is matched as a whole, and the capture is
    the path. *)
Lemma matchNewFile_line path rest :
  plainPath path = true ->
  matchLiteralDotPlus "+++ b/" (diffLine (NewFile path) ++ LF ++ rest)
  = Some (path, String.length (diffLine (NewFile path))).
Proof.
  intros (Hpath & Hdot)%plainPath_inv. cbn [diffLine].
  rewrite string_app_assoc. unfold matchLiteralDotPlus.
  rewrite prefix_app, dropStr_app, (dotPlus_app path rest Hdot).
  rewrite string_app_length. destruct path; [congruence|reflexivity].
Qed.

(** X23.  The parser of the pre-flight check reads the headers of a diff
    back: when the dry-run output consists of lines, each ended by a line
    feed, that are either [+++ b/<path>] or text without [+++ b/], followed
    by such a text, then the files it finds are the paths, in order; the
    rejection lists them, and lists nothing ([undefined]) when there is
    none. *)
Theorem preflightConflictFiles_report lines tail :
  forallb plainDiffLine lines = true ->
  includes "+++ b/" tail = false ->
  preflightConflictFiles (report diffLine lines tail)
  = omap newFilePath lines
  /\ conflictFiles (preflightRejection (report diffLine lines tail))
     = match omap newFilePath lines with
       | [] => None
       | files => Some files
       end.
Proof.
  intros Hlines Htail.
  assert (Hscan : preflightConflictFiles (report diffLine lines tail)
                  = omap newFilePath lines).
  { unfold preflightConflictFiles. induction lines as [|l lines IH].
    - apply (scanAll_text_end _ "+++ b/");
        [exact (matchLiteralDotPlus_prefix "+++ b/")|exact Htail].
    - cbn [forallb] in Hlines. apply andb_prop in Hlines as [Hl Hlines].
      cbn [report omap list_omap]. destruct l as [path|text].
      + cbn [plainDiffLine] in Hl.
        assert (Hne : diffLine (NewFile path) <> "").
        { cbn [diffLine]. rewrite append_cons. discriminate. }
        rewrite (scanAll_match _ _ _ _ Hne (matchNewFile_line path _ Hl)).
        change (LF ++ ?rest) with (String "010" rest).
        rewrite scanAll_miss by reflexivity. cbn [newFilePath].
        now rewrite IH.
      + cbn [plainDiffLine diffLine newFilePath] in *.
        apply negb_true_iff in Hl.
        rewrite (scanAll_text_line _ "+++ b/");
          [now apply IH|exact (matchLiteralDotPlus_prefix "+++ b/")
          |reflexivity|exact Hl]. }
  split; [exact Hscan|].
  unfold preflightRejection. cbv zeta. cbn [conflictFiles]. rewrite Hscan.
  now destruct (omap newFilePath lines).
Qed.

End ReportFacts.

Section ReportWitnesses.

Import Js GitMerge GitReport.

Open Scope string_scope.

Lemma mergeConflictFiles_report_witness :
  mergeConflictFiles
    (report mergeLine
       [MergeText "Auto-merging src/app.ts";
        ConflictIn "content" "src/app.ts";
        ConflictIn "add/add" "docs/read me.md";
        MergeText "Automatic merge failed; fix conflicts and then commit the result."]
       "Command failed: git merge --squash feature/x")
  = Some ["src/app.ts"; "docs/read me.md"].
Proof.
  apply (mergeConflictFiles_report
           [MergeText "Auto-merging src/app.ts";
            ConflictIn "content" "src/app.ts";
            ConflictIn "add/add" "docs/read me.md";
            MergeText "Automatic merge failed; fix conflicts and then commit the result."]
           "Command failed: git merge --squash feature/x");
    reflexivity.
Defined.

Lemma preflightConflictFiles_report_witness :
  preflightConflictFiles
    (report diffLine
       [DiffText "changed in both";
        DiffText "--- a/src/app.ts";
        NewFile "src/app.ts";
        DiffText "<<<<<<< .our"] "")
  = ["src/app.ts"]
  /\ conflictFiles
       (preflightRejection
          (report diffLine
             [DiffText "changed in both";
              DiffText "--- a/src/app.ts";
              NewFile "src/app.ts";
              DiffText "<<<<<<< .our"] ""))
     = Some ["src/app.ts"].
Proof.
  apply (preflightConflictFiles_report
           [DiffText "changed in both";
            DiffText "--- a/src/app.ts";
            NewFile "src/app.ts";
            DiffText "<<<<<<< .our"] ""); reflexivity.
Defined.

End ReportWitnesses.

(** ** Diagnostics: the merge queue *)

Section QueueFacts.

Import Js DiagnosticsRoutes.

Context {Metadata AgentData : Type}.
Context (getOrchestratorTaskMeta
           : Metadata -> option Diagnostics.OrchestratorTaskMeta).
Context (dateTime : string -> option Z).

Implicit Types (task : @Task Metadata).

(** What one round of the loop adds. *)
Lemma queueStep_eq now acc task :
  queueStep getOrchestratorTaskMeta dateTime now acc task
  = mkQueue
      (awaitingMergeCount acc
       + if String.eqb (mergeStatusOf getOrchestratorTaskMeta task) "pending"
         then 1 else 0)
      (stuckInTestingCount acc
       + if String.eqb (mergeStatusOf getOrchestratorTaskMeta task) "testing"
            && overdue dateTime now task then 1 else 0)
      (stuckInMergingCount acc
       + if String.eqb (mergeStatusOf getOrchestratorTaskMeta task) "merging"
            && overdue dateTime now task then 1 else 0)
      (stuckTasks acc
       ++ match stuckMergeEntry getOrchestratorTaskMeta dateTime now task with
          | Some d => [d]
          | None => []
          end).
Proof.
  unfold queueStep, stuckMergeEntry. cbv zeta.
  destruct (String.eqb_spec (mergeStatusOf getOrchestratorTaskMeta task)
              "pending") as [Hp|Hp];
    destruct (String.eqb_spec (mergeStatusOf getOrchestratorTaskMeta task)
                "testing") as [Ht|Ht];
    destruct (String.eqb_spec (mergeStatusOf getOrchestratorTaskMeta task)
                "merging") as [Hm|Hm];
    try congruence;
    destruct (overdue dateTime now task); destruct acc; simpl;
    rewrite ?Z.add_0_r, ?app_nil_r; reflexivity.
Qed.

(** The loop as a whole: it adds up what each round adds. *)
Lemma queue_fold now (tasks : list (@Task Metadata)) acc :
  fold_left (queueStep getOrchestratorTaskMeta dateTime now) tasks acc
  = mkQueue
      (awaitingMergeCount acc
       + Z.of_nat (length (List.filter
                             (fun t => String.eqb
                                         (mergeStatusOf getOrchestratorTaskMeta t)
                                         "pending") tasks)))
      (stuckInTestingCount acc
       + Z.of_nat (length (List.filter
                             (fun t => String.eqb
                                         (mergeStatusOf getOrchestratorTaskMeta t)
                                         "testing"
                                       && overdue dateTime now t) tasks)))
      (stuckInMergingCount acc
       + Z.of_nat (length (List.filter
                             (fun t => String.eqb
                                         (mergeStatusOf getOrchestratorTaskMeta t)
                                         "merging"
                                       && overdue dateTime now t) tasks)))
      (stuckTasks acc
       ++ omap (stuckMergeEntry getOrchestratorTaskMeta dateTime now) tasks).
Proof.
  revert acc. induction tasks as [|task rest IH]; intros acc.
  - simpl. rewrite !Z.add_0_r, app_nil_r. now destruct acc.
  - cbn [fold_left]. rewrite IH, queueStep_eq. cbn [List.filter omap list_omap].
    cbn [awaitingMergeCount stuckInTestingCount stuckInMergingCount stuckTasks].
    f_equal.
    + destruct (String.eqb _ "pending"); cbn [length]; lia.
    + destruct (String.eqb _ "testing" && _); cbn [length]; lia.
    + destruct (String.eqb _ "merging" && _); cbn [length]; lia.
    + rewrite <- app_assoc. f_equal.
      now destruct (stuckMergeEntry _ _ _ _).
Qed.

(** A task's entry has merge status [testing] (or [merging]) exactly when
    the task is in that status and overdue. *)
Lemma stuckMergeEntry_status now (task : @Task Metadata) s :
  s = "testing"%string \/ s = "merging"%string ->
  match stuckMergeEntry getOrchestratorTaskMeta dateTime now task with
  | Some d => hasMergeStatus s d
  | None => false
  end
  = String.eqb (mergeStatusOf getOrchestratorTaskMeta task) s
    && overdue dateTime now task.
Proof.
  intros Hs. unfold stuckMergeEntry, hasMergeStatus.
  destruct (overdue dateTime now task); rewrite ?andb_false_r, ?andb_true_r.
  - destruct (String.eqb_spec (mergeStatusOf getOrchestratorTaskMeta task)
                "testing") as [Ht|Ht];
      destruct (String.eqb_spec (mergeStatusOf getOrchestratorTaskMeta task)
                  "merging") as [Hm|Hm]; simpl.
    + congruence.
    + reflexivity.
    + reflexivity.
    + destruct Hs as [-> | ->]; symmetry; now apply String.eqb_neq.
  - reflexivity.
Qed.

(** The entries of one merge status are those of the tasks in that status
    that are overdue. *)
Lemma stuck_by_status now (tasks : list (@Task Metadata)) s :
  s = "testing"%string \/ s = "merging"%string ->
  length (List.filter (hasMergeStatus s)
            (omap (stuckMergeEntry getOrchestratorTaskMeta dateTime now) tasks))
  = length (List.filter
              (fun t => String.eqb (mergeStatusOf getOrchestratorTaskMeta t) s
                        && overdue dateTime now t) tasks).
Proof.
  intros Hs. induction tasks as [|task rest IH]; [reflexivity|].
  cbn [omap list_omap List.filter].
  rewrite <- (stuckMergeEntry_status now task s Hs).
  destruct (stuckMergeEntry getOrchestratorTaskMeta dateTime now task) as [d|];
    [|exact IH].
  cbn [List.filter]. destruct (hasMergeStatus s d); cbn [length]; now rewrite IH.
Qed.

(** The stuck list holds the entries of the review tasks, in order. *)
Lemma collectMergeQueue_stuckTasks now
    (services : @Services Metadata AgentData) :
  stuckTasks (collectMergeQueue getOrchestratorTaskMeta dateTime now services)
  = omap (stuckMergeEntry getOrchestratorTaskMeta dateTime now)
      (List.filter isReview (apiList services)).
Proof. unfold collectMergeQueue. cbv zeta. now rewrite queue_fold. Qed.

(** X16.  [collectMergeQueue] looks at the tasks in status [review] only.
    [awaitingMergeCount] is the number of them whose merge status is
    [pending], which is also what a task without a merge status counts as;
    [stuckInTestingCount] and [stuckInMergingCount] are the numbers of
    entries of [stuckTasks] with that merge status, and together they are
    its length.  A task is counted at most once, so the three counts never
    add up to more than the number of review tasks. *)
Theorem collectMergeQueue_counts now (services : @Services Metadata AgentData) :
  let queue := collectMergeQueue getOrchestratorTaskMeta dateTime now services in
  let review := List.filter isReview (apiList services) in
  stuckTasks queue
  = omap (stuckMergeEntry getOrchestratorTaskMeta dateTime now) review
  /\ awaitingMergeCount queue
     = Z.of_nat (length (List.filter
                           (fun t => String.eqb
                                       (mergeStatusOf getOrchestratorTaskMeta t)
                                       "pending") review))
  /\ stuckInTestingCount queue
     = Z.of_nat (length (List.filter (hasMergeStatus "testing")
                           (stuckTasks queue)))
  /\ stuckInMergingCount queue
     = Z.of_nat (length (List.filter (hasMergeStatus "merging")
                           (stuckTasks queue)))
  /\ stuckInTestingCount queue + stuckInMergingCount queue
     = Z.of_nat (length (stuckTasks queue))
  /\ awaitingMergeCount queue + stuckInTestingCount queue
     + stuckInMergingCount queue
     <= Z.of_nat (length review).
Proof.
  cbv zeta. unfold collectMergeQueue. cbv zeta. fold (@isReview Metadata).
  set (review := List.filter isReview (apiList services)).
  rewrite queue_fold.
  cbn [awaitingMergeCount stuckInTestingCount stuckInMergingCount stuckTasks
       app Z.add].
  rewrite !stuck_by_status by auto.
  split; [reflexivity|]. split; [reflexivity|]. split; [reflexivity|].
  split; [reflexivity|].
  clear. induction review as [|task rest IH]; [split; reflexivity|].
  cbn [List.filter omap list_omap].
  pose proof (stuckMergeEntry_status now task "testing" (or_introl eq_refl))
    as Ht.
  pose proof (stuckMergeEntry_status now task "merging" (or_intror eq_refl))
    as Hm.
  unfold stuckMergeEntry in *.
  destruct (String.eqb_spec (mergeStatusOf getOrchestratorTaskMeta task)
              "pending") as [Hp|Hp];
    destruct (String.eqb_spec (mergeStatusOf getOrchestratorTaskMeta task)
                "testing") as [Ht'|Ht'];
    destruct (String.eqb_spec (mergeStatusOf getOrchestratorTaskMeta task)
                "merging") as [Hm'|Hm'];
    try congruence;
    destruct (overdue dateTime now task); cbn [orb andb length] in *; lia.
Qed.

(** X17.  A task is reported in [stuckTasks] exactly when its status is
    [review], its merge status is [testing] or [merging], and its last
    update lies more than ten minutes ([STUCK_MERGE_THRESHOLD_MS]) before
    [now]; the bound itself is not yet stuck.  A task without [updatedAt]
    counts as updated at time 0; one whose [updatedAt] does not parse as a
    date is never reported. *)
Theorem collectMergeQueue_stuck now (services : @Services Metadata AgentData) :
  (forall d,
     In d (stuckTasks
             (collectMergeQueue getOrchestratorTaskMeta dateTime now services))
     <->
     exists task,
       In task (apiList services)
       /\ status task = Diagnostics.REVIEW
       /\ (mergeStatusOf getOrchestratorTaskMeta task = "testing"%string
           \/ mergeStatusOf getOrchestratorTaskMeta task = "merging"%string)
       /\ (exists updated,
             updatedAtTime dateTime task = Some updated /\
             now - updated > STUCK_MERGE_THRESHOLD_MS)
       /\ d = stuckMergeOf getOrchestratorTaskMeta task)
  /\ (forall task,
        updatedAt task = None \/ updatedAt task = Some ""%string ->
        updatedAtTime dateTime task = Some 0)
  /\ (forall task s,
        updatedAt task = Some s -> s <> ""%string -> dateTime s = None ->
        overdue dateTime now task = false).
Proof.
  split; [|split].
  - intros d.
    rewrite collectMergeQueue_stuckTasks.
    rewrite <- list_elem_of_In, list_elem_of_omap. split.
    + intros (task & Hin & Hentry).
      apply list_elem_of_In, filter_In in Hin as [Hin Hreview].
      exists task. split; [exact Hin|].
      split; [now apply String.eqb_eq|].
      unfold stuckMergeEntry, overdue in Hentry.
      destruct (updatedAtTime dateTime task) as [updated|];
        [|rewrite andb_false_r in Hentry; discriminate].
      destruct (Z.gtb_spec (now - updated) STUCK_MERGE_THRESHOLD_MS);
        [|rewrite andb_false_r in Hentry; discriminate].
      rewrite andb_true_r in Hentry.
      destruct (String.eqb_spec (mergeStatusOf getOrchestratorTaskMeta task)
                  "testing") as [Ht|Ht];
        destruct (String.eqb_spec (mergeStatusOf getOrchestratorTaskMeta task)
                    "merging") as [Hm|Hm];
        simpl in Hentry; try discriminate; injection Hentry as <-;
        (split; [auto|]); (split; [|reflexivity]); exists updated; split;
        trivial; lia.
    + intros (task & Hin & Hreview & Hstatus & (updated & Hupd & Hold) & ->).
      exists task. split.
      * apply list_elem_of_In, filter_In. split; [exact Hin|].
        now apply String.eqb_eq.
      * unfold stuckMergeEntry, overdue. rewrite Hupd.
        destruct (Z.gtb_spec (now - updated) STUCK_MERGE_THRESHOLD_MS); [|lia].
        destruct Hstatus as [-> | ->]; reflexivity.
  - intros task [Hnone|Hempty]; unfold updatedAtTime.
    + now rewrite Hnone.
    + now rewrite Hempty.
  - intros task s Hs Hne Hnan. unfold overdue, updatedAtTime. rewrite Hs.
    apply String.eqb_neq in Hne. now rewrite Hne, Hnan.
Qed.

End QueueFacts.

(** ** Diagnostics: the agent pool *)

Section PoolFacts.

Import Js DiagnosticsRoutes.

Context {Metadata AgentData : Type}.
Context (getAgentMetadata : AgentData -> option AgentMetadata).
Context (dateTime : string -> option Z).

Implicit Types (services : @Services Metadata AgentData).

Lemma pool_fold now services (agents : list (@Agent AgentData)) busy idle
    running :
  fold_left (poolStep getAgentMetadata dateTime now services) agents
    (busy, idle, running)
  = (busy + Z.of_nat (length (omap (runningSession services) agents)),
     idle + Z.of_nat (length agents)
     - Z.of_nat (length (omap (runningSession services) agents)),
     (running
      ++ omap (poolEntry getAgentMetadata dateTime now services) agents)%list).
Proof.
  revert busy idle running.
  induction agents as [|agent rest IH]; intros busy idle running.
  - simpl. rewrite app_nil_r. repeat f_equal; lia.
  - cbn [fold_left]. unfold poolStep at 2, poolEntry.
    cbn [omap list_omap].
    destruct (runningSession services agent) as [session|]; rewrite IH;
      cbn [fmap option_fmap option_map length]; rewrite <- ?app_assoc;
      f_equal; try f_equal; try lia; reflexivity.
Qed.

(** X18.  [collectAgentPool] counts every registered agent once: as busy
    when its active session has the status [running], as idle otherwise, so
    that the busy and the idle agents add up to [totalAgents].  [sessions]
    holds one entry per busy agent, in the order of the registry.  The
    utilization is computed from the two counts when there are agents; with
    no agent the result is all zeros, and nothing is divided by zero. *)
Theorem collectAgentPool_counts now services :
  let pool := collectAgentPool getAgentMetadata dateTime now services in
  totalAgents pool = Z.of_nat (length (listAgents services))
  /\ busyAgents pool + idleAgents pool = totalAgents pool
  /\ 0 <= busyAgents pool /\ 0 <= idleAgents pool
  /\ busyAgents pool = Z.of_nat (length (sessions pool))
  /\ sessions pool
     = omap (poolEntry getAgentMetadata dateTime now services)
         (listAgents services)
  /\ (listAgents services <> [] ->
      utilizationPercent pool
      = percentOf (busyAgents pool) (totalAgents pool))
  /\ (listAgents services = [] ->
      pool = mkPool 0 0 0 (Some 0) []).
Proof.
  cbv zeta. unfold collectAgentPool. cbv zeta. rewrite pool_fold.
  cbn [totalAgents busyAgents idleAgents sessions app].
  assert (Hlen : forall agents : list (@Agent AgentData),
            length (omap (poolEntry getAgentMetadata dateTime now services)
                      agents)
            = length (omap (runningSession services) agents)
            /\ (length (omap (runningSession services) agents)
                <= length agents)%nat).
  { induction agents as [|agent rest [IH1 IH2]]; [split; reflexivity|].
    cbn [omap list_omap]. unfold poolEntry at 1.
    destruct (runningSession services agent); cbn [fmap option_fmap option_map length];
      split; lia. }
  destruct (Hlen (listAgents services)) as [Hsame Hle].
  repeat split; try lia.
  - intros Hne. destruct (listAgents services) as [|agent rest];
      [congruence|reflexivity].
  - intros ->. reflexivity.
Qed.

End PoolFacts.

(** ** The unit tests of the diagnostics route, replayed on the model *)

Section DiagnosticsTests.

Import DiagnosticsRoutes DiagnosticsScenario.

Open Scope string_scope.

(** The test 'counts idle and busy agents'. *)
Example collectAgentPool_test :
  collectAgentPool (fun meta => meta) testDateTime testNow testServices
  = mkPool 2 1 1 (Some 50)
      [mkPoolSession "el-busy" "busy-worker" "worker" "session-1"
         (Some 60000)].
Proof. vm_compute. reflexivity. Qed.

(** The test 'identifies tasks stuck in testing'. *)
Example collectMergeQueue_test :
  collectMergeQueue (fun meta => meta) testDateTime testNow testServices
  = mkQueue 0 1 0
      [mkStuckMerge "el-testing1" "Testing task" "testing" "15 mins ago"].
Proof. vm_compute. reflexivity. Qed.

(** The percentage is rounded in double arithmetic: 29 busy agents of 200
    are 14 percent, since [29 / 200 * 100] is 14.499999999999998. *)
Example percentOf_rounding :
  percentOf 1 3 = Some 33 /\ percentOf 2 3 = Some 67
  /\ percentOf 1 8 = Some 13 /\ percentOf 29 200 = Some 14.
Proof. vm_compute. repeat split. Qed.

End DiagnosticsTests.

(** ** The operation log *)

Section OperationLogFacts.

Import Js OperationLog.

Lemma pushIf_eq value condition acc :
  pushIf value condition acc
  = match applied value with
    | Some v => ((acc.1 ++ [condition])%list, (acc.2 ++ [PText v])%list)
    | None => acc
    end.
Proof.
  unfold pushIf, applied. destruct value as [v|]; [|reflexivity].
  now destruct (String.eqb v "").
Qed.

(** X19.  The statement that [query(filters)] builds is parameterised: it
    has exactly as many placeholders as values are bound.  The values are
    those of the filters that are set (a filter that is [undefined] or empty
    is not applied), in the order level, category, since, task, agent,
    followed by the limit, 20 when none is given.  No filter value ever
    becomes part of the text: the text depends only on which filters are
    applied. *)
Theorem queryStatement_parameterised filters :
  placeholders (queryStatement filters).1
  = length (queryStatement filters).2
  /\ (queryStatement filters).2
     = ((PText <$> omap applied
                     [level filters; category filters; since filters;
                      taskId filters; agentId filters])
        ++ [PNumber (nullish (limit filters) 20)])%list
  /\ (forall others,
        isApplied (level others) = isApplied (level filters) ->
        isApplied (category others) = isApplied (category filters) ->
        isApplied (since others) = isApplied (since filters) ->
        isApplied (taskId others) = isApplied (taskId filters) ->
        isApplied (agentId others) = isApplied (agentId filters) ->
        (queryStatement others).1 = (queryStatement filters).1).
Proof.
  unfold queryStatement. cbv zeta. rewrite !pushIf_eq.
  cbn [omap list_omap].
  split; [|split].
  - destruct (applied (level filters)), (applied (category filters)),
      (applied (since filters)), (applied (taskId filters)),
      (applied (agentId filters)); reflexivity.
  - destruct (applied (level filters)), (applied (category filters)),
      (applied (since filters)), (applied (taskId filters)),
      (applied (agentId filters)); reflexivity.
  - intros others. rewrite !pushIf_eq. unfold isApplied.
    destruct (applied (level filters)), (applied (category filters)),
      (applied (since filters)), (applied (taskId filters)),
      (applied (agentId filters));
      destruct (applied (level others)); try discriminate;
      destruct (applied (category others)); try discriminate;
      destruct (applied (since others)); try discriminate;
      destruct (applied (taskId others)); try discriminate;
      destruct (applied (agentId others)); try discriminate;
      reflexivity.
Qed.

(** [query()]: no condition, and the default limit. *)
Example queryStatement_noFilters :
  queryStatement noFilters
  = ("SELECT id, timestamp, level, category, agent_id, task_id, message, details"
     ++ newline ++ indent ++ "FROM operation_log"
     ++ newline ++ indent
     ++ newline ++ indent ++ "ORDER BY timestamp DESC"
     ++ newline ++ indent ++ "LIMIT ?",
     [PNumber 20])%string.
Proof. reflexivity. Qed.

End OperationLogFacts.

(** ** The time range of the metrics routes *)

Section MetricsFacts.

Import Js MetricsRoutes.

Lemma parseTimeRange_bounds value :
  (1 <= parseTimeRange value <= 365)%N.
Proof.
  unfold parseTimeRange. destruct value as [v|]; [|lia].
  destruct (String.eqb v ""); [lia|].
  destruct (matchDays v) as [digits|]; [|lia]. cbv zeta.
  destruct (N.ltb_spec 0 (parseInt10 digits)),
    (N.leb_spec (parseInt10 digits) 365); simpl; lia.
Qed.

Lemma string_of_uint_not_d u :
  u <> Decimal.Nil ->
  String.eqb (NilEmpty.string_of_uint u ++ "d") "d" = false.
Proof. destruct u; [congruence|..]; reflexivity. Qed.

Lemma matchDays_cons c rest :
  isDigit c = true ->
  matchDays (String c rest)
  = if String.eqb rest "d" then Some (String c EmptyString)
    else option_map (String c) (matchDays rest).
Proof. intros Hc. cbn [matchDays]. now rewrite Hc. Qed.

(** The digits of a number, followed by [d], match [/^(\d+)d$/], and the
    capture is the digits. *)
Lemma matchDays_digits u :
  u <> Decimal.Nil ->
  matchDays (NilEmpty.string_of_uint u ++ "d")
  = Some (NilEmpty.string_of_uint u).
Proof.
  induction u as [|u IH|u IH|u IH|u IH|u IH|u IH|u IH|u IH|u IH|u IH];
    [congruence|..]; intros _;
    cbn [NilEmpty.string_of_uint];
    match goal with
    | |- context [String ?c ?s ++ ?t] =>
        change (String c s ++ t) with (String c (s ++ t))
    end;
    rewrite matchDays_cons by reflexivity;
    (destruct (Decimal.uint_eq_dec u Decimal.Nil) as [->|Hne];
     [reflexivity|]);
    rewrite (string_of_uint_not_d u Hne), (IH Hne); reflexivity.
Qed.

Lemma to_uint_not_Nil n : N.to_uint n <> Decimal.Nil.
Proof.
  intros Hnil. pose proof (Unsigned.of_to n) as Hn. rewrite Hnil in Hn.
  subst n. discriminate Hnil.
Qed.

Lemma decimal_eq n : decimal n = NilEmpty.string_of_uint (N.to_uint n).
Proof.
  unfold decimal, NilZero.string_of_uint.
  pose proof (to_uint_not_Nil n). now destruct (N.to_uint n).
Qed.

Lemma parseInt10_decimal n : parseInt10 (decimal n) = n.
Proof.
  unfold parseInt10, decimal.
  rewrite NilZero.usu by apply to_uint_not_Nil. apply Unsigned.of_to.
Qed.

Lemma parseTimeRange_labelOf n :
  parseTimeRange (Some (labelOf n))
  = if ((0 <? n) && (n <=? 365))%N then n else 7%N.
Proof.
  unfold parseTimeRange, labelOf.
  assert (Hne : String.eqb (decimal n ++ "d") "" = false).
  { rewrite decimal_eq. pose proof (to_uint_not_Nil n).
    now destruct (N.to_uint n). }
  rewrite Hne. rewrite decimal_eq at 1.
  rewrite matchDays_digits by apply to_uint_not_Nil.
  rewrite <- decimal_eq, parseInt10_decimal. reflexivity.
Qed.

(** X20.  [parseTimeRange] always returns a number of days between 1 and
    365.  A label [<n>d] with [n] in that range is read back as [n], and any
    other [n] gives the default, 7; so the label of a parsed range parses to
    the same range.  A missing or empty value, and one that is not decimal
    digits followed by [d], give 7 as well. *)
Theorem parseTimeRange_round_trip :
  (forall value, (1 <= parseTimeRange value <= 365)%N)
  /\ (forall days,
        parseTimeRange (Some (labelOf days))
        = if ((0 <? days) && (days <=? 365))%N then days else 7%N)
  /\ (forall value,
        parseTimeRange (Some (labelOf (parseTimeRange value)))
        = parseTimeRange value)
  /\ parseTimeRange None = 7%N
  /\ parseTimeRange (Some "") = 7%N
  /\ (forall value, matchDays value = None ->
        parseTimeRange (Some value) = 7%N).
Proof.
  split; [exact parseTimeRange_bounds|]. split; [exact parseTimeRange_labelOf|].
  split; [|split; [reflexivity|split; [reflexivity|]]].
  - intros value. rewrite parseTimeRange_labelOf.
    pose proof (parseTimeRange_bounds value) as [Hlo Hhi].
    destruct (N.ltb_spec 0 (parseTimeRange value)),
      (N.leb_spec (parseTimeRange value) 365); simpl; trivial; lia.
  - intros value Hno. unfold parseTimeRange. rewrite Hno.
    now destruct (String.eqb value "").
Qed.

End MetricsFacts.
